(** * smart-search-ir-system: a shallow embedding and its verified properties

    The development follows the repository's layout:
    - [utils/sorter.py]            merge, merge_sort, sort_results
    - [structures/trie.py]         TrieNode, Trie
    - [structures/graph.py]        DocumentGraph and PageRank
    - [structures/b_plus_tree.py]  LeafNode, InternalNode, BPlusTree
    - [engine.py]                  SearchEngine

    Python floats are modelled by exact rationals ([Q]); Python [str] by a
    list of code points; Python exceptions by the [exn] error monad. *)

From Stdlib Require Import ZArith QArith Qabs List Lia Sorting.Sorted Sorting.Permutation.

From Equations Require Import Equations.
From stdpp Require Import base option list strings gmap.

Set Default Proof Using "Type".
Local Open Scope Z_scope.
#[local] Arguments Nat.div : simpl never.

(** ** Python exceptions as an error monad *)

Inductive pyerr := IndexError | ValueError | KeyError | DanglingRef | OutOfFuel.

Inductive exn (A : Type) : Type :=
| Ok (a : A)
| Raise (e : pyerr).
Arguments Ok {A} a.
Arguments Raise {A} e.

#[global] Instance exn_ret : MRet exn := λ A a, Ok a.
#[global] Instance exn_bind : MBind exn := λ A B f m,
  match m with
  | Ok a => f a
  | Raise e => Raise e
  end.

(** [l[i]] on a Python list raises [IndexError] out of range. *)
Definition py_get {A} (l : list A) (i : nat) : exn A :=
  match l !! i with
  | Some a => Ok a
  | None => Raise IndexError
  end.

(** [l.insert(i, x)] for [0 <= i]: inserts before position [i], and appends
    when [i] is past the end. *)
Definition py_list_insert {A} (i : nat) (x : A) (l : list A) : list A :=
  take i l ++ x :: drop i l.

(** ** Python dicts

    A [dict] keeps its keys in insertion order: an association list in
    which each key occurs once.  [dict_get] is [d.get(k)] (and decides
    [k in d]); [dict_set] is [d[k] = v], which overwrites in place when the
    key exists and adds the key at the end otherwise. *)
Fixpoint dict_get `{EqDecision K} {V} (k : K) (d : list (K * V)) : option V :=
  match d with
  | [] => None
  | (k', v) :: d' => if decide (k' = k) then Some v else dict_get k d'
  end.

Fixpoint dict_set `{EqDecision K} {V} (k : K) (v : V) (d : list (K * V)) : list (K * V) :=
  match d with
  | [] => [(k, v)]
  | (k', v') :: d' =>
      if decide (k' = k) then (k, v) :: d' else (k', v') :: dict_set k v d'
  end.

(** [d[k]] raises [KeyError] when the key is missing. *)
Definition dict_item `{EqDecision K} {V} (d : list (K * V)) (k : K) : exn V :=
  match dict_get k d with
  | Some v => Ok v
  | None => Raise KeyError
  end.

(** A [for] loop whose body may raise, threading the loop's variables. *)
Fixpoint for_each {A S} (body : S → A → exn S) (l : list A) (s : S) : exn S :=
  match l with
  | [] => Ok s
  | a :: l' => s' ← body s a; for_each body l' s'
  end.

(** * utils/sorter.py *)

(** A result record is whatever carries a numeric ['score']. *)
Class Scored (R : Type) := score : R → Q.

Section sorter.
Context {R : Type} `{Scored R}.

(** [merge(left, right)]: the three [while] loops consume the two lists
    from their heads; [left[i]['score'] >= right[j]['score']] takes from
    the left. *)
Fixpoint merge (left : list R) : list R → list R :=
  fix merge_right (right : list R) : list R :=
    match left, right with
    | [], _ => right
    | _, [] => left
    | a :: left', b :: right' =>
        if Qle_bool (score b) (score a)
        then a :: merge left' right
        else b :: merge_right right'
    end.

(** [merge_sort(arr)]: [mid = len(arr) // 2], slices [arr[:mid]] and
    [arr[mid:]]. *)
Equations? merge_sort (arr : list R) : list R by wf (length arr) lt :=
  merge_sort arr with le_dec (length arr) 1 => {
    | left _ := arr;
    | right _ :=
        let mid := Nat.div (length arr) 2 in
        merge (merge_sort (take mid arr)) (merge_sort (drop mid arr)) }.
Proof.
  - rewrite length_take. assert (length arr / 2 < length arr)%nat
      by (apply Nat.div_lt; lia). lia.
  - rewrite length_drop.
    assert (0 < length arr / 2)%nat by (apply Nat.div_str_pos; lia). lia.
Qed.

(** [sort_results(results_list)] *)
Definition sort_results (results_list : list R) : list R :=
  match results_list with
  | [] => []
  | _ => merge_sort results_list
  end.
End sorter.

(** ** The same three functions over a store of list objects

    A Python variable holds a reference to a list object; [append] mutates
    the object in place and a slice allocates a fresh one.  The store is an
    arena: a reference is an index, allocation appends a cell. *)

Definition ref := nat.
Abbreviation store R := (list (list R)) (only parsing).
Definition St (R A : Type) : Type := store R → exn (A * store R).

#[global] Instance St_ret {R} : MRet (St R) := λ A a s, Ok (a, s).
#[global] Instance St_bind {R} : MBind (St R) := λ A B f m s,
  match m s with
  | Ok (a, s') => f a s'
  | Raise e => Raise e
  end.

Section sorter_store.
Context {R : Type} `{Scored R}.

Definition st_raise {A} (e : pyerr) : St R A := λ _, Raise e.

(** [[...]] or a slice: a new list object *)
Definition st_new (xs : list R) : St R ref := λ s, Ok (length s, s ++ [xs]).

Definition st_read (r : ref) : St R (list R) := λ s,
  match s !! r with
  | Some xs => Ok (xs, s)
  | None => Raise DanglingRef
  end.

(** [len(r)] *)
Definition st_len (r : ref) : St R nat := xs ← st_read r; mret (length xs).

(** [r[i]] *)
Definition st_getitem (r : ref) (i : nat) : St R R :=
  xs ← st_read r;
  match xs !! i with
  | Some x => mret x
  | None => st_raise IndexError
  end.

(** [r.append(x)] *)
Definition st_append (r : ref) (x : R) : St R unit := λ s,
  match s !! r with
  | Some xs => Ok (tt, <[r := xs ++ [x]]> s)
  | None => Raise DanglingRef
  end.

(** [r[:mid]] and [r[mid:]] *)
Definition st_slice_to (r : ref) (mid : nat) : St R ref :=
  xs ← st_read r; st_new (take mid xs).
Definition st_slice_from (r : ref) (mid : nat) : St R ref :=
  xs ← st_read r; st_new (drop mid xs).

(** [while i < len(left) and j < len(right): ...] *)
Fixpoint merge_while_both (fuel : nat) (left right result : ref) (i j : nat)
    : St R (nat * nat) :=
  match fuel with
  | O => st_raise OutOfFuel
  | S fuel =>
      nl ← st_len left;
      nr ← st_len right;
      if (i <? nl)%nat && (j <? nr)%nat then
        a ← st_getitem left i;
        b ← st_getitem right j;
        if Qle_bool (score b) (score a)
        then _ ← st_append result a;
             merge_while_both fuel left right result (S i) j
        else _ ← st_append result b;
             merge_while_both fuel left right result i (S j)
      else mret (i, j)
  end.

(** [while i < len(src): result.append(src[i]); i += 1] *)
Fixpoint merge_while_rest (fuel : nat) (src result : ref) (i : nat) : St R unit :=
  match fuel with
  | O => st_raise OutOfFuel
  | S fuel =>
      n ← st_len src;
      if (i <? n)%nat then
        a ← st_getitem src i;
        _ ← st_append result a;
        merge_while_rest fuel src result (S i)
      else mret tt
  end.

Definition merge_st (fuel : nat) (left right : ref) : St R ref :=
  result ← st_new [];
  '(i, j) ← merge_while_both fuel left right result 0%nat 0%nat;
  _ ← merge_while_rest fuel left result i;
  _ ← merge_while_rest fuel right result j;
  mret result.

Fixpoint merge_sort_st (fuel : nat) (arr : ref) : St R ref :=
  match fuel with
  | O => st_raise OutOfFuel
  | S fuel =>
      n ← st_len arr;
      if (n <=? 1)%nat then mret arr
      else
        let mid := Nat.div n 2 in
        left_half ← st_slice_to arr mid;
        right_half ← st_slice_from arr mid;
        left_sorted ← merge_sort_st fuel left_half;
        right_sorted ← merge_sort_st fuel right_half;
        merge_st fuel left_sorted right_sorted
  end.

Definition sort_results_st (fuel : nat) (results_list : ref) : St R ref :=
  n ← st_len results_list;
  if (n =? 0)%nat then st_new []
  else merge_sort_st fuel results_list.
End sorter_store.

(** * structures/trie.py *)

(** A Python [str] is a sequence of code points; [str.lower()] is taken as a
    parameter [lower] of the operations that call it. *)
Definition char := N.
Abbreviation pystr := (list N).

(** Lexicographic order by code point: the order of [<] on [str]. *)
Fixpoint str_ltb (a b : pystr) : bool :=
  match a, b with
  | [], [] => false
  | [], _ :: _ => true
  | _ :: _, [] => false
  | x :: a', y :: b' => (x <? y)%N || ((x =? y)%N && str_ltb a' b')
  end.
Definition str_lt (a b : pystr) : Prop := str_ltb a b = true.
Definition str_leb (a b : pystr) : bool := negb (str_ltb b a).

(** [list.sort()] on strings.  The order is total and antisymmetric, so the
    sorted list does not depend on the algorithm; insertion is used here. *)
Fixpoint sort_insert (x : pystr) (l : list pystr) : list pystr :=
  match l with
  | [] => [x]
  | y :: l' => if str_leb x y then x :: l else y :: sort_insert x l'
  end.
Definition py_sort (l : list pystr) : list pystr := foldr sort_insert [] l.

(** [l[:limit]] for any integer [limit]: a negative one counts from the end. *)
Definition py_slice_to {A} (limit : Z) (l : list A) : list A :=
  if (0 <=? limit)%Z then take (Z.to_nat limit) l
  else take (length l - Z.to_nat (- limit)) l.

(** [TrieNode]: [children] is a dict from characters to nodes. *)
#[local] Unset Elimination Schemes.
Inductive TrieNode : Type :=
  mkTrieNode (children : list (char * TrieNode)) (is_end_of_word : bool).
#[local] Set Elimination Schemes.

Definition children (n : TrieNode) : list (char * TrieNode) :=
  match n with mkTrieNode cs _ => cs end.
Definition is_end_of_word (n : TrieNode) : bool :=
  match n with mkTrieNode _ e => e end.

(** [TrieNode()] *)
Definition TrieNode_new : TrieNode := mkTrieNode [] false.

Record Trie := mkTrie { root : TrieNode }.

(** [Trie()] *)
Definition Trie_new : Trie := mkTrie TrieNode_new.

(** The loop of [Trie.insert] from [node] on, over the characters left. *)
Fixpoint TrieNode_insert (chars : pystr) (node : TrieNode) : TrieNode :=
  match chars with
  | [] => mkTrieNode (children node) true
  | c :: chars' =>
      let child :=
        match dict_get c (children node) with
        | Some child => child
        | None => TrieNode_new
        end in
      mkTrieNode (dict_set c (TrieNode_insert chars' child) (children node))
                 (is_end_of_word node)
  end.

Section trie.
Variable lower : pystr → pystr.

Definition Trie_insert (word : pystr) (t : Trie) : Trie :=
  mkTrie (TrieNode_insert (lower word) (root t)).

(** The loop of [_search_prefix] from [node] on. *)
Fixpoint TrieNode_search_prefix (chars : pystr) (node : TrieNode) : option TrieNode :=
  match chars with
  | [] => Some node
  | c :: chars' =>
      match dict_get c (children node) with
      | None => None
      | Some child => TrieNode_search_prefix chars' child
      end
  end.

Definition Trie_search_prefix (t : Trie) (prefix : pystr) : option TrieNode :=
  TrieNode_search_prefix (lower prefix) (root t).

(** [_collect_words(node, prefix, words)]: [words] is appended to in
    place; the function returns the list as it is afterwards. *)
Fixpoint Trie_collect_words (node : TrieNode) (prefix : pystr) (words : list pystr)
    : list pystr :=
  match node with
  | mkTrieNode cs e =>
      let words := if e then words ++ [prefix] else words in
      (fix items (cs : list (char * TrieNode)) (words : list pystr) : list pystr :=
         match cs with
         | [] => words
         | (c, child_node) :: cs' =>
             items cs' (Trie_collect_words child_node (prefix ++ [c]) words)
         end) cs words
  end.

Definition Trie_autocomplete (t : Trie) (prefix : pystr) (limit : Z) : list pystr :=
  match Trie_search_prefix t prefix with
  | None => []
  | Some node =>
      let words := Trie_collect_words node (lower prefix) [] in
      py_slice_to limit (py_sort words)
  end.
End trie.

(** Code points of an ASCII literal, and ASCII lowercase, to run examples. *)
Definition py (s : String.string) : pystr :=
  map (λ a, N.of_nat (Ascii.nat_of_ascii a)) (String.list_ascii_of_string s).
Arguments py s%_string.
Definition ascii_lower_char (c : char) : char :=
  if (65 <=? c)%N && (c <=? 90)%N then (c + 32)%N else c.
Definition ascii_lower (s : pystr) : pystr := map ascii_lower_char s.

(** * structures/graph.py *)

(** Floats are modelled by exact rationals.  A score is stored in lowest
    terms ([Qred]), which changes its representation only. *)
Record DocumentGraph := mkDocumentGraph {
  adjacency_list : list (Z * list Z);
  incoming_links : list (Z * list Z);
  pagerank_scores : list (Z * Q)
}.

(** [DocumentGraph()] *)
Definition DocumentGraph_new : DocumentGraph := mkDocumentGraph [] [] [].

Definition add_node (g : DocumentGraph) (doc_id : Z) : DocumentGraph :=
  if dict_get doc_id (adjacency_list g) is Some _ then g
  else mkDocumentGraph (dict_set doc_id [] (adjacency_list g))
                       (dict_set doc_id [] (incoming_links g))
                       (pagerank_scores g).

Definition add_link (g : DocumentGraph) (from_doc to_doc : Z) : exn DocumentGraph :=
  let g := add_node (add_node g from_doc) to_doc in
  outs ← dict_item (adjacency_list g) from_doc;
  if bool_decide (to_doc ∈ outs) then Ok g
  else
    ins ← dict_item (incoming_links g) to_doc;
    Ok (mkDocumentGraph (dict_set from_doc (outs ++ [to_doc]) (adjacency_list g))
                        (dict_set to_doc (ins ++ [from_doc]) (incoming_links g))
                        (pagerank_scores g)).

(** A sequence of [add_link] calls *)
Definition add_links (g : DocumentGraph) (edges : list (Z * Z)) : exn DocumentGraph :=
  for_each (λ g e, add_link g e.1 e.2) edges g.

Definition Qnat (n : nat) : Q := inject_Z (Z.of_nat n).

(** [max(...)] of a sequence of numbers; [ValueError] on an empty one. *)
Definition py_max (l : list Q) : exn Q :=
  match l with
  | [] => Raise ValueError
  | x :: l' => Ok (foldl (λ m y, if Qle_bool y m then m else y) x l')
  end.

Definition Qlt_bool (a b : Q) : bool := negb (Qle_bool b a).

Section pagerank.
Variables (g : DocumentGraph) (damping_factor : Q) (num_nodes : nat).

(** The body of [for incoming_doc in self.incoming_links[doc_id]] *)
Definition add_contribution (current_scores : list (Z * Q)) (score : Q)
    (incoming_doc : Z) : exn Q :=
  outs ← dict_item (adjacency_list g) incoming_doc;
  let out_degree := length outs in
  cur ← dict_item current_scores incoming_doc;
  if (0 <? out_degree)%nat
  then Ok (score + damping_factor * cur / Qnat out_degree)%Q
  else Ok (score + damping_factor * cur / Qnat num_nodes)%Q.

(** The body of [for doc_id in self.adjacency_list] *)
Definition node_score (current_scores : list (Z * Q)) (doc_id : Z) : exn Q :=
  let score := ((1 - damping_factor) / Qnat num_nodes)%Q in
  ins ← dict_item (incoming_links g) doc_id;
  for_each (add_contribution current_scores) ins score.

Definition pagerank_iteration (current_scores : list (Z * Q)) : exn (list (Z * Q)) :=
  for_each (λ new_scores doc_id,
              score ← node_score current_scores doc_id;
              Ok (dict_set doc_id (Qred score) new_scores))
           (map fst (adjacency_list g)) [].

Definition max_diff (new_scores current_scores : list (Z * Q)) : exn Q :=
  diffs ← mapM (λ doc_id,
                  n ← dict_item new_scores doc_id;
                  c ← dict_item current_scores doc_id;
                  Ok (Qabs (n - c)))
               (map fst (adjacency_list g));
  py_max diffs.

(** [for iteration in range(max_iterations)], with its [break] *)
Fixpoint pagerank_loop (tolerance : Q) (max_iterations : nat)
    (current_scores : list (Z * Q)) : exn (list (Z * Q)) :=
  match max_iterations with
  | O => Ok current_scores
  | S remaining =>
      new_scores ← pagerank_iteration current_scores;
      diff ← max_diff new_scores current_scores;
      if Qlt_bool diff tolerance then Ok current_scores
      else pagerank_loop tolerance remaining new_scores
  end.
End pagerank.

(** [calculate_pagerank]: the graph afterwards and the dict returned *)
Definition calculate_pagerank (g : DocumentGraph)
    (damping_factor : Q) (max_iterations : nat) (tolerance : Q)
    : exn (DocumentGraph * list (Z * Q)) :=
  match adjacency_list g with
  | [] => Ok (g, [])
  | _ =>
      let num_nodes := length (adjacency_list g) in
      let current_scores :=
        map (λ kv, (kv.1, Qred (1 / Qnat num_nodes))) (adjacency_list g) in
      scores ← pagerank_loop g damping_factor num_nodes tolerance
                 max_iterations current_scores;
      Ok (mkDocumentGraph (adjacency_list g) (incoming_links g) scores, scores)
  end.

(** The default arguments of [calculate_pagerank] *)
Definition default_damping_factor : Q := 85 # 100.
Definition default_max_iterations : nat := 100.
Definition default_tolerance : Q := 1 # 1000000.

Definition get_authority_score (g : DocumentGraph) (doc_id : Z) : Q :=
  default 0%Q (dict_get doc_id (pagerank_scores g)).

(** [sum(scores.values())] *)
Definition sum_scores (scores : list (Z * Q)) : Q :=
  foldl (λ acc kv, acc + kv.2)%Q 0%Q scores.

(** * structures/b_plus_tree.py *)

(** Leaves are shared objects: a leaf is referenced by its parent and by the
    [next_leaf] of the leaf before it.  They live in an arena ([loc] is an
    index, a new leaf is appended).  An internal node is referenced by its
    parent only, so the internal levels are a tree of values whose leaves
    are references into the arena. *)
Definition loc := nat.

Record LeafNode (V : Type) := mkLeafNode {
  keys : list Z;
  values : list V;
  next_leaf : option loc
}.
Arguments mkLeafNode {V} keys values next_leaf.
Arguments keys {V} _.
Arguments values {V} _.
Arguments next_leaf {V} _.

#[local] Unset Elimination Schemes.
Inductive Node : Type :=
| Leaf (l : loc)
| Internal (ikeys : list Z) (ichildren : list Node).
#[local] Set Elimination Schemes.
Arguments Leaf l%_nat.

Record BPlusTree (V : Type) := mkBPlusTree {
  order : Z;
  tree_root : Node;
  leaf_heap : list (LeafNode V)
}.
Arguments mkBPlusTree {V} order tree_root leaf_heap.
Arguments order {V} _.
Arguments tree_root {V} _.
Arguments leaf_heap {V} _.

(** [is_full]: [len(self.keys) >= self.order] *)
Definition is_full (order : Z) (ks : list Z) : bool :=
  (order <=? Z.of_nat (length ks))%Z.

(** [while pos < len(self.keys) and self.keys[pos] < key: pos += 1] *)
Fixpoint insert_pos (ks : list Z) (key : Z) : nat :=
  match ks with
  | [] => O
  | k :: ks' => if (k <? key)%Z then S (insert_pos ks' key) else O
  end.

(** [find_child_index]:
    [while idx < len(self.keys) and self.keys[idx] <= key: idx += 1] *)
Fixpoint find_child_index (ks : list Z) (key : Z) : nat :=
  match ks with
  | [] => O
  | k :: ks' => if (k <=? key)%Z then S (find_child_index ks' key) else O
  end.

(** [self.keys.index(key)]: the first position of [key], if any *)
Fixpoint list_index (key : Z) (ks : list Z) : option nat :=
  match ks with
  | [] => None
  | k :: ks' => if decide (k = key) then Some O else S <$> list_index key ks'
  end.

Section b_plus_tree.
Context {V : Type}.
Implicit Types (h : list (LeafNode V)) (l : loc) (key : Z) (value : V).

(** Following a reference to a leaf *)
Definition read_leaf h l : exn (LeafNode V) :=
  match h !! l with
  | Some lf => Ok lf
  | None => Raise DanglingRef
  end.

(** [LeafNode._split], on the leaf at [l] whose keys and values are already
    [ks] and [vs] *)
Definition LeafNode_split h l (ks : list Z) (vs : list V) (next : option loc)
    : exn (list (LeafNode V) * option (Z * Node)) :=
  let mid := Nat.div (length ks) 2 in
  let new_node := length h in
  let right := mkLeafNode (drop mid ks) (drop mid vs) next in
  let left := mkLeafNode (take mid ks) (take mid vs) (Some new_node) in
  first_key ← py_get (keys right) 0;
  Ok (<[l := left]> h ++ [right], Some (first_key, Leaf new_node)).

(** [LeafNode.insert]: the heap afterwards and [(new_key, new_node)] when
    the leaf was split *)
Definition LeafNode_insert (order : Z) h l key value
    : exn (list (LeafNode V) * option (Z * Node)) :=
  lf ← read_leaf h l;
  let pos := insert_pos (keys lf) key in
  if bool_decide (keys lf !! pos = Some key) then
    _ ← py_get (values lf) pos;
    Ok (<[l := mkLeafNode (keys lf) (<[pos := value]> (values lf)) (next_leaf lf)]> h,
        None)
  else
    let ks := py_list_insert pos key (keys lf) in
    let vs := py_list_insert pos value (values lf) in
    if is_full order ks then LeafNode_split h l ks vs (next_leaf lf)
    else Ok (<[l := mkLeafNode ks vs (next_leaf lf)]> h, None).

(** [LeafNode.search]: [ValueError] from [index] is caught, an
    [IndexError] from [self.values[idx]] would not be. *)
Definition LeafNode_search h l key : exn (option V) :=
  lf ← read_leaf h l;
  match list_index key (keys lf) with
  | None => Ok None
  | Some idx => v ← py_get (values lf) idx; Ok (Some v)
  end.

(** [InternalNode._split], on keys [ks] and children [cs] *)
Definition InternalNode_split (ks : list Z) (cs : list Node)
    : exn (Node * option (Z * Node)) :=
  let mid := Nat.div (length ks) 2 in
  middle_key ← py_get ks mid;
  Ok (Internal (take mid ks) (take (S mid) cs),
      Some (middle_key, Internal (drop (S mid) ks) (drop (S mid) cs))).

(** What [InternalNode.insert] does once the child at [idx] has split:
    the new key and child are inserted, and the node splits if it is
    full. *)
Definition InternalNode_add_child (order : Z) (ks : list Z) (cs : list Node)
    (idx : nat) (new_key : Z) (new_child : Node) : exn (Node * option (Z * Node)) :=
  let ks := py_list_insert idx new_key ks in
  let cs := py_list_insert (S idx) new_child cs in
  if is_full order ks then InternalNode_split ks cs
  else Ok (Internal ks cs, None).

(** [node.insert(key, value)] for either kind of node ([InternalNode.insert]
    is only ever called without [child_node]).  Returns the heap, the node
    as it is afterwards, and the split result. *)
Fixpoint Node_insert (order : Z) (n : Node) key value h {struct n}
    : exn (list (LeafNode V) * Node * option (Z * Node)) :=
  match n with
  | Leaf l =>
      '(h', result) ← LeafNode_insert order h l key value;
      Ok (h', Leaf l, result)
  | Internal ks cs =>
      let idx := find_child_index ks key in
      '(h', child, result) ←
        (fix child_insert (cs : list Node) (i : nat) {struct cs} :=
           match cs, i with
           | [], _ => Raise IndexError
           | c :: _, O => Node_insert order c key value h
           | _ :: cs', S i' => child_insert cs' i'
           end) cs idx;
      let cs := <[idx := child]> cs in
      match result with
      | None => Ok (h', Internal ks cs, None)
      | Some (new_key, new_child) =>
          '(n', result) ← InternalNode_add_child order ks cs idx new_key new_child;
          Ok (h', n', result)
      end
  end.

(** [node.search(key)] for either kind of node *)
Fixpoint Node_search (n : Node) key h {struct n} : exn (option V) :=
  match n with
  | Leaf l => LeafNode_search h l key
  | Internal ks cs =>
      (fix child_search (cs : list Node) (i : nat) {struct cs} :=
         match cs, i with
         | [], _ => Raise IndexError
         | c :: _, O => Node_search c key h
         | _ :: cs', S i' => child_search cs' i'
         end) cs (find_child_index ks key)
  end.

(** [BPlusTree(order)] *)
Definition BPlusTree_new (order : Z) : BPlusTree V :=
  mkBPlusTree order (Leaf 0) [mkLeafNode [] [] None].

Definition BPlusTree_insert (t : BPlusTree V) key value : exn (BPlusTree V) :=
  '(h, root, result) ← Node_insert (order t) (tree_root t) key value (leaf_heap t);
  match result with
  | None => Ok (mkBPlusTree (order t) root h)
  | Some (new_key, new_node) =>
      Ok (mkBPlusTree (order t) (Internal [new_key] [root; new_node]) h)
  end.

Definition BPlusTree_search (t : BPlusTree V) key : exn (option V) :=
  Node_search (tree_root t) key (leaf_heap t).

(** A sequence of [insert] calls *)
Definition BPlusTree_inserts (t : BPlusTree V) (ops : list (Z * V)) : exn (BPlusTree V) :=
  for_each (λ t kv, BPlusTree_insert t kv.1 kv.2) ops t.

(** *** Walking the leaf chain

    The repository has no range query; this is the traversal the
    [next_leaf] links are there for: go down the first children to the
    leftmost leaf, then follow [next_leaf] until [None]. *)
Fixpoint leftmost_leaf (n : Node) : exn loc :=
  match n with
  | Leaf l => Ok l
  | Internal _ cs =>
      match cs with
      | [] => Raise IndexError
      | c :: _ => leftmost_leaf c
      end
  end.

Fixpoint chain_entries (fuel : nat) h l : exn (list (Z * V)) :=
  match fuel with
  | O => Raise OutOfFuel
  | S fuel =>
      lf ← read_leaf h l;
      match next_leaf lf with
      | None => Ok (zip (keys lf) (values lf))
      | Some l' => rest ← chain_entries fuel h l'; Ok (zip (keys lf) (values lf) ++ rest)
      end
  end.

Definition BPlusTree_chain (t : BPlusTree V) : exn (list (Z * V)) :=
  l ← leftmost_leaf (tree_root t);
  chain_entries (length (leaf_heap t)) (leaf_heap t) l.
End b_plus_tree.

(** * engine.py *)

(** Python's [random] module is a source of draws: each call consumes one
    number, and an exhausted source keeps giving 0.  [randint] and [sample]
    return what the library documents: an integer of the closed range, and
    [k] distinct positions of the population; both raise [ValueError] on
    an empty range or a population that is too small. *)
Definition rng := list nat.

Definition rng_next (r : rng) : nat * rng :=
  match r with
  | [] => (O, [])
  | x :: r' => (x, r')
  end.

Definition random_randint (a b : Z) (r : rng) : exn (Z * rng) :=
  if (b <? a)%Z then Raise ValueError
  else let '(x, r') := rng_next r in Ok (a + Z.of_nat x mod (b - a + 1), r').

Fixpoint random_sample (population : list Z) (k : nat) (r : rng)
    : exn (list Z * rng) :=
  match k with
  | O => Ok ([], r)
  | S k' =>
      let '(x, r') := rng_next r in
      match population !! (x mod length population)%nat with
      | None => Raise ValueError
      | Some v =>
          '(rest, r'') ← random_sample (delete (x mod length population)%nat population) k' r';
          Ok (v :: rest, r'')
      end
  end.

(** The metadata dict stored in the B+ tree, with its five keys *)
Record Metadata := mkMetadata {
  md_title : pystr;
  md_file_path : pystr;
  md_url : pystr;
  md_word_count : Z;
  md_content : pystr
}.

(** A result dict of [search] *)
Record SearchResult := mkSearchResult {
  doc_id : Z;
  title : pystr;
  url : pystr;
  snippet : pystr;
  result_score : Q;
  term_frequency : Q;
  authority_score : Q
}.

#[global] Instance SearchResult_scored : Scored SearchResult := result_score.

(** A file of the data directory as [_load_documents] has it once it is
    read: its path, the title and URL taken from its first lines, and its
    plain text.  Listing the directory, reading the file and stripping HTML
    are the collaborators' part. *)
Record Document := mkDocument {
  file_path : pystr;
  file_title : pystr;
  file_url : pystr;
  plain_text : pystr
}.

(** [inverted_index] maps a word to a set of document ids, kept here in the
    order the ids were added; [doc_term_frequency] maps a document id to
    its dict of counts. *)
Record SearchEngine := mkSearchEngine {
  trie : Trie;
  b_plus_tree : BPlusTree Metadata;
  graph : DocumentGraph;
  inverted_index : list (pystr * list Z);
  doc_term_frequency : list (Z * list (pystr * Z));
  doc_ids : list Z
}.

(** [s.add(x)] *)
Definition set_add (x : Z) (s : list Z) : list Z :=
  if bool_decide (x ∈ s) then s else s ++ [x].

(** [set(words)], in order of first occurrence *)
Fixpoint py_set (words : list pystr) : list pystr :=
  match words with
  | [] => []
  | w :: words' => w :: List.filter (λ w', negb (bool_decide (w' = w))) (py_set words')
  end.

(** [s.find(sub)]: the lowest index where [sub] starts, or -1 *)
Fixpoint py_find_from (sub s : pystr) (i : Z) : Z :=
  match s with
  | [] => if bool_decide (sub = []) then i else -1
  | _ :: s' =>
      if bool_decide (take (length sub) s = sub) then i
      else py_find_from sub s' (i + 1)
  end.
Definition py_find (sub s : pystr) : Z := py_find_from sub s 0.

(** [s[start:stop]] for [0 <= start] and [0 <= stop] *)
Definition py_slice {A} (start stop : Z) (s : list A) : list A :=
  take (Z.to_nat (stop - start)) (drop (Z.to_nat start) s).

Definition ellipsis : pystr := [46; 46; 46]%N.

Section engine.
(** [str.lower], [str.strip] and
    [re.findall(r'\b[a-z0-9]+\b', text)] *)
Variables (lower strip : pystr → pystr) (re_findall_words : pystr → list pystr).

Definition SearchEngine_tokenize (text : pystr) : list pystr :=
  re_findall_words (lower text).

Definition SearchEngine_extract_snippet (content query_term : pystr) (max_length : Z)
    : pystr :=
  let content_lower := lower content in
  let term_lower := lower query_term in
  let idx := py_find term_lower content_lower in
  let len := Z.of_nat (length content) in
  if (idx =? -1)%Z then
    if (max_length <? len)%Z then py_slice 0 max_length content ++ ellipsis
    else content
  else
    let start := Z.max 0 (idx - 50) in
    let stop := Z.min len (idx + max_length - 50) in
    let snippet := py_slice start stop content in
    let snippet := if (0 <? start)%Z then ellipsis ++ snippet else snippet in
    let snippet := if (stop <? len)%Z then snippet ++ ellipsis else snippet in
    strip snippet.

(** The loop [for word in words] of [_load_documents]:
    [term_freq[word] += 1; self.inverted_index[word].add(doc_id)] *)
Definition count_word (doc_id : Z)
    (st : list (pystr * Z) * list (pystr * list Z)) (word : pystr)
    : list (pystr * Z) * list (pystr * list Z) :=
  let '(term_freq, index) := st in
  (dict_set word (default 0 (dict_get word term_freq) + 1) term_freq,
   dict_set word (set_add doc_id (default [] (dict_get word index))) index).

(** The body of the loop [for filename in files] of [_load_documents].
    An exception is caught and reported by the loop, which goes on with
    the next file. *)
Definition SearchEngine_index_document (e : SearchEngine) (d : Document) : SearchEngine :=
  let doc_id := Z.of_nat (length (doc_ids e)) + 1 in
  let words := SearchEngine_tokenize (plain_text d) in
  let '(term_freq, index) := foldl (count_word doc_id) ([], inverted_index e) words in
  let doc_tf := dict_set doc_id term_freq (doc_term_frequency e) in
  let trie' := foldl (λ t w, Trie_insert lower w t) (trie e) (py_set words) in
  let metadata :=
    mkMetadata (file_title d) (file_path d) (file_url d)
               (Z.of_nat (length words)) (plain_text d) in
  match BPlusTree_insert (b_plus_tree e) doc_id metadata with
  | Ok tree' =>
      mkSearchEngine trie' tree' (graph e) index doc_tf (doc_ids e ++ [doc_id])
  | Raise _ =>
      mkSearchEngine trie' (b_plus_tree e) (graph e) index doc_tf (doc_ids e)
  end.

Definition SearchEngine_load_documents (e : SearchEngine) (files : list Document)
    : SearchEngine :=
  foldl SearchEngine_index_document e files.

(** The body of the loop [for from_doc in self.doc_ids] of
    [_generate_citations] *)
Definition cite_from (ids : list Z) (st : DocumentGraph * rng) (from_doc : Z)
    : exn (DocumentGraph * rng) :=
  let '(g, r) := st in
  '(num_citations, r) ←
    random_randint 2 (Z.min 4 (Z.of_nat (length ids) - 1)) r;
  let possible_targets := List.filter (λ d, negb (bool_decide (d = from_doc))) ids in
  '(cited_docs, r) ←
    random_sample possible_targets
      (Z.to_nat (Z.min num_citations (Z.of_nat (length possible_targets)))) r;
  g ← add_links g (map (λ to_doc, (from_doc, to_doc)) cited_docs);
  Ok (g, r).

Definition SearchEngine_generate_citations (r : rng) (e : SearchEngine)
    : exn SearchEngine :=
  if (length (doc_ids e) <? 2)%nat then Ok e
  else
    '(g, _) ← for_each (cite_from (doc_ids e)) (doc_ids e) (graph e, r);
    Ok (mkSearchEngine (trie e) (b_plus_tree e) g (inverted_index e)
          (doc_term_frequency e) (doc_ids e)).

Definition SearchEngine_calculate_authority_scores (e : SearchEngine)
    : exn SearchEngine :=
  '(g, _) ← calculate_pagerank (graph e) default_damping_factor
              default_max_iterations default_tolerance;
  Ok (mkSearchEngine (trie e) (b_plus_tree e) g (inverted_index e)
        (doc_term_frequency e) (doc_ids e)).

(** [SearchEngine(data_dir)], on the files found there and the draws the
    [random] module will give *)
Definition SearchEngine_init (r : rng) (files : list Document) : exn SearchEngine :=
  let e := mkSearchEngine Trie_new (BPlusTree_new 4) DocumentGraph_new [] [] [] in
  let e := SearchEngine_load_documents e files in
  e ← SearchEngine_generate_citations r e;
  SearchEngine_calculate_authority_scores e.

Definition SearchEngine_calculate_term_frequency (e : SearchEngine)
    (doc_id : Z) (term : pystr) : Q :=
  match dict_get doc_id (doc_term_frequency e) with
  | None => 0
  | Some term_freq_dict =>
      let term_count := default 0%Z (dict_get (lower term) term_freq_dict) in
      let doc_length := foldr Z.add 0%Z (map snd term_freq_dict) in
      if (0 <? doc_length)%Z
      then (inject_Z term_count / inject_Z doc_length)%Q
      else 0
  end.

(** The body of the loop [for doc_id in matching_docs] of [search] *)
Definition score_document (e : SearchEngine) (search_term : pystr)
    (results : list SearchResult) (doc_id : Z) : exn (list SearchResult) :=
  metadata ← BPlusTree_search (b_plus_tree e) doc_id;
  match metadata with
  | None => Ok results
  | Some metadata =>
      let tf := SearchEngine_calculate_term_frequency e doc_id search_term in
      let authority := get_authority_score (graph e) doc_id in
      let score := (tf + authority)%Q in
      let snippet := SearchEngine_extract_snippet (md_content metadata) search_term 150 in
      Ok (results ++ [mkSearchResult doc_id (md_title metadata) (md_url metadata)
                        snippet score tf authority])
  end.

Definition SearchEngine_search (e : SearchEngine) (query : pystr)
    : exn (list SearchResult) :=
  if bool_decide (query = []) || bool_decide (strip query = []) then Ok []
  else
    match SearchEngine_tokenize query with
    | [] => Ok []
    | first_term :: _ =>
        let search_term := lower first_term in
        match default [] (dict_get search_term (inverted_index e)) with
        | [] => Ok []
        | matching_docs =>
            results ← for_each (score_document e search_term) matching_docs [];
            Ok (sort_results results)
        end
    end.

Definition SearchEngine_autocomplete (e : SearchEngine) (prefix : pystr) : list pystr :=
  if bool_decide (prefix = []) || bool_decide (strip prefix = []) then []
  else Trie_autocomplete lower (trie e) (strip prefix) 5.
End engine.

(** ASCII versions of [strip] and of the tokenizing regular expression, to
    run examples. *)
Definition ascii_is_space (c : char) : bool :=
  bool_decide (c ∈ [9; 10; 11; 12; 13; 32]%N).
Definition ascii_is_word (c : char) : bool :=
  ((48 <=? c) && (c <=? 57) || (65 <=? c) && (c <=? 90)
   || (97 <=? c) && (c <=? 122) || (c =? 95))%N.
Definition ascii_is_token (c : char) : bool :=
  ((48 <=? c) && (c <=? 57) || (97 <=? c) && (c <=? 122))%N.

Fixpoint ascii_lstrip (s : pystr) : pystr :=
  match s with
  | [] => []
  | c :: s' => if ascii_is_space c then ascii_lstrip s' else s
  end.
Definition ascii_strip (s : pystr) : pystr :=
  reverse (ascii_lstrip (reverse (ascii_lstrip s))).

(** Maximal runs of word characters, kept when made of [a-z0-9] only. *)
Fixpoint ascii_runs (s : pystr) (run : pystr) : list pystr :=
  match s with
  | [] => if bool_decide (run = []) then [] else [run]
  | c :: s' =>
      if ascii_is_word c then ascii_runs s' (run ++ [c])
      else if bool_decide (run = []) then ascii_runs s' []
      else run :: ascii_runs s' []
  end.
Definition ascii_findall_words (s : pystr) : list pystr :=
  List.filter (forallb ascii_is_token) (ascii_runs s []).

(** * Properties *)

(** ** utils/sorter.py *)

Section sorter_facts.
Context {R : Type} `{Scored R}.

Definition score_ge (a b : R) : Prop := (score b <= score a)%Q.
Definition has_score (q : Q) (r : R) : bool := Qeq_bool (score r) q.

Lemma merge_nil_l (right : list R) : merge [] right = right.
Proof. by destruct right. Qed.

Lemma merge_nil_r (left : list R) : merge left [] = left.
Proof. by destruct left. Qed.

Lemma merge_cons (a b : R) (left right : list R) :
  merge (a :: left) (b :: right) =
    if Qle_bool (score b) (score a)
    then a :: merge left (b :: right)
    else b :: merge (a :: left) right.
Proof. reflexivity. Qed.

Lemma merge_perm (left right : list R) :
  Permutation (merge left right) (left ++ right).
Proof.
  revert right. induction left as [|a left IHl]; intros right.
  - by rewrite merge_nil_l.
  - induction right as [|b right IHr].
    + by rewrite merge_nil_r, app_nil_r.
    + rewrite merge_cons. destruct (Qle_bool _ _).
      * simpl. constructor. apply IHl.
      * etrans; [apply perm_skip, IHr|].
        change (Permutation (b :: (a :: left) ++ right) ((a :: left) ++ b :: right)).
        apply Permutation_middle.
Qed.

Lemma merge_Forall (P : R → Prop) (left right : list R) :
  Forall P left → Forall P right → Forall P (merge left right).
Proof.
  intros Hl Hr. eapply Permutation_Forall; [symmetry; apply merge_perm|].
  by apply Forall_app.
Qed.

Lemma score_ge_trans (a b c : R) : score_ge a b → score_ge b c → score_ge a c.
Proof. unfold score_ge. intros Hab Hbc. exact (Qle_trans _ _ _ Hbc Hab). Qed.

Lemma merge_sorted (left right : list R) :
  StronglySorted score_ge left → StronglySorted score_ge right →
  StronglySorted score_ge (merge left right).
Proof.
  revert right. induction left as [|a left IHl]; intros right Hl Hr.
  - by rewrite merge_nil_l.
  - induction right as [|b right IHr].
    + by rewrite merge_nil_r.
    + rewrite merge_cons.
      apply StronglySorted_inv in Hl as [Hl Ha].
      pose proof Hr as Hr'. apply StronglySorted_inv in Hr' as [Hr' Hb].
      destruct (Qle_bool (score b) (score a)) eqn:Hcmp.
      * apply Qle_bool_iff in Hcmp. constructor; [by apply IHl|].
        apply merge_Forall; [done|]. constructor; [done|].
        eapply Forall_impl; [exact Hb|]. intros c Hc.
        by apply (score_ge_trans a b c).
      * assert (score_ge b a) as Hba.
        { unfold score_ge. destruct (Qlt_le_dec (score a) (score b)) as [Hlt|Hle].
          - by apply Qlt_le_weak.
          - apply Qle_bool_iff in Hle. congruence. }
        constructor; [by apply IHr|].
        apply merge_Forall; [|done]. constructor; [done|].
        eapply Forall_impl; [exact Ha|]. intros c Hc.
        by apply (score_ge_trans b a c).
Qed.

(** The merge keeps, for every score, the left records before the right
    ones: this is where [>=] (rather than [>]) matters. *)
Lemma merge_filter_score (q : Q) (left right : list R) :
  StronglySorted score_ge left →
  List.filter (has_score q) (merge left right) =
    List.filter (has_score q) left ++ List.filter (has_score q) right.
Proof.
  revert right. induction left as [|a left IHl]; intros right Hl.
  - by rewrite merge_nil_l.
  - induction right as [|b right IHr].
    + by rewrite merge_nil_r, app_nil_r.
    + rewrite merge_cons.
      pose proof Hl as Hl'. apply StronglySorted_inv in Hl' as [Hl' Ha].
      destruct (Qle_bool (score b) (score a)) eqn:Hcmp.
      * simpl. rewrite (IHl (b :: right) Hl'). simpl.
        by destruct (has_score q a).
      * change (List.filter (has_score q) (b :: merge (a :: left) right))
          with (if has_score q b
                then b :: List.filter (has_score q) (merge (a :: left) right)
                else List.filter (has_score q) (merge (a :: left) right)).
        rewrite IHr.
        change (List.filter (has_score q) (b :: right))
          with (if has_score q b then b :: List.filter (has_score q) right
                else List.filter (has_score q) right).
        destruct (has_score q b) eqn:Hb; [|done].
        assert (List.filter (has_score q) (a :: left) = []) as ->; [|done].
        assert (score a < score b)%Q as Hlt.
        { destruct (Qlt_le_dec (score a) (score b)) as [Hlt|Hle]; [done|].
          apply Qle_bool_iff in Hle. congruence. }
        apply Qeq_bool_iff in Hb.
        assert (Forall (λ c, has_score q c = false) (a :: left)) as Hnone.
        { constructor.
          - destruct (has_score q a) eqn:Hqa; [|done].
            apply Qeq_bool_iff in Hqa. rewrite Hqa, Hb in Hlt.
            by apply Qlt_irrefl in Hlt.
          - eapply Forall_impl; [exact Ha|]. intros c Hc.
            destruct (has_score q c) eqn:Hqc; [|done].
            apply Qeq_bool_iff in Hqc. unfold score_ge in Hc.
            rewrite Hqc in Hc. rewrite Hb in Hlt.
            exfalso. eapply Qlt_irrefl, Qle_lt_trans; [exact Hc|exact Hlt]. }
        clear -Hnone. induction Hnone as [|c l Hc _ IH]; [done|].
        simpl. by rewrite Hc.
Qed.

Lemma filter_take_drop (f : R → bool) (n : nat) (l : list R) :
  List.filter f (take n l) ++ List.filter f (drop n l) = List.filter f l.
Proof. by rewrite <-List.filter_app, take_drop. Qed.

Lemma merge_sort_spec (arr : list R) :
  Permutation (merge_sort arr) arr ∧
  StronglySorted score_ge (merge_sort arr) ∧
  ∀ q, List.filter (has_score q) (merge_sort arr) = List.filter (has_score q) arr.
Proof.
  funelim (merge_sort arr).
  - split_and!; [done| |done].
    destruct arr as [|a [|b arr]]; simpl in *; try lia.
    + constructor.
    + repeat constructor.
  - rename H0 into IHl, H1 into IHr.
    destruct IHl as (Pl & Sl & Fl), IHr as (Pr & Sr & Fr).
    split_and!.
    + rewrite merge_perm, Pl, Pr. by rewrite take_drop.
    + by apply merge_sorted.
    + intros q. rewrite merge_filter_score by done.
      rewrite Fl, Fr. apply filter_take_drop.
Qed.

(** C3: [merge_sort] returns a permutation of its input, in non-increasing
    order of score, and records of equal score keep the relative order
    they had in the input. *)
Theorem merge_sort_stable_descending (arr : list R) :
  Permutation (merge_sort arr) arr ∧
  StronglySorted (λ a b, score b <= score a)%Q (merge_sort arr) ∧
  ∀ q : Q, List.filter (λ r, Qeq_bool (score r) q) (merge_sort arr)
           = List.filter (λ r, Qeq_bool (score r) q) arr.
Proof. apply merge_sort_spec. Qed.
End sorter_facts.

(** ** utils/sorter.py over the store: the input list is left as it was *)

Section sorter_store_facts.
Context {R : Type} `{Scored R}.
Implicit Types (s : store R) (xs ys acc : list R) (r : ref).

Lemma St_bind_ok {A B} (m : St R A) (k : A → St R B) s a s' :
  m s = Ok (a, s') → (m ≫= k) s = k a s'.
Proof. unfold mbind, St_bind. by intros ->. Qed.

Lemma st_len_ok r xs s : s !! r = Some xs → st_len r s = Ok (length xs, s).
Proof. intros Hr. unfold st_len, st_read, mbind, St_bind. by rewrite Hr. Qed.

Lemma st_getitem_ok r xs i x s :
  s !! r = Some xs → xs !! i = Some x → st_getitem r i s = Ok (x, s).
Proof.
  intros Hr Hi. unfold st_getitem, st_read, mbind, St_bind. by rewrite Hr, Hi.
Qed.

Lemma st_append_ok r xs x s :
  s !! r = Some xs → st_append r x s = Ok (tt, <[r := xs ++ [x]]> s).
Proof. intros Hr. unfold st_append. by rewrite Hr. Qed.

Lemma st_slice_to_ok r xs mid s :
  s !! r = Some xs → st_slice_to r mid s = Ok (length s, s ++ [take mid xs]).
Proof. intros Hr. unfold st_slice_to, st_read, st_new, mbind, St_bind. by rewrite Hr. Qed.

Lemma st_slice_from_ok r xs mid s :
  s !! r = Some xs → st_slice_from r mid s = Ok (length s, s ++ [drop mid xs]).
Proof. intros Hr. unfold st_slice_from, st_read, st_new, mbind, St_bind. by rewrite Hr. Qed.

Lemma store_insert_insert r xs ys s :
  <[r := ys]> (<[r := xs]> s) = <[r := ys]> s.
Proof. apply list_insert_insert_eq. Qed.

Lemma merge_while_rest_ok fuel src result i L acc s :
  s !! src = Some L → s !! result = Some acc → src ≠ result →
  (length L - i < fuel)%nat →
  merge_while_rest fuel src result i s
    = Ok (tt, <[result := acc ++ drop i L]> s).
Proof.
  revert i acc s. induction fuel as [|fuel IH]; intros i acc s Hsrc Hres Hne Hfuel;
    [lia|].
  simpl. rewrite (St_bind_ok _ _ _ _ _ (st_len_ok _ _ _ Hsrc)).
  destruct (Nat.ltb_spec i (length L)) as [Hlt|Hge].
  - destruct (lookup_lt_is_Some_2 L i Hlt) as [a Ha].
    rewrite (St_bind_ok _ _ _ _ _ (st_getitem_ok _ _ _ _ _ Hsrc Ha)).
    rewrite (St_bind_ok _ _ _ _ _ (st_append_ok _ _ a _ Hres)).
    rewrite (IH (S i) (acc ++ [a])).
    + rewrite store_insert_insert, <-app_assoc. simpl.
      by rewrite (drop_S L a i Ha).
    + by rewrite list_lookup_insert_ne.
    + apply list_lookup_insert_eq. by eapply lookup_lt_Some.
    + done.
    + lia.
  - rewrite drop_ge, app_nil_r by lia. unfold mret, St_ret.
    by rewrite list_insert_id.
Qed.

Lemma merge_while_both_ok fuel left right result i j L Rr acc s :
  s !! left = Some L → s !! right = Some Rr → s !! result = Some acc →
  left ≠ result → right ≠ result →
  ((length L - i) + (length Rr - j) < fuel)%nat →
  ∃ i' j' pre,
    merge_while_both fuel left right result i j s
      = Ok ((i', j'), <[result := acc ++ pre]> s) ∧
    merge (drop i L) (drop j Rr) = pre ++ drop i' L ++ drop j' Rr.
Proof.
  revert i j acc s.
  induction fuel as [|fuel IH]; intros i j acc s Hl Hr Hres Hnl Hnr Hfuel; [lia|].
  assert (result < length s)%nat as Hlen by by eapply lookup_lt_Some.
  cbn [merge_while_both].
  rewrite (St_bind_ok _ _ _ _ _ (st_len_ok _ _ _ Hl)).
  rewrite (St_bind_ok _ _ _ _ _ (st_len_ok _ _ _ Hr)).
  destruct (Nat.ltb_spec i (length L)) as [Hi|Hi];
    [destruct (Nat.ltb_spec j (length Rr)) as [Hj|Hj]|]; cbn [andb].
  - destruct (lookup_lt_is_Some_2 L i Hi) as [a Ha].
    destruct (lookup_lt_is_Some_2 Rr j Hj) as [b Hb].
    rewrite (St_bind_ok _ _ _ _ _ (st_getitem_ok _ _ _ _ _ Hl Ha)).
    rewrite (St_bind_ok _ _ _ _ _ (st_getitem_ok _ _ _ _ _ Hr Hb)).
    rewrite (drop_S L a i Ha), (drop_S Rr b j Hb), merge_cons.
    destruct (Qle_bool (score b) (score a)).
    + rewrite (St_bind_ok _ _ _ _ _ (st_append_ok _ _ a _ Hres)).
      destruct (IH (S i) j (acc ++ [a]) (<[result := acc ++ [a]]> s))
        as (i' & j' & pre & Hrun & Hpre); try done; try lia.
      * by rewrite list_lookup_insert_ne.
      * by rewrite list_lookup_insert_ne.
      * by apply list_lookup_insert_eq.
      * exists i', j', (a :: pre). split.
        -- rewrite Hrun, store_insert_insert, <-app_assoc. done.
        -- rewrite <-(drop_S Rr b j Hb), Hpre. done.
    + rewrite (St_bind_ok _ _ _ _ _ (st_append_ok _ _ b _ Hres)).
      destruct (IH i (S j) (acc ++ [b]) (<[result := acc ++ [b]]> s))
        as (i' & j' & pre & Hrun & Hpre); try done; try lia.
      * by rewrite list_lookup_insert_ne.
      * by rewrite list_lookup_insert_ne.
      * by apply list_lookup_insert_eq.
      * exists i', j', (b :: pre). split.
        -- rewrite Hrun, store_insert_insert, <-app_assoc. done.
        -- rewrite <-(drop_S L a i Ha), Hpre. done.
  - exists i, j, []. split.
    + unfold mret, St_ret. by rewrite app_nil_r, list_insert_id.
    + rewrite (drop_ge Rr j) by lia. by rewrite merge_nil_r, app_nil_r.
  - exists i, j, []. split.
    + unfold mret, St_ret. by rewrite app_nil_r, list_insert_id.
    + rewrite (drop_ge L i) by lia. by rewrite merge_nil_l.
Qed.

Lemma merge_st_ok fuel left right L Rr s :
  s !! left = Some L → s !! right = Some Rr →
  (length L + length Rr < fuel)%nat →
  merge_st fuel left right s = Ok (length s, s ++ [merge L Rr]).
Proof.
  intros Hl Hr Hfuel. unfold merge_st.
  assert (left < length s)%nat by by eapply lookup_lt_Some.
  assert (right < length s)%nat by by eapply lookup_lt_Some.
  rewrite (St_bind_ok _ _ s (length s) (s ++ [[]])) by done.
  assert ((s ++ [[]]) !! length s = Some ([] : list R)) as Hres
    by by rewrite lookup_app_r, Nat.sub_diag by lia.
  assert ((s ++ [[]]) !! left = Some L) as Hl' by by rewrite lookup_app_l.
  assert ((s ++ [[]]) !! right = Some Rr) as Hr' by by rewrite lookup_app_l.
  destruct (merge_while_both_ok fuel left right (length s) 0 0 L Rr [] _
              Hl' Hr' Hres) as (i & j & pre & Hrun & Hpre); try lia.
  rewrite (St_bind_ok _ _ _ _ _ Hrun).
  assert (length (s ++ [[] : list R]) = S (length s)) as Hlen
    by (rewrite length_app; simpl; lia).
  set (s1 := s ++ [[]]) in *.
  assert (length s < length s1)%nat as Hlt1 by lia.
  rewrite (St_bind_ok _ _ _ _ _
    (merge_while_rest_ok fuel left (length s) i L ([] ++ pre)
       (<[length s := [] ++ pre]> s1)
       ltac:(by rewrite list_lookup_insert_ne by lia)
       ltac:(by apply list_lookup_insert_eq) ltac:(lia) ltac:(lia))).
  rewrite store_insert_insert.
  rewrite (St_bind_ok _ _ _ _ _
    (merge_while_rest_ok fuel right (length s) j Rr (([] ++ pre) ++ drop i L)
       (<[length s := ([] ++ pre) ++ drop i L]> s1)
       ltac:(by rewrite list_lookup_insert_ne by lia)
       ltac:(by apply list_lookup_insert_eq) ltac:(lia) ltac:(lia))).
  subst s1.
  rewrite store_insert_insert. unfold mret, St_ret. do 2 f_equal.
  rewrite insert_app_r_alt, Nat.sub_diag by done. simpl.
  rewrite !drop_0 in Hpre. by rewrite Hpre, <-app_assoc.
Qed.

(** The store only grows: every list object that existed before the call
    is the same afterwards, and the returned reference holds the sorted
    list. *)
Lemma merge_sort_st_ok fuel arr xs s :
  s !! arr = Some xs → (length xs + 2 ≤ fuel)%nat →
  ∃ r ext, merge_sort_st fuel arr s = Ok (r, s ++ ext) ∧
           (s ++ ext) !! r = Some (merge_sort xs).
Proof.
  revert arr xs s. induction fuel as [|fuel IH]; intros arr xs s Harr Hfuel; [lia|].
  cbn [merge_sort_st].
  rewrite (St_bind_ok _ _ _ _ _ (st_len_ok _ _ _ Harr)).
  assert (arr < length s)%nat as Hlt by by eapply lookup_lt_Some.
  simp merge_sort. destruct (le_dec (length xs) 1) as [Hle|Hgt];
    cbn [merge_sort_clause_1].
  - destruct (Nat.leb_spec (length xs) 1); [|lia].
    exists arr, []. rewrite app_nil_r. done.
  - destruct (Nat.leb_spec (length xs) 1); [lia|].
    set (mid := (length xs / 2)%nat).
    assert (0 < mid < length xs)%nat as Hmid.
    { split; [apply Nat.div_str_pos; lia | apply Nat.div_lt; lia]. }
    rewrite (St_bind_ok _ _ _ _ _ (st_slice_to_ok _ _ mid _ Harr)).
    assert ((s ++ [take mid xs]) !! arr = Some xs) as Harr'
      by by rewrite lookup_app_l.
    rewrite (St_bind_ok _ _ _ _ _ (st_slice_from_ok _ _ mid _ Harr')).
    set (s2 := (s ++ [take mid xs]) ++ [drop mid xs]).
    assert (s2 !! length s = Some (take mid xs)) as Hleft.
    { unfold s2. rewrite lookup_app_l by (rewrite length_app; simpl; lia).
      by rewrite lookup_app_r, Nat.sub_diag by lia. }
    assert (s2 !! length (s ++ [take mid xs]) = Some (drop mid xs)) as Hright.
    { unfold s2. by rewrite lookup_app_r, Nat.sub_diag by lia. }
    destruct (IH _ _ _ Hleft) as (rl & ext1 & Hrun1 & Hrl).
    { rewrite length_take. lia. }
    rewrite (St_bind_ok _ _ _ _ _ Hrun1).
    destruct (IH (length (s ++ [take mid xs])) (drop mid xs) (s2 ++ ext1))
      as (rr & ext2 & Hrun2 & Hrr).
    { rewrite lookup_app_l; [done|]. by eapply lookup_lt_Some. }
    { rewrite length_drop. lia. }
    rewrite (St_bind_ok _ _ _ _ _ Hrun2).
    assert (((s2 ++ ext1) ++ ext2) !! rl = Some (merge_sort (take mid xs))) as Hrl'.
    { rewrite lookup_app_l; [done|]. by eapply lookup_lt_Some. }
    rewrite (merge_st_ok fuel rl rr _ _ _ Hrl' Hrr).
    + eexists _, ([take mid xs] ++ [drop mid xs] ++ ext1 ++ ext2 ++ [_]).
      unfold s2. rewrite <-!app_assoc. split; [reflexivity|].
      rewrite !app_assoc. rewrite lookup_app_r by done.
      by rewrite Nat.sub_diag.
    + pose proof (merge_sort_spec (take mid xs)) as (P1 & _).
      pose proof (merge_sort_spec (drop mid xs)) as (P2 & _).
      rewrite (Permutation_length P1), (Permutation_length P2).
      rewrite length_take, length_drop. lia.
Qed.

Lemma sort_results_st_ok fuel arr xs s :
  s !! arr = Some xs → (length xs + 2 ≤ fuel)%nat →
  ∃ r ext, sort_results_st fuel arr s = Ok (r, s ++ ext) ∧
           (s ++ ext) !! r = Some (sort_results xs).
Proof.
  intros Harr Hfuel. unfold sort_results_st.
  rewrite (St_bind_ok _ _ _ _ _ (st_len_ok _ _ _ Harr)).
  destruct xs as [|x xs]; simpl.
  - exists (length s), [[]]. split; [done|].
    by rewrite lookup_app_r, Nat.sub_diag by lia.
  - by apply merge_sort_st_ok.
Qed.

(** C10: neither [merge_sort] nor [sort_results] mutates its input: after
    the call every list object of the caller's store, the argument
    included, has the contents and the element order it had before, and
    the sorted list is what the returned reference holds. *)
Theorem sorting_leaves_input_unchanged fuel arr xs s :
  s !! arr = Some xs → (length xs + 2 ≤ fuel)%nat →
  (∃ r s', merge_sort_st fuel arr s = Ok (r, s') ∧
           s' !! arr = Some xs ∧
           (∀ l ys, s !! l = Some ys → s' !! l = Some ys) ∧
           s' !! r = Some (merge_sort xs)) ∧
  (∃ r s', sort_results_st fuel arr s = Ok (r, s') ∧
           s' !! arr = Some xs ∧
           (∀ l ys, s !! l = Some ys → s' !! l = Some ys) ∧
           s' !! r = Some (sort_results xs)).
Proof.
  intros Harr Hfuel.
  assert (∀ ext l ys, s !! l = Some ys → (s ++ ext) !! l = Some ys) as Hframe.
  { intros ext l ys Hl. rewrite lookup_app_l; [done|]. by eapply lookup_lt_Some. }
  split.
  - destruct (merge_sort_st_ok fuel arr xs s Harr Hfuel) as (r & ext & Hrun & Hr).
    exists r, (s ++ ext). split_and!; auto.
  - destruct (sort_results_st_ok fuel arr xs s Harr Hfuel) as (r & ext & Hrun & Hr).
    exists r, (s ++ ext). split_and!; auto.
Qed.
End sorter_store_facts.

(** ** structures/trie.py *)

Example autocomplete_tr :
  Trie_autocomplete ascii_lower
    (foldl (λ t w, Trie_insert ascii_lower w t) Trie_new
       [py "trie"; py "Tree"; py "trust"; py "graph"; py "tree"])
    (py "TR") 5
  = [py "tree"; py "trie"; py "trust"].
Proof. reflexivity. Qed.

Section string_order.
Implicit Types a b c : pystr.

Definition str_le a b : Prop := str_leb a b = true.

Lemma str_ltb_irrefl a : str_ltb a a = false.
Proof.
  induction a as [|x a IH]; [done|]. simpl.
  by rewrite N.ltb_irrefl, N.eqb_refl, IH.
Qed.

Lemma str_ltb_trans a b c : str_lt a b → str_lt b c → str_lt a c.
Proof.
  unfold str_lt. revert b c. induction a as [|x a IH]; intros [|y b] [|z c]; simpl; try done.
  rewrite !orb_true_iff, !andb_true_iff, !N.ltb_lt, !N.eqb_eq.
  intros [Hxy|[-> Hab]] [Hyz|[-> Hbc]]; eauto; left; lia.
Qed.

Lemma str_ltb_connex a b : str_ltb a b = false → str_ltb b a = false → a = b.
Proof.
  revert b. induction a as [|x a IH]; intros [|y b]; simpl; try done.
  rewrite !orb_false_iff, !andb_false_iff, !N.ltb_ge, !N.eqb_neq.
  intros [Hxy Hab] [Hyx Hba].
  assert (x = y) as -> by lia. f_equal. apply IH.
  - by destruct Hab.
  - by destruct Hba.
Qed.

Lemma str_ltb_asym a b : str_lt a b → str_ltb b a = false.
Proof.
  intros Hab. destruct (str_ltb b a) eqn:Hba; [|done].
  pose proof (str_ltb_trans a b a Hab Hba) as Haa.
  unfold str_lt in Haa. by rewrite str_ltb_irrefl in Haa.
Qed.

Lemma str_le_lt_or_eq a b : str_le a b → str_lt a b ∨ a = b.
Proof.
  unfold str_le, str_leb, str_lt. rewrite negb_true_iff. intros Hba.
  destruct (str_ltb a b) eqn:Hab; [by left|right]. by apply str_ltb_connex.
Qed.

Lemma str_le_trans a b c : str_le a b → str_le b c → str_le a c.
Proof.
  intros Hab Hbc.
  destruct (str_le_lt_or_eq _ _ Hab) as [Hab'| ->]; [|done].
  destruct (str_le_lt_or_eq _ _ Hbc) as [Hbc'| <-]; [|done].
  unfold str_le, str_leb. rewrite negb_true_iff.
  apply str_ltb_asym. by eapply str_ltb_trans.
Qed.

Lemma str_leb_false a b : str_leb a b = false → str_le b a.
Proof.
  unfold str_le, str_leb. rewrite negb_false_iff, negb_true_iff.
  apply str_ltb_asym.
Qed.

Lemma sort_insert_perm a (l : list pystr) : Permutation (sort_insert a l) (a :: l).
Proof.
  induction l as [|b l IH]; simpl; [done|].
  destruct (str_leb a b); [done|]. rewrite IH. apply perm_swap.
Qed.

Lemma py_sort_perm (l : list pystr) : Permutation (py_sort l) l.
Proof.
  induction l as [|a l IH]; simpl; [done|].
  by rewrite sort_insert_perm, IH.
Qed.

Lemma sort_insert_sorted a (l : list pystr) :
  StronglySorted str_le l → StronglySorted str_le (sort_insert a l).
Proof.
  induction l as [|b l IH]; intros Hl; simpl.
  - by repeat constructor.
  - pose proof Hl as Hl'. apply StronglySorted_inv in Hl' as [Hl' Hb].
    destruct (str_leb a b) eqn:Hab.
    + constructor; [done|]. constructor; [done|].
      eapply Forall_impl; [exact Hb|]. intros c Hc. by apply (str_le_trans a b c).
    + constructor; [by apply IH|].
      eapply Permutation_Forall; [symmetry; apply sort_insert_perm|].
      constructor; [by apply str_leb_false|done].
Qed.

Lemma py_sort_sorted (l : list pystr) : StronglySorted str_le (py_sort l).
Proof.
  induction l as [|a l IH]; simpl; [constructor|]. by apply sort_insert_sorted.
Qed.

Lemma sorted_le_NoDup_lt (l : list pystr) :
  StronglySorted str_le l → NoDup l → StronglySorted str_lt l.
Proof.
  induction 1 as [|a l Hl IH Ha]; intros Hnd; [constructor|].
  apply NoDup_cons in Hnd as [Hnotin Hnd]. constructor; [by apply IH|].
  apply Forall_forall. intros b Hb.
  destruct (str_le_lt_or_eq a b) as [?| ->]; [|done|].
  - rewrite Forall_forall in Ha. by apply Ha.
  - by destruct Hnotin.
Qed.

Lemma py_sort_strictly_sorted (l : list pystr) :
  NoDup l → StronglySorted str_lt (py_sort l).
Proof.
  intros Hnd. apply sorted_le_NoDup_lt; [apply py_sort_sorted|].
  by rewrite py_sort_perm.
Qed.
End string_order.

(** *** What a trie holds *)

(** [has_word n w]: the path [w] from [n] exists and ends on a node marked
    as the end of a word. *)
Fixpoint has_word (n : TrieNode) (w : pystr) : bool :=
  match w with
  | [] => is_end_of_word n
  | c :: w' =>
      match dict_get c (children n) with
      | Some child => has_word child w'
      | None => false
      end
  end.

(** The words below a node, in the order [_collect_words] meets them. *)
Fixpoint words_of (n : TrieNode) : list pystr :=
  match n with
  | mkTrieNode cs e =>
      (if e then [[]] else []) ++
      (fix items (cs : list (char * TrieNode)) : list pystr :=
         match cs with
         | [] => []
         | (c, child) :: cs' => map (cons c) (words_of child) ++ items cs'
         end) cs
  end.

Definition words_of_items (cs : list (char * TrieNode)) : list pystr :=
  flat_map (λ p, map (cons p.1) (words_of p.2)) cs.

(** Every dict of the trie has each key once. *)
#[local] Unset Elimination Schemes.
Inductive TrieNode_wf : TrieNode → Prop :=
| TrieNode_wf_intro cs e :
    NoDup (map fst cs) →
    Forall (λ p, TrieNode_wf p.2) cs →
    TrieNode_wf (mkTrieNode cs e).
#[local] Set Elimination Schemes.

(** The trie after inserting the words of [W], first to last. *)
Definition Trie_of_words (lower : pystr → pystr) (W : list pystr) : Trie :=
  foldl (λ t w, Trie_insert lower w t) Trie_new W.

Lemma TrieNode_ind (P : TrieNode → Prop) :
  (∀ cs e, Forall (λ p, P p.2) cs → P (mkTrieNode cs e)) → ∀ n, P n.
Proof.
  intros Hnode. fix IH 1. intros [cs e]. apply Hnode.
  induction cs as [|[c child] cs IHcs]; constructor; [apply IH|apply IHcs].
Qed.

Section dict_facts.
Context `{EqDecision K} {V : Type}.
Implicit Types (d : list (K * V)) (c k : K) (v : V).

Lemma dict_get_set d c c' v :
  dict_get c' (dict_set c v d) = if decide (c = c') then Some v else dict_get c' d.
Proof.
  induction d as [|[k u] d IH]; simpl.
  - done.
  - destruct (decide (k = c)) as [->|Hkc]; simpl.
    + by destruct (decide (c = c')).
    + rewrite IH. destruct (decide (k = c')) as [->|Hkc']; [|done].
      by rewrite decide_False by congruence.
Qed.

Lemma dict_get_Some_In d c v : dict_get c d = Some v → (c, v) ∈ d.
Proof.
  induction d as [|[k u] d IH]; simpl; [done|].
  destruct (decide (k = c)) as [->|Hkc].
  - intros [= ->]. left.
  - intros Hget. right. by apply IH.
Qed.

Lemma dict_get_None d c : dict_get c d = None → c ∉ map fst d.
Proof.
  induction d as [|[k u] d IH]; simpl; [intros _; apply not_elem_of_nil|].
  destruct (decide (k = c)) as [->|Hkc]; [done|].
  intros Hget. apply not_elem_of_cons. split; [done|by apply IH].
Qed.

Lemma dict_In_get d c v : NoDup (map fst d) → (c, v) ∈ d → dict_get c d = Some v.
Proof.
  induction d as [|[k u] d IH]; simpl; intros Hnd Hin.
  - by apply elem_of_nil in Hin.
  - apply NoDup_cons in Hnd as [Hk Hnd].
    apply elem_of_cons in Hin as [[= <- <-]|Hin].
    + by rewrite decide_True.
    + destruct (decide (k = c)) as [->|Hkc]; [|by apply IH].
      destruct Hk. apply (list_elem_of_fmap_2 fst) in Hin. done.
Qed.

Lemma dict_set_keys d c v :
  map fst (dict_set c v d)
  = if dict_get c d is Some _ then map fst d else map fst d ++ [c].
Proof.
  induction d as [|[k u] d IH]; simpl; [done|].
  destruct (decide (k = c)) as [->|Hkc]; simpl; [done|].
  rewrite IH. by destruct (dict_get c d).
Qed.

Lemma dict_set_keys_NoDup d c v :
  NoDup (map fst d) → NoDup (map fst (dict_set c v d)).
Proof.
  intros Hnd. rewrite dict_set_keys.
  destruct (dict_get c d) eqn:Hget; [done|].
  apply NoDup_app. split_and!; [done| |apply NoDup_singleton].
  intros k Hk ->%list_elem_of_singleton. by apply dict_get_None in Hget.
Qed.

Lemma dict_set_Forall (P : K * V → Prop) d c v :
  Forall P d → P (c, v) → Forall P (dict_set c v d).
Proof.
  intros Hd Hv. induction Hd as [|[k u] d Hk Hd IH]; simpl.
  - by constructor.
  - destruct (decide (k = c)); by constructor.
Qed.
End dict_facts.

Section trie_facts.
Implicit Types (n m : TrieNode) (w s : pystr).

Lemma TrieNode_wf_inv cs e :
  TrieNode_wf (mkTrieNode cs e) →
  NoDup (map fst cs) ∧ Forall (λ p, TrieNode_wf p.2) cs.
Proof. by inversion 1. Qed.

Lemma TrieNode_new_wf : TrieNode_wf TrieNode_new.
Proof. constructor; [apply NoDup_nil_2|constructor]. Qed.

Lemma TrieNode_wf_child n c child :
  TrieNode_wf n → dict_get c (children n) = Some child → TrieNode_wf child.
Proof.
  destruct n as [cs e]. intros [_ Hcs]%TrieNode_wf_inv Hget%dict_get_Some_In.
  rewrite Forall_forall in Hcs. by apply (Hcs (c, child)).
Qed.

Lemma TrieNode_insert_wf w n : TrieNode_wf n → TrieNode_wf (TrieNode_insert w n).
Proof.
  revert n. induction w as [|c w IH]; intros n Hn; simpl.
  - destruct n as [cs e]. apply TrieNode_wf_inv in Hn as [? ?]. by constructor.
  - pose proof Hn as Hn'. destruct n as [cs e]. simpl in *.
    apply TrieNode_wf_inv in Hn' as [Hnd Hcs].
    constructor; [by apply dict_set_keys_NoDup|].
    apply dict_set_Forall; [done|]. simpl. apply IH.
    destruct (dict_get c cs) as [child|] eqn:Hget; [|apply TrieNode_new_wf].
    by eapply (TrieNode_wf_child (mkTrieNode cs e)).
Qed.

Lemma has_word_new w : has_word TrieNode_new w = false.
Proof. by destruct w. Qed.

Lemma TrieNode_insert_has_word w n s :
  has_word (TrieNode_insert w n) s = true ↔ s = w ∨ has_word n s = true.
Proof.
  revert n s. induction w as [|c w IH]; intros n s.
  - destruct s as [|c' s]; simpl; [by split; [left|]|].
    split; [by right|by intros [?|?]].
  - destruct s as [|c' s]; simpl; [split; [by right|by intros [?|?]]|].
    rewrite dict_get_set. destruct (decide (c = c')) as [->|Hne].
    + rewrite IH. destruct (dict_get c' (children n)) as [child|].
      * split; intros [?|?]; simplify_eq; auto.
      * rewrite has_word_new. split; intros [?|?]; simplify_eq; auto.
    + split; [by right|]. intros [?|?]; by simplify_eq.
Qed.

Lemma TrieNode_search_prefix_has_word p n :
  match TrieNode_search_prefix p n with
  | Some m => ∀ s, has_word m s = has_word n (p ++ s)
  | None => ∀ s, has_word n (p ++ s) = false
  end.
Proof.
  revert n. induction p as [|c p IH]; intros n; simpl; [done|].
  destruct (dict_get c (children n)) as [child|]; [apply IH|done].
Qed.

Lemma TrieNode_search_prefix_wf p n m :
  TrieNode_wf n → TrieNode_search_prefix p n = Some m → TrieNode_wf m.
Proof.
  revert n. induction p as [|c p IH]; intros n Hn; simpl; [by intros [= <-]|].
  destruct (dict_get c (children n)) as [child|] eqn:Hget; [|done].
  apply IH. by eapply TrieNode_wf_child.
Qed.

Lemma words_of_eq cs e :
  words_of (mkTrieNode cs e) = (if e then [[]] else []) ++ words_of_items cs.
Proof.
  simpl. f_equal. induction cs as [|[c child] cs IH]; [done|].
  unfold words_of_items in *. simpl. by rewrite IH.
Qed.

Lemma Trie_collect_words_eq n p words :
  Trie_collect_words n p words = words ++ map (app p) (words_of n).
Proof.
  revert p words. induction n as [cs e IH] using TrieNode_ind. intros p words.
  rewrite words_of_eq. cbn [Trie_collect_words].
  set (words' := if e then words ++ [p] else words).
  assert (words' = words ++ map (app p) (if e then [[]] else [])) as ->.
  { unfold words'. destruct e; simpl; by rewrite ?app_nil_r. }
  rewrite map_app, app_assoc.
  generalize (words ++ map (app p) (if e then [[]] else [])).
  induction IH as [|[c child] cs Hchild _ IHcs]; intros acc.
  - by rewrite app_nil_r.
  - rewrite IHcs. simpl in Hchild. rewrite Hchild.
    unfold words_of_items. simpl. rewrite map_app, map_map, <-app_assoc.
    do 2 f_equal. apply map_ext. intros s. by rewrite <-app_assoc.
Qed.

Lemma elem_of_words_of_items cs w :
  w ∈ words_of_items cs ↔
  ∃ c child w', (c, child) ∈ cs ∧ w = c :: w' ∧ w' ∈ words_of child.
Proof.
  unfold words_of_items. rewrite list_elem_of_In, in_flat_map. split.
  - intros ([c child] & Hin & Hw). simpl in Hw.
    apply in_map_iff in Hw as (w' & <- & Hw').
    exists c, child, w'. by rewrite !list_elem_of_In.
  - intros (c & child & w' & Hin & -> & Hw'). exists (c, child).
    rewrite <-list_elem_of_In. split; [done|]. simpl.
    apply in_map_iff. exists w'. by rewrite <-list_elem_of_In.
Qed.

Lemma words_of_has_word n :
  TrieNode_wf n → ∀ w, w ∈ words_of n ↔ has_word n w = true.
Proof.
  induction n as [cs e IH] using TrieNode_ind.
  intros [Hnd Hwf]%TrieNode_wf_inv w.
  rewrite words_of_eq, elem_of_app, elem_of_words_of_items.
  rewrite Forall_forall in IH. rewrite Forall_forall in Hwf.
  destruct w as [|c w]; simpl.
  - split.
    + intros [Hin|(? & ? & ? & _ & ? & _)]; [|done].
      destruct e; [done|]. by apply elem_of_nil in Hin.
    + intros ->. left. left.
  - split.
    + intros [Hin|(c' & child & w' & Hin & [= -> ->] & Hw')].
      { destruct e; [|by apply elem_of_nil in Hin].
        by apply list_elem_of_singleton in Hin. }
      rewrite (dict_In_get _ _ _ Hnd Hin).
      by apply (IH (c', child) Hin (Hwf (c', child) Hin)).
    + destruct (dict_get c cs) as [child|] eqn:Hget; [|done].
      intros Hw. right. exists c, child, w.
      apply dict_get_Some_In in Hget. split_and!; [done..|].
      by apply (IH (c, child) Hget (Hwf (c, child) Hget)).
Qed.

Lemma words_of_items_NoDup cs :
  NoDup (map fst cs) → Forall (λ p, NoDup (words_of p.2)) cs →
  NoDup (words_of_items cs).
Proof.
  induction cs as [|[c child] cs IH]; intros Hnd Hcs.
  - apply NoDup_nil_2.
  - simpl in Hnd. apply NoDup_cons in Hnd as [Hc Hnd].
    apply Forall_cons in Hcs as [Hchild Hcs].
    change (words_of_items ((c, child) :: cs))
      with (map (cons c) (words_of child) ++ words_of_items cs).
    apply NoDup_app. split_and!.
    + by apply (NoDup_fmap_2 (cons c)).
    + intros w (w' & -> & _)%list_elem_of_fmap
             (c' & child' & w'' & Hin & [= <- _] & _)%elem_of_words_of_items.
      apply Hc. by apply (list_elem_of_fmap_2 fst) in Hin.
    + by apply IH.
Qed.

Lemma words_of_NoDup n : TrieNode_wf n → NoDup (words_of n).
Proof.
  induction n as [cs e IH] using TrieNode_ind.
  intros [Hnd Hwf]%TrieNode_wf_inv. rewrite words_of_eq.
  apply NoDup_app. split_and!.
  - destruct e; [apply NoDup_singleton|apply NoDup_nil_2].
  - intros w Hw (? & ? & ? & _ & -> & _)%elem_of_words_of_items.
    destruct e; [|by apply elem_of_nil in Hw].
    by apply list_elem_of_singleton in Hw.
  - apply words_of_items_NoDup; [done|].
    rewrite Forall_forall in IH. rewrite Forall_forall in Hwf.
    apply Forall_forall. intros p Hp. by apply IH, Hwf.
Qed.
End trie_facts.

Section autocomplete_facts.
Variable lower : pystr → pystr.
Implicit Types (t : Trie) (W : list pystr).

Lemma Trie_inserts_spec W t :
  TrieNode_wf (root t) →
  let t' := foldl (λ t w, Trie_insert lower w t) t W in
  TrieNode_wf (root t') ∧
  ∀ s, has_word (root t') s = true ↔
       has_word (root t) s = true ∨ ∃ w0, w0 ∈ W ∧ s = lower w0.
Proof using Type.
  revert t. induction W as [|w W IH]; intros t Hwf; simpl.
  - split; [done|]. intros s. split; [by left|].
    intros [?|(w0 & Hin & _)]; [done|]. by apply elem_of_nil in Hin.
  - destruct (IH (Trie_insert lower w t)) as [Hwf' Hwords].
    { simpl. by apply TrieNode_insert_wf. }
    split; [done|]. intros s. rewrite Hwords. simpl.
    rewrite TrieNode_insert_has_word. split.
    + intros [[->|?]|(w0 & Hin & ->)]; [right|by left|right].
      * exists w. split; [left|done].
      * exists w0. split; [by right|done].
    + intros [?|(w0 & [->|Hin]%elem_of_cons & ->)].
      * left. by right.
      * left. by left.
      * right. by exists w0.
Qed.

Lemma Trie_of_words_spec W :
  TrieNode_wf (root (Trie_of_words lower W)) ∧
  ∀ s, has_word (root (Trie_of_words lower W)) s = true ↔ ∃ w0, w0 ∈ W ∧ s = lower w0.
Proof using Type.
  destruct (Trie_inserts_spec W Trie_new TrieNode_new_wf) as [Hwf Hwords].
  split; [done|]. intros s. unfold Trie_of_words. rewrite Hwords.
  simpl. rewrite has_word_new. split; [by intros [?|?]|by right].
Qed.

(** The words [autocomplete] sorts: all the completions of the prefix, each
    once. *)
Lemma Trie_autocomplete_candidates W p :
  ∃ words,
    (∀ limit, Trie_autocomplete lower (Trie_of_words lower W) p limit
              = py_slice_to limit (py_sort words)) ∧
    NoDup words ∧
    ∀ w, w ∈ words ↔ (∃ w0, w0 ∈ W ∧ w = lower w0) ∧ lower p `prefix_of` w.
Proof using Type.
  destruct (Trie_of_words_spec W) as [Hwf Hwords].
  unfold Trie_autocomplete, Trie_search_prefix.
  pose proof (TrieNode_search_prefix_has_word (lower p)
                (root (Trie_of_words lower W))) as Hsearch.
  destruct (TrieNode_search_prefix (lower p) (root (Trie_of_words lower W)))
    as [node|] eqn:Hnode.
  - pose proof (TrieNode_search_prefix_wf _ _ _ Hwf Hnode) as Hwf_node.
    exists (Trie_collect_words node (lower p) []). split; [done|].
    rewrite Trie_collect_words_eq, app_nil_l. split.
    + apply NoDup_fmap_2; [apply _|by apply words_of_NoDup].
    + intros w. rewrite list_elem_of_fmap. split.
      * intros (s & -> & Hs). apply words_of_has_word in Hs; [|done].
        rewrite Hsearch in Hs. split; [by apply Hwords|by exists s].
      * intros [Hw [s ->]]. exists s. split; [done|].
        apply words_of_has_word; [done|]. rewrite Hsearch. by apply Hwords.
  - exists []. split.
    { intros limit. unfold py_slice_to. simpl.
      destruct (0 <=? limit)%Z; by rewrite ?take_nil. }
    split; [apply NoDup_nil_2|]. intros w. split.
    + by intros ?%elem_of_nil.
    + intros [Hw [s ->]]. apply Hwords in Hw. by rewrite Hsearch in Hw.
Qed.

Lemma Trie_autocomplete_no_completion W p (limit : Z) :
  (∀ w0, w0 ∈ W → ¬ lower p `prefix_of` lower w0) →
  Trie_autocomplete lower (Trie_of_words lower W) p limit = [].
Proof using Type.
  intros Hnone. destruct (Trie_autocomplete_candidates W p) as (words & Hrun & _ & Hin).
  rewrite Hrun. assert (words = []) as ->.
  { destruct words as [|w words]; [done|].
    destruct (proj1 (Hin w) ltac:(left)) as [(w0 & Hw0 & ->) Hpre].
    by destruct (Hnone w0). }
  unfold py_slice_to. simpl. destruct (0 <=? limit)%Z; by rewrite ?take_nil.
Qed.

(** C2: over the trie holding the words [W], [autocomplete(p, k)] is the
    first [k] entries of the alphabetical, duplicate-free list of the
    case-folded words of [W] that start with the case-folded [p] (so all of
    them when there are fewer than [k]); it is empty when no word of [W]
    extends [p], and no word occurs twice in it however often it was
    inserted. *)
Theorem autocomplete_smallest_completions W p (k : Z) :
  0 ≤ k →
  ∃ completions : list pystr,
    StronglySorted str_lt completions ∧
    (∀ w, w ∈ completions ↔
          (∃ w0, w0 ∈ W ∧ w = lower w0) ∧ lower p `prefix_of` w) ∧
    Trie_autocomplete lower (Trie_of_words lower W) p k
      = take (Z.to_nat k) completions ∧
    NoDup (Trie_autocomplete lower (Trie_of_words lower W) p k) ∧
    ((∀ w0, w0 ∈ W → ¬ lower p `prefix_of` lower w0) →
     Trie_autocomplete lower (Trie_of_words lower W) p k = []).
Proof using Type.
  intros Hk. destruct (Trie_autocomplete_candidates W p) as (words & Hrun & Hnd & Hin).
  assert (Trie_autocomplete lower (Trie_of_words lower W) p k
          = take (Z.to_nat k) (py_sort words)) as Heq.
  { rewrite Hrun. unfold py_slice_to. by destruct (Z.leb_spec 0 k); [|lia]. }
  exists (py_sort words). split_and!.
  - by apply py_sort_strictly_sorted.
  - intros w. by rewrite py_sort_perm.
  - done.
  - rewrite Heq. eapply sublist_NoDup; [|apply sublist_take].
    by rewrite py_sort_perm.
  - intros Hnone. rewrite Heq.
    assert (words = []) as ->; [|apply take_nil].
    destruct words as [|w words]; [done|].
    destruct (proj1 (Hin w) ltac:(left)) as [(w0 & Hw0 & ->) Hpre].
    by destruct (Hnone w0).
Qed.
End autocomplete_facts.

Lemma autocomplete_smallest_completions_witness :
  ∃ completions : list pystr,
    StronglySorted str_lt completions ∧
    (∀ w, w ∈ completions ↔
          (∃ w0, w0 ∈ [py "trie"; py "Tree"; py "trust"] ∧ w = ascii_lower w0)
          ∧ ascii_lower (py "tr") `prefix_of` w) ∧
    Trie_autocomplete ascii_lower
      (Trie_of_words ascii_lower [py "trie"; py "Tree"; py "trust"]) (py "tr") 2
      = take (Z.to_nat 2) completions ∧
    NoDup (Trie_autocomplete ascii_lower
      (Trie_of_words ascii_lower [py "trie"; py "Tree"; py "trust"]) (py "tr") 2) ∧
    ((∀ w0, w0 ∈ [py "trie"; py "Tree"; py "trust"] →
            ¬ ascii_lower (py "tr") `prefix_of` ascii_lower w0) →
     Trie_autocomplete ascii_lower
      (Trie_of_words ascii_lower [py "trie"; py "Tree"; py "trust"]) (py "tr") 2 = []).
Proof.
  apply (autocomplete_smallest_completions ascii_lower
           [py "trie"; py "Tree"; py "trust"] (py "tr") 2).
  lia.
Defined.

(** ** structures/graph.py *)

(** Whoever is listed as citing [v] does cite [v]. *)
Definition cited_by_citers (g : DocumentGraph) : Prop :=
  ∀ v ins u,
    dict_get v (incoming_links g) = Some ins → u ∈ ins →
    ∃ outs, dict_get u (adjacency_list g) = Some outs ∧ v ∈ outs.

Section graph_facts.
Implicit Types (g : DocumentGraph) (u v : Z).

Lemma add_node_cited_by_citers g v : cited_by_citers g → cited_by_citers (add_node g v).
Proof.
  intros Hg. unfold add_node.
  destruct (dict_get v (adjacency_list g)) as [outs|] eqn:Hv; [done|].
  intros w ins u. simpl. rewrite !dict_get_set.
  destruct (decide (v = w)) as [->|Hvw].
  - intros [= <-] Hu. by apply elem_of_nil in Hu.
  - intros Hw Hu. destruct (Hg w ins u Hw Hu) as (outs & Houts & Hin).
    exists outs. split; [|done]. rewrite decide_False; [done|]. congruence.
Qed.

Lemma add_link_cited_by_citers g from_doc to_doc g' :
  cited_by_citers g → add_link g from_doc to_doc = Ok g' → cited_by_citers g'.
Proof.
  intros Hg. unfold add_link.
  pose proof (add_node_cited_by_citers _ to_doc
                (add_node_cited_by_citers g from_doc Hg)) as Hg1.
  set (g1 := add_node (add_node g from_doc) to_doc) in *.
  unfold dict_item.
  destruct (dict_get from_doc (adjacency_list g1)) as [outs|] eqn:Houts; simpl; [|done].
  case_bool_decide as Hthere; [by intros [= <-]|].
  destruct (dict_get to_doc (incoming_links g1)) as [ins|] eqn:Hins; simpl; [|done].
  intros [= <-] v ins' u. simpl. rewrite !dict_get_set.
  destruct (decide (to_doc = v)) as [<-|Hv].
  - intros [= <-] [Hu| ->%list_elem_of_singleton]%elem_of_app.
    + destruct (Hg1 to_doc ins u Hins Hu) as (outs' & Houts' & Hin).
      destruct (decide (from_doc = u)) as [<-|Hne]; [|by exists outs'].
      exists (outs ++ [to_doc]). split; [done|]. apply elem_of_app. right. left.
    + rewrite decide_True by done. exists (outs ++ [to_doc]). split; [done|].
      apply elem_of_app. right. left.
  - intros Hv' Hu. destruct (Hg1 v ins' u Hv' Hu) as (outs' & Houts' & Hin).
    destruct (decide (from_doc = u)) as [<-|Hne]; [|by exists outs'].
    exists (outs ++ [to_doc]). split; [done|]. simplify_eq.
    apply elem_of_app. by left.
Qed.

Lemma add_links_cited_by_citers edges : ∀ g g',
  cited_by_citers g → add_links g edges = Ok g' → cited_by_citers g'.
Proof.
  unfold add_links. induction edges as [|[u v] edges IH]; intros g g' Hg; simpl.
  - by intros [= <-].
  - destruct (add_link g u v) as [g1|] eqn:Hlink; simpl; [|done].
    apply IH. by eapply add_link_cited_by_citers.
Qed.

(** The branch of [calculate_pagerank] that handles dangling nodes is
    never taken: a document listed in [incoming_links[doc_id]] has an
    outgoing link, the one to [doc_id]. *)
Lemma dangling_branch_dead edges g damping_factor num_nodes current_scores
    score doc_id ins incoming_doc :
  add_links DocumentGraph_new edges = Ok g →
  dict_get doc_id (incoming_links g) = Some ins → incoming_doc ∈ ins →
  ∃ outs,
    dict_get incoming_doc (adjacency_list g) = Some outs ∧
    (0 < length outs)%nat ∧
    add_contribution g damping_factor num_nodes current_scores score incoming_doc
    = (cur ← dict_item current_scores incoming_doc;
       Ok (score + damping_factor * cur / Qnat (length outs))%Q).
Proof.
  intros Hbuild Hins Hin.
  assert (cited_by_citers g) as Hg.
  { eapply add_links_cited_by_citers; [|exact Hbuild]. intros v ins' u Hv. done. }
  destruct (Hg doc_id ins incoming_doc Hins Hin) as (outs & Houts & Hdoc).
  assert (0 < length outs)%nat as Hpos.
  { destruct outs; [by apply elem_of_nil in Hdoc|simpl; lia]. }
  exists outs. split_and!; [done..|].
  unfold add_contribution, dict_item. rewrite Houts. simpl.
  destruct (dict_get incoming_doc current_scores); simpl; [|done].
  by destruct (Nat.ltb_spec 0 (length outs)); [|lia].
Qed.
End graph_facts.

(** The graph with the single citation 1 -> 2, whose node 2 is dangling. *)
Definition single_citation_graph : exn DocumentGraph :=
  add_links DocumentGraph_new [(1, 2)].

(** C7 at the graph 1 -> 2: the scores [calculate_pagerank] returns (with
    its default arguments) are 3/40 and 111/800; they sum to 171/800, not
    to 1: the mass of the dangling node 2 is dropped at every iteration. *)
Theorem pagerank_single_citation_loses_mass :
  ∃ g g' scores,
    single_citation_graph = Ok g ∧
    calculate_pagerank g default_damping_factor default_max_iterations
      default_tolerance = Ok (g', scores) ∧
    scores = [(1, (3 # 40)%Q); (2, (111 # 800)%Q)] ∧
    (sum_scores scores == 171 # 800)%Q ∧
    ¬ (sum_scores scores == 1)%Q.
Proof.
  eexists _, _, _. split_and!.
  - vm_compute. reflexivity.
  - vm_compute. reflexivity.
  - reflexivity.
  - reflexivity.
  - intros Heq. vm_compute in Heq. discriminate Heq.
Qed.

(** ** structures/b_plus_tree.py *)

Example bptree_ten_inserts :
  (t ← BPlusTree_inserts (BPlusTree_new 4)
         (map (λ k, (k, k * 10)) [5; 1; 9; 3; 7; 2; 8; 4; 6; 10; 3]);
   s3 ← BPlusTree_search t 3;
   s11 ← BPlusTree_search t 11;
   chain ← BPlusTree_chain t;
   Ok (tree_root t, s3, s11, map fst chain))
  = Ok (Internal [3; 5; 8] [Leaf 0; Leaf 3; Leaf 1; Leaf 2],
        Some 30, None, [1; 2; 3; 4; 5; 6; 7; 8; 9; 10]).
Proof. vm_compute. reflexivity. Qed.

(** *** The abstract contents: a sorted association list *)

Section assoc.
Context {V : Type}.
Implicit Types (m : list (Z * V)) (key k : Z) (value v : V).

(** What an insertion does to the sorted list of entries. *)
Fixpoint ainsert key value m : list (Z * V) :=
  match m with
  | [] => [(key, value)]
  | (k, v) :: m' =>
      if (k <? key)%Z then (k, v) :: ainsert key value m'
      else if decide (k = key) then (key, value) :: m'
      else (key, value) :: (k, v) :: m'
  end.

Fixpoint alookup key m : option V :=
  match m with
  | [] => None
  | (k, v) :: m' => if decide (k = key) then Some v else alookup key m'
  end.

(** The value of the last insertion of [key] in a sequence of calls. *)
Fixpoint last_write key (ops : list (Z * V)) : option V :=
  match ops with
  | [] => None
  | (k, v) :: ops' =>
      match last_write key ops' with
      | Some v' => Some v'
      | None => if decide (k = key) then Some v else None
      end
  end.

Lemma alookup_ainsert key value m k :
  alookup k (ainsert key value m) = if decide (key = k) then Some value else alookup k m.
Proof.
  induction m as [|[k' v'] m IH]; simpl; [done|].
  destruct (Z.ltb_spec k' key) as [Hlt|Hge]; simpl.
  - rewrite IH. destruct (decide (k' = k)) as [->|?]; [|done].
    by rewrite decide_False by lia.
  - destruct (decide (k' = key)) as [->|Hne]; simpl.
    + by destruct (decide (key = k)).
    + destruct (decide (key = k)) as [->|?]; [done|]. done.
Qed.

Lemma ainsert_keys key value m k :
  k ∈ map fst (ainsert key value m) ↔ k = key ∨ k ∈ map fst m.
Proof.
  induction m as [|[k' v'] m IH]; simpl.
  - rewrite list_elem_of_singleton. split; [by left|]. intros [?|?%elem_of_nil]; done.
  - destruct (Z.ltb_spec k' key); simpl.
    + rewrite !elem_of_cons, IH. tauto.
    + destruct (decide (k' = key)) as [->|?]; simpl; rewrite !elem_of_cons; tauto.
Qed.

Lemma ainsert_sorted key value m :
  StronglySorted Z.lt (map fst m) → StronglySorted Z.lt (map fst (ainsert key value m)).
Proof.
  induction m as [|[k' v'] m IH]; simpl; intros Hm.
  - repeat constructor.
  - pose proof Hm as Hm'. apply StronglySorted_inv in Hm' as [Hm' Hk'].
    destruct (Z.ltb_spec k' key); simpl.
    + constructor; [by apply IH|]. apply Forall_forall. intros k Hk.
      apply ainsert_keys in Hk as [->|Hk]; [done|].
      rewrite Forall_forall in Hk'. by apply Hk'.
    + destruct (decide (k' = key)) as [->|?]; simpl; [done|].
      constructor; [done|]. constructor; [lia|].
      eapply Forall_impl; [exact Hk'|]. simpl. lia.
Qed.

(** Inserting in the middle segment of a list whose left part is below
    the key and whose right part is above it. *)
Lemma ainsert_app_r key value m1 m2 :
  Forall (λ kv, key < kv.1) m2 →
  ainsert key value (m1 ++ m2) = ainsert key value m1 ++ m2.
Proof.
  intros Hm2. induction m1 as [|[k v] m1 IH]; simpl.
  - destruct Hm2 as [|[k v] m2 Hk Hm2]; simpl in *; [done|].
    destruct (Z.ltb_spec k key); [lia|]. by rewrite decide_False by lia.
  - rewrite IH. destruct (k <? key)%Z; [done|]. by destruct (decide (k = key)).
Qed.

Lemma ainsert_app_l key value m1 m2 :
  Forall (λ kv, kv.1 < key) m1 →
  ainsert key value (m1 ++ m2) = m1 ++ ainsert key value m2.
Proof.
  induction 1 as [|[k v] m1 Hk Hm1 IH]; simpl in *; [done|].
  destruct (Z.ltb_spec k key); [|lia]. by rewrite IH.
Qed.

Lemma alookup_foldl_ainsert (ops : list (Z * V)) m k :
  alookup k (foldl (λ m kv, ainsert kv.1 kv.2 m) m ops)
  = match last_write k ops with Some v => Some v | None => alookup k m end.
Proof.
  revert m. induction ops as [|[key value] ops IH]; intros m; simpl; [done|].
  rewrite IH, alookup_ainsert. destruct (last_write k ops); [done|].
  destruct (decide (key = k)); done.
Qed.
End assoc.

(** *** Key ranges *)

Inductive bound := NegInf | Fin (z : Z) | PosInf.

Definition ble (a b : bound) : Prop :=
  match a, b with
  | NegInf, _ | _, PosInf => True
  | Fin x, Fin y => x ≤ y
  | _, _ => False
  end.

Definition blt (a b : bound) : Prop :=
  match a, b with
  | NegInf, Fin _ | NegInf, PosInf | Fin _, PosInf => True
  | Fin x, Fin y => x < y
  | _, _ => False
  end.

Arguments ble : simpl never.
Arguments blt : simpl never.

(** A key [k] of a subtree with range [lo, hi): [lo <= k < hi]. *)
Definition in_range (lo hi : bound) (k : Z) : Prop := ble lo (Fin k) ∧ blt (Fin k) hi.

Ltac bounds :=
  unfold in_range, ble, blt in *;
  repeat match goal with
         | b : bound |- _ => destruct b
         | H : _ ∧ _ |- _ => destruct H
         end;
  simpl in *; try done; try lia; try (split; lia).

Lemma ble_trans a b c : ble a b → ble b c → ble a c.
Proof. bounds. Qed.

Lemma ble_refl a : ble a a.
Proof. bounds. Qed.

Lemma in_range_weaken lo hi lo' hi' k :
  in_range lo hi k → ble lo' lo → ble hi hi' → in_range lo' hi' k.
Proof. bounds. Qed.

Lemma in_range_ble lo hi k : in_range lo hi k → ble lo hi.
Proof. bounds. Qed.

(** *** The shape and ordering invariant *)

(** [aligned P lo hi ks cs]: the children [cs] and separators [ks] of an
    internal node with range [lo, hi): one more child than keys, child [i]
    satisfies [P] on the range from separator [i-1] to separator [i], and
    the bounds are non-decreasing from [lo] to [hi]. *)
Inductive aligned (P : bound → bound → Node → Prop)
  : bound → bound → list Z → list Node → Prop :=
| aligned_last lo hi c :
    P lo hi c → ble lo hi → aligned P lo hi [] [c]
| aligned_cons lo hi k ks c cs :
    P lo (Fin k) c → ble lo (Fin k) → aligned P (Fin k) hi ks cs →
    aligned P lo hi (k :: ks) (c :: cs).

Section bst.
Context {V : Type}.
Implicit Types (h : list (LeafNode V)) (lf : LeafNode V) (l : loc) (n c : Node).

Definition entries lf : list (Z * V) := zip (keys lf) (values lf).

Definition leaf_ok (lo hi : bound) lf : Prop :=
  length (keys lf) = length (values lf) ∧
  StronglySorted Z.lt (keys lf) ∧
  Forall (in_range lo hi) (keys lf).

#[local] Unset Elimination Schemes.
Inductive bst h : bound → bound → Node → Prop :=
| bst_leaf lo hi l lf :
    h !! l = Some lf → leaf_ok lo hi lf → bst h lo hi (Leaf l)
| bst_internal lo hi ks cs :
    aligned (bst h) lo hi ks cs → bst h lo hi (Internal ks cs).
#[local] Set Elimination Schemes.

(** The leaves below a node, left to right. *)
Fixpoint leaves n : list loc :=
  match n with
  | Leaf l => [l]
  | Internal _ cs =>
      (fix go (cs : list Node) : list loc :=
         match cs with
         | [] => []
         | c :: cs' => leaves c ++ go cs'
         end) cs
  end.

Definition leaf_entries h l : list (Z * V) :=
  match h !! l with
  | Some lf => entries lf
  | None => []
  end.

(** The entries below a node, left to right. *)
Definition contents h n : list (Z * V) := flat_map (leaf_entries h) (leaves n).

(** [chained h ls nxt]: each leaf of [ls] links to the one after it, the
    last one to [nxt]. *)
Fixpoint chained h (ls : list loc) (nxt : option loc) : Prop :=
  match ls with
  | [] => True
  | l :: ls' =>
      ∃ lf, h !! l = Some lf ∧
            next_leaf lf = match ls' with [] => nxt | l' :: _ => Some l' end ∧
            chained h ls' nxt
  end.

(** The invariant of a tree between two calls. *)
Definition tree_inv (t : BPlusTree V) : Prop :=
  bst (leaf_heap t) NegInf PosInf (tree_root t) ∧
  NoDup (leaves (tree_root t)) ∧
  chained (leaf_heap t) (leaves (tree_root t)) None ∧
  length (leaves (tree_root t)) = length (leaf_heap t).

(** What one insertion does to the heap: the leaf at [l] takes the entry,
    and when it splits its upper half moves to a new leaf linked after
    it. *)
Inductive leaf_update h l (key : Z) (value : V)
  : list (LeafNode V) → bool → Prop :=
| leaf_update_keep lf lf' :
    h !! l = Some lf →
    next_leaf lf' = next_leaf lf →
    entries lf' = ainsert key value (entries lf) →
    leaf_update h l key value (<[l := lf']> h) false
| leaf_update_split lf lf1 lf2 :
    h !! l = Some lf →
    next_leaf lf1 = Some (length h) →
    next_leaf lf2 = next_leaf lf →
    entries lf1 ++ entries lf2 = ainsert key value (entries lf) →
    leaf_update h l key value (<[l := lf1]> h ++ [lf2]) true.

Definition result_leaves n (r : option (Z * Node)) : list loc :=
  leaves n ++ match r with Some (_, n2) => leaves n2 | None => [] end.

Definition result_bst h (lo hi : bound) n (r : option (Z * Node)) : Prop :=
  match r with
  | None => bst h lo hi n
  | Some (sep, n2) =>
      bst h lo (Fin sep) n ∧ bst h (Fin sep) hi n2 ∧
      ble lo (Fin sep) ∧ ble (Fin sep) hi
  end.
End bst.

Lemma Node_ind (P : Node → Prop) :
  (∀ l, P (Leaf l)) →
  (∀ ks cs, Forall P cs → P (Internal ks cs)) →
  ∀ n, P n.
Proof.
  intros Hleaf Hint. fix IH 1. intros [l|ks cs]; [apply Hleaf|].
  apply Hint. induction cs as [|c cs IHcs]; constructor; [apply IH|apply IHcs].
Qed.

(** *** One leaf *)

Section leaf_facts.
Context {V : Type}.
Implicit Types (h : list (LeafNode V)) (lf : LeafNode V) (l : loc)
  (ks : list Z) (vs : list V) (key : Z) (value : V).

Lemma length_py_list_insert {A} (i : nat) (x : A) (xs : list A) :
  length (py_list_insert i x xs) = S (length xs).
Proof.
  unfold py_list_insert. rewrite length_app. simpl.
  rewrite length_take, length_drop. lia.
Qed.

Lemma py_list_insert_0 {A} (x : A) (xs : list A) : py_list_insert 0 x xs = x :: xs.
Proof. done. Qed.

Lemma py_list_insert_S {A} (i : nat) (x y : A) (xs : list A) :
  py_list_insert (S i) x (y :: xs) = y :: py_list_insert i x xs.
Proof. done. Qed.

Lemma insert_pos_update ks vs key value :
  length ks = length vs →
  ks !! insert_pos ks key = Some key →
  zip ks (<[insert_pos ks key := value]> vs) = ainsert key value (zip ks vs).
Proof.
  revert vs. induction ks as [|k ks IH]; intros [|v vs] Hlen Hpos; simplify_eq/=.
  destruct (Z.ltb_spec k key) as [Hlt|Hge]; simpl in *.
  - f_equal. by apply IH.
  - simplify_eq. by rewrite decide_True.
Qed.

Lemma insert_pos_insert ks vs key value :
  length ks = length vs →
  ks !! insert_pos ks key ≠ Some key →
  zip (py_list_insert (insert_pos ks key) key ks)
      (py_list_insert (insert_pos ks key) value vs)
  = ainsert key value (zip ks vs).
Proof.
  unfold py_list_insert.
  revert vs. induction ks as [|k ks IH]; intros [|v vs] Hlen Hpos; simplify_eq/=;
    [done|].
  destruct (Z.ltb_spec k key) as [Hlt|Hge]; simpl in *.
  - f_equal. by apply IH.
  - rewrite decide_False by congruence. done.
Qed.

Lemma fst_entries lf :
  length (keys lf) = length (values lf) → map fst (entries lf) = keys lf.
Proof. intros Hlen. apply fst_zip. lia. Qed.

Lemma zip_take_drop ks vs (i : nat) :
  zip (take i ks) (take i vs) ++ zip (drop i ks) (drop i vs) = zip ks vs.
Proof.
  revert ks vs. induction i as [|i IH]; intros [|k ks] [|v vs]; simpl; try done.
  - by rewrite zip_with_nil_r.
  - by rewrite IH.
Qed.

Lemma sorted_app_inv ks1 ks2 :
  StronglySorted Z.lt (ks1 ++ ks2) →
  StronglySorted Z.lt ks1 ∧ StronglySorted Z.lt ks2 ∧
  ∀ a b, a ∈ ks1 → b ∈ ks2 → a < b.
Proof.
  induction ks1 as [|k ks1 IH]; simpl; intros Hs.
  - split_and!; [constructor|done|]. by intros a b ?%elem_of_nil.
  - apply StronglySorted_inv in Hs as [Hs Hk].
    destruct (IH Hs) as (H1 & H2 & H12). apply Forall_app in Hk as [Hk1 Hk2].
    split_and!; [by constructor|done|].
    intros a b [->|Ha]%elem_of_cons Hb; [|by apply H12].
    rewrite Forall_forall in Hk2. by apply Hk2.
Qed.

Lemma bst_leaf_inv h lo hi l :
  bst h lo hi (Leaf l) → ∃ lf, h !! l = Some lf ∧ leaf_ok lo hi lf.
Proof. inversion 1; eauto. Qed.

Lemma bst_internal_inv h lo hi ks cs :
  bst h lo hi (Internal ks cs) → aligned (bst h) lo hi ks cs.
Proof. by inversion 1. Qed.

(** The keys of a leaf after it took [key]: still sorted, still in range. *)
Lemma leaf_ok_ainsert lo hi ks vs ks' vs' key value :
  leaf_ok lo hi (mkLeafNode ks vs None) → in_range lo hi key →
  length ks' = length vs' →
  zip ks' vs' = ainsert key value (zip ks vs) →
  StronglySorted Z.lt ks' ∧ Forall (in_range lo hi) ks'.
Proof.
  intros (Hlen & Hsorted & Hrange) Hkey Hlen' Hzip. simpl in *.
  assert (ks' = map fst (ainsert key value (zip ks vs))) as ->.
  { rewrite <-Hzip. symmetry. apply fst_zip. lia. }
  assert (map fst (zip ks vs) = ks) as Hfst by (apply fst_zip; lia).
  split.
  - apply ainsert_sorted. by rewrite Hfst.
  - apply Forall_forall. intros k [->|Hk]%ainsert_keys; [done|].
    rewrite Hfst in Hk. rewrite Forall_forall in Hrange. by apply Hrange.
Qed.

Lemma LeafNode_insert_spec order h l lf lo hi key value :
  h !! l = Some lf → leaf_ok lo hi lf → in_range lo hi key →
  ∃ h' r split,
    LeafNode_insert order h l key value = Ok (h', r) ∧
    leaf_update h l key value h' split ∧
    result_bst h' lo hi (Leaf l) r ∧
    result_leaves (Leaf l) r = l :: (if split then [length h] else []).
Proof.
  intros Hl Hok Hkey. pose proof Hok as (Hlen & Hsorted & Hrange).
  assert (l < length h)%nat as Hlt by by eapply lookup_lt_Some.
  unfold LeafNode_insert, read_leaf. rewrite Hl. simpl.
  set (pos := insert_pos (keys lf) key).
  case_bool_decide as Hpos.
  - (* the key is there: its value is overwritten *)
    assert (pos < length (values lf))%nat as Hposlt.
    { rewrite <-Hlen. by eapply lookup_lt_Some. }
    destruct (lookup_lt_is_Some_2 _ _ Hposlt) as [v Hv].
    unfold py_get. rewrite Hv. simpl.
    set (lf' := mkLeafNode (keys lf) (<[pos:=value]> (values lf)) (next_leaf lf)).
    assert (entries lf' = ainsert key value (entries lf)) as Hent
      by by apply insert_pos_update.
    exists (<[l:=lf']> h), None, false. split_and!; [done| |  |done].
    + by apply leaf_update_keep with lf.
    + apply bst_leaf with lf'; [by apply list_lookup_insert_eq|].
      assert (length (keys lf') = length (values lf')) as Hlen'
        by (simpl; by rewrite length_insert).
      split; [done|].
      eapply (leaf_ok_ainsert lo hi (keys lf) (values lf)); eauto.
  - (* a new key *)
    set (ks := py_list_insert pos key (keys lf)).
    set (vs := py_list_insert pos value (values lf)).
    assert (zip ks vs = ainsert key value (entries lf)) as Hent
      by by apply insert_pos_insert.
    assert (length ks = length vs) as Hlen'.
    { unfold ks, vs. rewrite !length_py_list_insert. lia. }
    destruct (leaf_ok_ainsert lo hi (keys lf) (values lf) ks vs key value)
      as [Hsorted' Hrange']; [done..|].
    destruct (is_full order ks).
    + (* the leaf is split *)
      unfold LeafNode_split. simpl.
      set (mid := (length ks / 2)%nat).
      assert (mid < length ks)%nat as Hmid.
      { apply Nat.div_lt; [|lia]. unfold ks. rewrite length_py_list_insert. lia. }
      destruct (lookup_lt_is_Some_2 _ _ Hmid) as [sep Hsep].
      unfold py_get. simpl. fold mid. rewrite lookup_drop, Nat.add_0_r, Hsep. simpl.
      set (lf1 := mkLeafNode (take mid ks) (take mid vs) (Some (length h))).
      set (lf2 := mkLeafNode (drop mid ks) (drop mid vs) (next_leaf lf)).
      rewrite <-(take_drop mid ks) in Hsorted', Hrange'.
      apply sorted_app_inv in Hsorted' as (Hs1 & Hs2 & Hlt12).
      apply Forall_app in Hrange' as [Hr1 Hr2].
      assert (drop mid ks = sep :: drop (S mid) ks) as Hdrop
        by by apply drop_S.
      assert (in_range lo hi sep) as Hsep_range.
      { rewrite Hdrop in Hr2. by apply Forall_cons in Hr2 as [? _]. }
      exists (<[l:=lf1]> h ++ [lf2]), (Some (sep, Leaf (length h))), true.
      split_and!; [done| | |done].
      * apply leaf_update_split with lf; try done.
        unfold entries. simpl. by rewrite zip_take_drop.
      * split_and!.
        -- apply bst_leaf with lf1.
           { rewrite lookup_app_l by (rewrite length_insert; lia).
             by apply list_lookup_insert_eq. }
           split_and!; simpl; [rewrite !length_take; lia|done|].
           apply Forall_forall. intros k Hk.
           assert (k < sep) by (apply Hlt12; [done|]; rewrite Hdrop; left).
           rewrite Forall_forall in Hr1. specialize (Hr1 k Hk). bounds.
        -- apply bst_leaf with lf2.
           { rewrite lookup_app_r by (rewrite length_insert; lia).
             by rewrite length_insert, Nat.sub_diag. }
           split_and!; simpl; [rewrite !length_drop; lia|done|].
           apply Forall_forall. intros k Hk.
           assert (sep ≤ k).
           { rewrite Hdrop in Hk, Hs2.
             apply elem_of_cons in Hk as [->|Hk]; [lia|].
             apply StronglySorted_inv in Hs2 as [_ Hs2].
             rewrite Forall_forall in Hs2. specialize (Hs2 k Hk). lia. }
           rewrite Forall_forall in Hr2. specialize (Hr2 k Hk). bounds.
        -- bounds.
        -- bounds.
    + exists (<[l:=mkLeafNode ks vs (next_leaf lf)]> h), None, false.
      split_and!; [done| | |done].
      * by apply leaf_update_keep with lf.
      * apply bst_leaf with (mkLeafNode ks vs (next_leaf lf));
          [by apply list_lookup_insert_eq|done].
Qed.
End leaf_facts.

(** *** Separators and children *)

Section aligned_facts.
Implicit Types (P Q : bound → bound → Node → Prop) (ks : list Z) (cs : list Node).

Lemma aligned_length P lo hi ks cs :
  aligned P lo hi ks cs → length cs = S (length ks).
Proof. induction 1; simpl; congruence. Qed.

Lemma aligned_ble P lo hi ks cs : aligned P lo hi ks cs → ble lo hi.
Proof. induction 1; [done|]. by eapply ble_trans. Qed.

Lemma aligned_mono P Q lo hi ks cs :
  (∀ a b c, c ∈ cs → P a b c → Q a b c) →
  aligned P lo hi ks cs → aligned Q lo hi ks cs.
Proof.
  intros HPQ Hal. induction Hal as [lo hi c Hc Hle|lo hi k ks c cs Hc Hle Hal IH].
  - constructor; [|done]. apply HPQ; [left|done].
  - constructor; [|done|].
    + apply HPQ; [left|done].
    + apply IH. intros a b c' Hin. apply HPQ. by right.
Qed.

(** Every child's range lies within the node's. *)
Lemma aligned_children P lo hi ks cs :
  aligned P lo hi ks cs →
  Forall (λ c, ∃ a b, P a b c ∧ ble lo a ∧ ble b hi) cs.
Proof.
  induction 1 as [lo hi c Hc Hle|lo hi k ks c cs Hc Hle Hal IH].
  - repeat constructor. exists lo, hi. split_and!; [done|apply ble_refl..].
  - constructor.
    + exists lo, (Fin k). split_and!; [done|apply ble_refl|].
      by eapply aligned_ble.
    + eapply Forall_impl; [exact IH|]. intros c' (a & b & ? & ? & ?).
      exists a, b. split_and!; [done| |done]. by eapply ble_trans.
Qed.

(** Where [find_child_index] sends a key, and how the node is put back
    together around that child, before and after a split of the child. *)
Lemma aligned_route P lo hi ks cs key :
  aligned P lo hi ks cs → in_range lo hi key →
  let idx := find_child_index ks key in
  ∃ c lo' hi',
    cs !! idx = Some c ∧ P lo' hi' c ∧ in_range lo' hi' key ∧
    Forall (λ c', ∃ a b, P a b c' ∧ ble b (Fin key)) (take idx cs) ∧
    Forall (λ c', ∃ a b, P a b c' ∧ blt (Fin key) a) (drop (S idx) cs) ∧
    (∀ Q c1,
       (∀ a b c', c' ∈ take idx cs ++ drop (S idx) cs → P a b c' → Q a b c') →
       Q lo' hi' c1 →
       aligned Q lo hi ks (<[idx := c1]> cs)) ∧
    (∀ Q c1 sep c2,
       (∀ a b c', c' ∈ take idx cs ++ drop (S idx) cs → P a b c' → Q a b c') →
       Q lo' (Fin sep) c1 → Q (Fin sep) hi' c2 →
       ble lo' (Fin sep) → ble (Fin sep) hi' →
       aligned Q lo hi (py_list_insert idx sep ks)
                       (py_list_insert (S idx) c2 (<[idx := c1]> cs))).
Proof.
  intros Hal. induction Hal as [lo hi c Hc Hle|lo hi k ks c cs Hc Hle Hal IH];
    intros Hkey; simpl.
  - exists c, lo, hi. split_and!; try done.
    + intros Q c1 _ Hc1. by constructor.
    + intros Q c1 sep c2 _ Hc1 Hc2 Hlo Hhi. unfold py_list_insert. simpl.
      constructor; [done..|]. by constructor.
  - destruct (Z.leb_spec k key) as [Hk|Hk].
    + destruct IH as (c0 & lo' & hi' & Hlook & Hc0 & Hrange & Hbefore & Hafter
                       & Hput & Hsplit); [bounds|].
      exists c0, lo', hi'. split_and!; try done.
      * simpl. constructor; [|done]. exists lo, (Fin k). split; [done|bounds].
      * intros Q c1 HPQ Hc1. simpl. constructor; [|done|].
        -- apply HPQ; [left|done].
        -- apply Hput; [|done]. intros a b c' Hin. apply HPQ. by right.
      * intros Q c1 sep c2 HPQ Hc1 Hc2 Hlo Hhi.
        change (aligned Q lo hi
                  (k :: py_list_insert (find_child_index ks key) sep ks)
                  (c :: py_list_insert (S (find_child_index ks key)) c2
                          (<[find_child_index ks key := c1]> cs))).
        constructor; [|done|].
        -- apply HPQ; [left|done].
        -- apply Hsplit; try done. intros a b c' Hin. apply HPQ. by right.
    + exists c, lo, (Fin k). split_and!; try done.
      * bounds.
      * simpl. rewrite drop_0.
        eapply Forall_impl; [exact (aligned_children _ _ _ _ _ Hal)|].
        intros c' (a & b & ? & ? & ?). exists a, b. split; [done|bounds].
      * intros Q c1 HPQ Hc1. simpl. constructor; [done..|].
        eapply aligned_mono; [|exact Hal]. intros a b c' Hin. apply HPQ.
        simpl. by rewrite drop_0.
      * intros Q c1 sep c2 HPQ Hc1 Hc2 Hlo Hhi. unfold py_list_insert. simpl.
        rewrite drop_0. constructor; [done..|]. constructor; [done..|].
        eapply aligned_mono; [|exact Hal]. intros a b c' Hin. apply HPQ.
        simpl. by rewrite drop_0.
Qed.

(** [InternalNode._split] at a position [mid] that holds a key. *)
Lemma aligned_split P lo hi ks cs (mid : nat) m :
  aligned P lo hi ks cs → ks !! mid = Some m →
  aligned P lo (Fin m) (take mid ks) (take (S mid) cs) ∧
  aligned P (Fin m) hi (drop (S mid) ks) (drop (S mid) cs) ∧
  ble lo (Fin m) ∧ ble (Fin m) hi.
Proof.
  intros Hal. revert mid.
  induction Hal as [lo hi c Hc Hle|lo hi k ks c cs Hc Hle Hal IH]; intros mid Hmid;
    [done|].
  destruct mid as [|mid]; simpl in *.
  - simplify_eq. rewrite take_0. split_and!; [by constructor|done|done|].
    by eapply aligned_ble.
  - destruct (IH _ Hmid) as (Hleft & Hright & Hlo & Hhi).
    split_and!; [by constructor|done| |done]. by eapply ble_trans.
Qed.
End aligned_facts.

(** *** Nodes *)

Section node_facts.
Context {V : Type}.
Implicit Types (h : list (LeafNode V)) (lf : LeafNode V) (l : loc) (n c : Node)
  (ks : list Z) (cs : list Node) (key : Z) (value : V).

Lemma leaves_Internal ks cs : leaves (Internal ks cs) = flat_map leaves cs.
Proof. reflexivity. Qed.

Lemma Node_search_Internal ks cs key h :
  Node_search (Internal ks cs) key h =
  match cs !! find_child_index ks key with
  | Some c => Node_search c key h
  | None => Raise IndexError
  end.
Proof.
  simpl. generalize (find_child_index ks key). intros i. revert i.
  induction cs as [|c cs IH]; intros [|i]; simpl; first [done|apply IH].
Qed.

Lemma Node_insert_Internal order ks cs key value h :
  Node_insert order (Internal ks cs) key value h =
  let idx := find_child_index ks key in
  '(h', child, result) ←
    match cs !! idx with
    | Some c => Node_insert order c key value h
    | None => Raise IndexError
    end;
  let cs := <[idx := child]> cs in
  match result with
  | None => Ok (h', Internal ks cs, None)
  | Some (new_key, new_child) =>
      '(n', result) ← InternalNode_add_child order ks cs idx new_key new_child;
      Ok (h', n', result)
  end.
Proof.
  cbn [Node_insert]. cbv zeta.
  match goal with
  | |- mbind _ (?F cs ?i) = _ =>
      assert (∀ cs' i', F cs' i' = match cs' !! i' with
                                   | Some c => Node_insert order c key value h
                                   | None => Raise IndexError
                                   end) as ->; [|done]
  end.
  induction cs' as [|c cs' IH]; intros [|i']; simpl; first [done|apply IH].
Qed.

Lemma elem_of_flat_map {A B} (f : A → list B) (xs : list A) (y : B) :
  y ∈ flat_map f xs ↔ ∃ x, x ∈ xs ∧ y ∈ f x.
Proof.
  rewrite list_elem_of_In, in_flat_map. split; intros (x & Hx & Hy); exists x.
  - by rewrite !list_elem_of_In.
  - by rewrite <-!list_elem_of_In.
Qed.

Lemma leaves_put_child cs (idx : nat) c c' :
  cs !! idx = Some c →
  flat_map leaves (<[idx := c']> cs)
  = flat_map leaves (take idx cs) ++ leaves c' ++ flat_map leaves (drop (S idx) cs).
Proof.
  intros Hc. rewrite insert_take_drop by by eapply lookup_lt_Some.
  by rewrite flat_map_app.
Qed.

Lemma leaves_split_child cs (idx : nat) c c' c2 :
  cs !! idx = Some c →
  flat_map leaves (py_list_insert (S idx) c2 (<[idx := c']> cs))
  = flat_map leaves (take idx cs) ++ (leaves c' ++ leaves c2)
    ++ flat_map leaves (drop (S idx) cs).
Proof.
  intros Hc. assert (idx < length cs)%nat as Hlt by by eapply lookup_lt_Some.
  unfold py_list_insert. rewrite insert_take_drop by done.
  assert (S idx = length (take idx cs ++ [c'])) as Hlen
    by (rewrite length_app, length_take; simpl; lia).
  rewrite (cons_middle c' (take idx cs)), app_assoc.
  rewrite (take_app_length' _ _ _ Hlen), (drop_app_length' _ _ _ Hlen).
  rewrite !flat_map_app. simpl. by rewrite ?app_nil_r, <-?app_assoc.
Qed.

Lemma bst_frame h h' n : ∀ lo hi,
  bst h lo hi n → (∀ l, l ∈ leaves n → h' !! l = h !! l) → bst h' lo hi n.
Proof.
  induction n as [l|ks cs IH] using Node_ind; intros lo hi Hbst Hframe.
  - apply bst_leaf_inv in Hbst as (lf & Hl & Hok).
    apply bst_leaf with lf; [|done]. rewrite Hframe; [done|]. simpl. left.
  - apply bst_internal_inv in Hbst. apply bst_internal.
    eapply aligned_mono; [|exact Hbst]. intros a b c Hc Hbstc.
    rewrite Forall_forall in IH. apply IH; [done..|].
    intros l Hl. apply Hframe. rewrite leaves_Internal.
    apply elem_of_flat_map. by exists c.
Qed.

(** The keys of every leaf below a node lie in the node's range. *)
Lemma bst_keys_range h n : ∀ lo hi,
  bst h lo hi n →
  ∀ l lf, l ∈ leaves n → h !! l = Some lf → Forall (in_range lo hi) (keys lf).
Proof.
  induction n as [l0|ks cs IH] using Node_ind; intros lo hi Hbst l lf Hin Hl.
  - apply bst_leaf_inv in Hbst as (lf0 & Hl0 & _ & _ & Hrange).
    simpl in Hin. apply list_elem_of_singleton in Hin as ->. by simplify_eq.
  - apply bst_internal_inv, aligned_children in Hbst.
    rewrite leaves_Internal in Hin.
    apply elem_of_flat_map in Hin as (c & Hc & Hlc).
    rewrite Forall_forall in IH. rewrite Forall_forall in Hbst.
    destruct (Hbst c Hc) as (a & b & Hbstc & Hlo & Hhi).
    eapply Forall_impl; [by eapply (IH c Hc a b)|].
    intros k Hk. by eapply in_range_weaken.
Qed.

Lemma bst_leaves_lt h n lo hi l :
  bst h lo hi n → l ∈ leaves n → (l < length h)%nat.
Proof.
  revert lo hi. induction n as [l0|ks cs IH] using Node_ind; intros lo hi Hbst Hin.
  - apply bst_leaf_inv in Hbst as (lf0 & Hl0 & _).
    simpl in Hin. apply list_elem_of_singleton in Hin as ->.
    by eapply lookup_lt_Some.
  - apply bst_internal_inv, aligned_children in Hbst.
    rewrite leaves_Internal in Hin.
    apply elem_of_flat_map in Hin as (c & Hc & Hlc).
    rewrite Forall_forall in IH. rewrite Forall_forall in Hbst.
    destruct (Hbst c Hc) as (a & b & Hbstc & _). by eapply (IH c Hc a b).
Qed.

Lemma leaf_update_frame h l key value h' split l' :
  leaf_update h l key value h' split → l' ≠ l → (l' < length h)%nat →
  h' !! l' = h !! l'.
Proof.
  intros Hup Hne Hlt. destruct Hup.
  - by rewrite list_lookup_insert_ne.
  - rewrite lookup_app_l by (by rewrite length_insert).
    by rewrite list_lookup_insert_ne.
Qed.

Lemma leaf_update_length h l key value h' split :
  leaf_update h l key value h' split →
  length h' = (length h + if split then 1 else 0)%nat.
Proof.
  destruct 1; rewrite ?length_app, length_insert; simpl; lia.
Qed.
End node_facts.

Ltac solve_app :=
  repeat first [rewrite <-app_assoc | rewrite <-app_comm_cons | rewrite app_nil_r];
  done.

Section insert_facts.
Context {V : Type}.
Implicit Types (h : list (LeafNode V)) (lf : LeafNode V) (l : loc) (n c : Node)
  (ks : list Z) (cs : list Node) (key : Z) (value : V).

(** One [insert] below a node: it succeeds, changes the heap at one leaf of
    the node (and a new one when that leaf splits), keeps the ordering
    invariant, and leaves the leaves to the left below [key] and those to
    the right above it. *)
Lemma Node_insert_spec order n : ∀ h lo hi key value,
  bst h lo hi n → in_range lo hi key → NoDup (leaves n) →
  ∃ h' n' r l split pre post,
    Node_insert order n key value h = Ok (h', n', r) ∧
    leaves n = pre ++ l :: post ∧
    leaf_update h l key value h' split ∧
    result_leaves n' r = pre ++ l :: (if split then [length h] else []) ++ post ∧
    result_bst h' lo hi n' r ∧
    Forall (λ l', ∀ lf', h !! l' = Some lf' → Forall (λ k, k < key) (keys lf')) pre ∧
    Forall (λ l', ∀ lf', h !! l' = Some lf' → Forall (λ k, key < k) (keys lf')) post.
Proof.
  induction n as [l|ks cs IH] using Node_ind; intros h lo hi key value Hbst Hkey Hnd.
  - apply bst_leaf_inv in Hbst as (lf & Hl & Hok).
    destruct (LeafNode_insert_spec order h l lf lo hi key value Hl Hok Hkey)
      as (h' & r & split & Hrun & Hup & Hres & Hleaves).
    exists h', (Leaf l), r, l, split, [], []. split_and!; try done.
    + simpl. by rewrite Hrun.
    + rewrite Hleaves. simpl. by rewrite app_nil_r.
  - apply bst_internal_inv in Hbst.
    destruct (aligned_route _ _ _ _ _ key Hbst Hkey)
      as (c & lo' & hi' & Hc & Hbstc & Hkey' & Hbefore & Hafter & Hput & Hsplit).
    pose proof (Node_insert_Internal order ks cs key value h) as Hunfold.
    cbv zeta in Hunfold.
    set (idx := find_child_index ks key) in *.
    rewrite leaves_Internal in Hnd |- *.
    set (L := flat_map leaves (take idx cs)).
    set (Rr := flat_map leaves (drop (S idx) cs)).
    assert (flat_map leaves cs = L ++ leaves c ++ Rr) as Hleaves.
    { rewrite <-(take_drop_middle cs idx c Hc) at 1. by rewrite flat_map_app. }
    rewrite Hleaves in Hnd.
    apply NoDup_app in Hnd as (HndL & HLdisj & Hnd').
    apply NoDup_app in Hnd' as (Hndc & Hcdisj & HndR).
    assert (c ∈ cs) as Hcin by by eapply list_elem_of_lookup_2.
    rewrite Forall_forall in IH.
    destruct (IH c Hcin h lo' hi' key value Hbstc Hkey' Hndc)
      as (h' & c' & r & l & split & pre & post
          & Hrun & Hlc & Hup & Hresl & Hresb & Hpre & Hpost).
    rewrite Hc, Hrun in Hunfold. simpl in Hunfold.
    unfold InternalNode_add_child in Hunfold.
    assert (l ∈ leaves c) as Hlin.
    { rewrite Hlc. apply elem_of_app. right. left. }
    assert (∀ a b c0, c0 ∈ take idx cs ++ drop (S idx) cs →
                      bst h a b c0 → bst h' a b c0) as Hsib.
    { intros a b c0 Hin Hb. apply (bst_frame h); [done|]. intros l0 Hl0.
      eapply leaf_update_frame; [done| |by eapply bst_leaves_lt].
      intros ->. apply elem_of_app in Hin as [Hin|Hin].
      - apply (HLdisj l); [apply elem_of_flat_map; eauto|].
        apply elem_of_app. by left.
      - apply (Hcdisj l); [done|]. apply elem_of_flat_map; eauto. }
    assert (flat_map leaves cs = (L ++ pre) ++ l :: post ++ Rr) as Hleaves_n.
    { rewrite Hleaves, Hlc. solve_app. }
    assert (Forall (λ l', ∀ lf', h !! l' = Some lf' →
                                 Forall (λ k, k < key) (keys lf')) (L ++ pre))
      as Hpre_n.
    { apply Forall_app. split; [|done]. apply Forall_forall.
      intros l0 (c0 & Hc0 & Hl0)%elem_of_flat_map lf0 Hlf0.
      rewrite Forall_forall in Hbefore.
      destruct (Hbefore c0 Hc0) as (a & b & Hb & Hle).
      eapply Forall_impl; [by eapply (bst_keys_range h c0 a b)|].
      intros k Hk. simpl. bounds. }
    assert (Forall (λ l', ∀ lf', h !! l' = Some lf' →
                                 Forall (λ k, key < k) (keys lf')) (post ++ Rr))
      as Hpost_n.
    { apply Forall_app. split; [done|]. apply Forall_forall.
      intros l0 (c0 & Hc0 & Hl0)%elem_of_flat_map lf0 Hlf0.
      rewrite Forall_forall in Hafter.
      destruct (Hafter c0 Hc0) as (a & b & Hb & Hlt).
      eapply Forall_impl; [by eapply (bst_keys_range h c0 a b)|].
      intros k Hk. simpl. bounds. }
    destruct r as [[sep c2]|].
    + destruct Hresb as (Hb1 & Hb2 & Hlo & Hhi).
      set (ks' := py_list_insert idx sep ks) in *.
      set (cs' := py_list_insert (S idx) c2 (<[idx:=c']> cs)) in *.
      assert (aligned (bst h') lo hi ks' cs') as Hal' by by apply Hsplit.
      assert (flat_map leaves cs'
              = (L ++ pre) ++ l :: (if split then [length h] else []) ++ post ++ Rr)
        as Hleaves'.
      { unfold cs'. rewrite (leaves_split_child cs idx c) by done.
        unfold result_leaves in Hresl. rewrite Hresl. fold L Rr.
        solve_app. }
      destruct (is_full order ks') eqn:Hfull.
      * unfold InternalNode_split in Hunfold.
        set (mid := (length ks' / 2)%nat) in *.
        assert (mid < length ks')%nat as Hmid.
        { apply Nat.div_lt; [|lia]. unfold ks'. rewrite length_py_list_insert. lia. }
        destruct (lookup_lt_is_Some_2 _ _ Hmid) as [m Hm].
        unfold py_get in Hunfold. rewrite Hm in Hunfold. simpl in Hunfold.
        destruct (aligned_split _ _ _ _ _ _ _ Hal' Hm) as (Hleft & Hright & Hlom & Hhim).
        eexists h', _, _, l, split, (L ++ pre), (post ++ Rr).
        split_and!; [exact Hunfold|done|done| | |done|done].
        -- unfold result_leaves. rewrite !leaves_Internal, <-flat_map_app, take_drop.
           rewrite Hleaves'. solve_app.
        -- split_and!; [by apply bst_internal..|done|done].
      * eexists h', _, _, l, split, (L ++ pre), (post ++ Rr).
        split_and!; [exact Hunfold|done|done| | |done|done].
        -- unfold result_leaves. rewrite leaves_Internal, app_nil_r, Hleaves'.
           solve_app.
        -- by apply bst_internal.
    + eexists h', _, _, l, split, (L ++ pre), (post ++ Rr).
      split_and!; [exact Hunfold|done|done| | |done|done].
      * unfold result_leaves in *. rewrite leaves_Internal, app_nil_r.
        rewrite (leaves_put_child cs idx c) by done. rewrite app_nil_r in Hresl.
        rewrite Hresl. fold L Rr. solve_app.
      * apply bst_internal. by apply Hput.
Qed.
End insert_facts.

(** *** Searching *)

Section search_facts.
Context {V : Type}.
Implicit Types (h : list (LeafNode V)) (lf : LeafNode V) (l : loc) (n c : Node)
  (ks : list Z) (vs : list V) (cs : list Node) (key : Z) (value : V)
  (m : list (Z * V)).

Lemma alookup_app key m1 m2 :
  alookup key (m1 ++ m2)
  = match alookup key m1 with Some v => Some v | None => alookup key m2 end.
Proof.
  induction m1 as [|[k v] m1 IH]; simpl; [done|]. by destruct (decide (k = key)).
Qed.

Lemma alookup_None key m : Forall (λ kv, kv.1 ≠ key) m → alookup key m = None.
Proof.
  induction 1 as [|[k v] m Hk _ IH]; simpl in *; [done|].
  by rewrite decide_False.
Qed.

Lemma entries_Forall (P : Z → Prop) lf :
  Forall P (keys lf) → Forall (λ kv, P kv.1) (entries lf).
Proof.
  intros HP. apply Forall_forall. intros [k v] Hkv. simpl.
  rewrite Forall_forall in HP. apply HP.
  unfold entries in Hkv. by apply elem_of_zip_l in Hkv.
Qed.

Lemma leaves_entries_Forall (P : Z → Prop) h (ls : list loc) :
  Forall (λ l, ∀ lf, h !! l = Some lf → Forall P (keys lf)) ls →
  Forall (λ kv, P kv.1) (flat_map (leaf_entries h) ls).
Proof.
  intros Hls. apply Forall_flat_map. eapply Forall_impl; [exact Hls|].
  intros l Hl. unfold leaf_entries. simpl in *.
  destruct (h !! l) as [lf|]; [|constructor]. apply entries_Forall. by apply Hl.
Qed.

Lemma list_index_alookup ks vs key :
  length ks = length vs →
  match list_index key ks with
  | None => Ok None
  | Some idx => v ← py_get vs idx; Ok (Some v)
  end = Ok (alookup key (zip ks vs)).
Proof.
  revert vs. induction ks as [|k ks IH]; intros [|v vs] Hlen; simplify_eq/=; [done|].
  destruct (decide (k = key)); [done|].
  specialize (IH vs Hlen). destruct (list_index key ks) as [idx|]; simpl in *; done.
Qed.

Lemma contents_Leaf h l lf : h !! l = Some lf → contents h (Leaf l) = entries lf.
Proof.
  intros Hl. unfold contents, leaf_entries. simpl. by rewrite Hl, app_nil_r.
Qed.

(** [search] returns what the entries below the node hold for the key. *)
Lemma Node_search_spec n : ∀ h lo hi key,
  bst h lo hi n → in_range lo hi key →
  Node_search n key h = Ok (alookup key (contents h n)).
Proof.
  induction n as [l|ks cs IH] using Node_ind; intros h lo hi key Hbst Hkey.
  - apply bst_leaf_inv in Hbst as (lf & Hl & Hlen & _).
    rewrite (contents_Leaf h l lf Hl). simpl.
    unfold LeafNode_search, read_leaf. rewrite Hl. simpl.
    by apply list_index_alookup.
  - apply bst_internal_inv in Hbst.
    destruct (aligned_route _ _ _ _ _ key Hbst Hkey)
      as (c & lo' & hi' & Hc & Hbstc & Hkey' & Hbefore & Hafter & _).
    rewrite Node_search_Internal, Hc.
    assert (c ∈ cs) as Hcin by by eapply list_elem_of_lookup_2.
    rewrite Forall_forall in IH. rewrite (IH c Hcin h lo' hi' key Hbstc Hkey').
    f_equal. unfold contents. rewrite leaves_Internal.
    set (idx := find_child_index ks key) in *.
    assert (alookup key (flat_map (leaf_entries h) (flat_map leaves (take idx cs)))
            = None) as Hleft.
    { apply alookup_None.
      apply (leaves_entries_Forall (λ k, k ≠ key)), Forall_forall.
      intros l0 (c0 & Hc0 & Hl0)%elem_of_flat_map lf0 Hlf0.
      rewrite Forall_forall in Hbefore.
      destruct (Hbefore c0 Hc0) as (a & b & Hb & Hle).
      eapply Forall_impl; [by eapply (bst_keys_range h c0 a b)|].
      intros k Hk. simpl. bounds. }
    assert (alookup key (flat_map (leaf_entries h)
                           (flat_map leaves (drop (S idx) cs))) = None) as Hright.
    { apply alookup_None.
      apply (leaves_entries_Forall (λ k, k ≠ key)), Forall_forall.
      intros l0 (c0 & Hc0 & Hl0)%elem_of_flat_map lf0 Hlf0.
      rewrite Forall_forall in Hafter.
      destruct (Hafter c0 Hc0) as (a & b & Hb & Hlt).
      eapply Forall_impl; [by eapply (bst_keys_range h c0 a b)|].
      intros k Hk. simpl. bounds. }
    rewrite <-(take_drop_middle cs idx c Hc) at 1.
    rewrite flat_map_app. simpl. rewrite !flat_map_app, !alookup_app.
    rewrite Hleft, Hright.
    by destruct (alookup key (flat_map (leaf_entries h) (leaves c))).
Qed.
End search_facts.

(** *** The whole tree *)

Section tree_facts.
Context {V : Type}.
Implicit Types (h : list (LeafNode V)) (lf : LeafNode V) (l : loc) (n c : Node)
  (ls pre post : list loc) (key : Z) (value : V) (t : BPlusTree V).

Definition tree_contents t : list (Z * V) := contents (leaf_heap t) (tree_root t).

Lemma flat_map_middle {A B} (f : A → list B) (xs : list A) (x : A) (ys zs : list A) :
  flat_map f (xs ++ x :: ys ++ zs)
  = flat_map f xs ++ (f x ++ flat_map f ys) ++ flat_map f zs.
Proof. rewrite flat_map_app. simpl. rewrite flat_map_app. solve_app. Qed.

Lemma chained_frame h h' ls nxt :
  (∀ l, l ∈ ls → h' !! l = h !! l) → chained h ls nxt → chained h' ls nxt.
Proof.
  induction ls as [|l ls IH]; simpl; [done|].
  intros Hframe (lf & Hl & Hnext & Hrest). exists lf. split_and!; [|done|].
  - rewrite Hframe; [done|left].
  - apply IH; [|done]. intros l' Hl'. apply Hframe. by right.
Qed.

Lemma chained_update h h' pre l post nxt key value split :
  chained h (pre ++ l :: post) nxt →
  NoDup (pre ++ l :: post) →
  Forall (λ l', (l' < length h)%nat) (pre ++ l :: post) →
  leaf_update h l key value h' split →
  chained h' (pre ++ l :: (if split then [length h] else []) ++ post) nxt.
Proof.
  intros Hch Hnd Hlt Hup. induction pre as [|p pre IH]; simpl in *.
  - destruct Hch as (lf0 & Hl0 & Hnext & Hrest).
    apply NoDup_cons in Hnd as [Hl Hnd]. apply Forall_cons in Hlt as [Hllt Hlt].
    assert (chained h' post nxt) as Hrest'.
    { eapply chained_frame; [|exact Hrest]. intros l' Hl'.
      eapply leaf_update_frame; [done|by intros ->|].
      rewrite Forall_forall in Hlt. by apply Hlt. }
    destruct Hup as [lf lf' Hlf Hnext' Hent|lf lf1 lf2 Hlf Hnext1 Hnext2 Hent];
      rewrite Hlf in Hl0; injection Hl0 as <-.
    + exists lf'. split_and!; [by apply list_lookup_insert_eq|simpl; congruence|done].
    + exists lf1. split_and!; [|done|].
      { rewrite lookup_app_l by by rewrite length_insert.
        by apply list_lookup_insert_eq. }
      exists lf2. split_and!; [|simpl; congruence|done].
      rewrite lookup_app_r by by rewrite length_insert.
      by rewrite length_insert, Nat.sub_diag.
  - destruct Hch as (lfp & Hp & Hnext & Hrest).
    apply NoDup_cons in Hnd as [Hpnot Hnd]. apply Forall_cons in Hlt as [Hplt Hlt].
    exists lfp. split_and!.
    + rewrite <-Hp. eapply leaf_update_frame; [done| |done].
      intros ->. apply Hpnot, elem_of_app. right. left.
    + rewrite Hnext. by destruct pre.
    + by apply IH.
Qed.

Lemma chain_entries_chained h ls : ∀ l (fuel : nat),
  chained h (l :: ls) None → (length (l :: ls) ≤ fuel)%nat →
  chain_entries fuel h l = Ok (flat_map (leaf_entries h) (l :: ls)).
Proof.
  induction ls as [|l' ls IH]; intros l fuel (lf & Hl & Hnext & Hrest) Hfuel;
    (destruct fuel as [|fuel]; [simpl in Hfuel; lia|]);
    simpl; unfold read_leaf, leaf_entries at 1; rewrite Hl; simpl; rewrite Hnext.
  - by rewrite app_nil_r.
  - rewrite (IH l' fuel Hrest) by (simpl in *; lia). done.
Qed.

Lemma leftmost_leaf_leaves h n : ∀ lo hi,
  bst h lo hi n → ∃ l ls, leaves n = l :: ls ∧ leftmost_leaf n = Ok l.
Proof.
  induction n as [l|ks cs IH] using Node_ind; intros lo hi Hbst.
  - by exists l, [].
  - apply bst_internal_inv in Hbst. destruct Hbst as [lo hi c Hc _|lo hi k ks c cs Hc _ _].
    + apply Forall_cons in IH as [IHc _].
      destruct (IHc _ _ Hc) as (l & ls & Hleaves & Hleft).
      exists l, ls. rewrite leaves_Internal. simpl. by rewrite app_nil_r.
    + apply Forall_cons in IH as [IHc _].
      destruct (IHc _ _ Hc) as (l & ls & Hleaves & Hleft).
      exists l, (ls ++ flat_map leaves cs). rewrite leaves_Internal. simpl.
      by rewrite Hleaves.
Qed.

Lemma BPlusTree_chain_spec t : tree_inv t → BPlusTree_chain t = Ok (tree_contents t).
Proof.
  intros (Hbst & Hnd & Hch & Hlen). unfold BPlusTree_chain, tree_contents, contents.
  destruct (leftmost_leaf_leaves _ _ _ _ Hbst) as (l & ls & Hleaves & Hleft).
  rewrite Hleft. simpl. rewrite Hleaves in *.
  apply chain_entries_chained; [done|lia].
Qed.

Lemma BPlusTree_search_spec t key :
  tree_inv t → BPlusTree_search t key = Ok (alookup key (tree_contents t)).
Proof.
  intros (Hbst & _). unfold BPlusTree_search.
  eapply Node_search_spec; [done|]. bounds.
Qed.

Lemma BPlusTree_new_inv order : tree_inv (BPlusTree_new (V:=V) order).
Proof.
  split_and!; simpl.
  - apply bst_leaf with (mkLeafNode [] [] None); [done|].
    split_and!; simpl; [done|constructor|constructor].
  - apply NoDup_singleton.
  - by exists (mkLeafNode [] [] None).
  - done.
Qed.

(** One [insert] on a tree: it succeeds, keeps the invariant, and adds the
    entry to the contents. *)
Lemma BPlusTree_insert_spec t key value :
  tree_inv t →
  ∃ t', BPlusTree_insert t key value = Ok t' ∧
        tree_inv t' ∧ order t' = order t ∧
        tree_contents t' = ainsert key value (tree_contents t).
Proof.
  intros (Hbst & Hnd & Hch & Hlen). destruct t as [order root h]. simpl in *.
  destruct (Node_insert_spec order root h NegInf PosInf key value Hbst
              ltac:(bounds) Hnd)
    as (h' & n' & r & l & split & pre & post
        & Hrun & Hleaves & Hup & Hresl & Hresb & Hpre & Hpost).
  unfold BPlusTree_insert. simpl. rewrite Hrun. simpl.
  set (root' := match r with
                | None => n'
                | Some (new_key, new_node) => Internal [new_key] [n'; new_node]
                end).
  exists (mkBPlusTree order root' h').
  assert (leaves root' = pre ++ l :: (if split then [length h] else []) ++ post)
    as Hleaves'.
  { rewrite <-Hresl. unfold root', result_leaves. destruct r as [[sep n2]|].
    - rewrite leaves_Internal. simpl. by rewrite app_nil_r.
    - by rewrite app_nil_r. }
  assert (bst h' NegInf PosInf root') as Hbst'.
  { unfold root'. destruct r as [[sep n2]|]; [|done].
    destruct Hresb as (Hb1 & Hb2 & Hlo & Hhi).
    apply bst_internal. constructor; [done..|]. by constructor. }
  assert (Forall (λ l', (l' < length h)%nat) (leaves root)) as Hlts.
  { apply Forall_forall. intros l' Hl'. by eapply bst_leaves_lt. }
  rewrite Hleaves in Hnd, Hch, Hlen, Hlts.
  assert (∀ l', l' ∈ pre ++ post → h' !! l' = h !! l') as Hframe.
  { intros l' Hl'. eapply leaf_update_frame; [done| |].
    - intros ->. apply NoDup_app in Hnd as (_ & Hdisj & Hnd).
      apply NoDup_cons in Hnd as [Hnot _].
      apply elem_of_app in Hl' as [Hl'|Hl']; [|done].
      apply (Hdisj l Hl'). left.
    - rewrite Forall_forall in Hlts. apply Hlts.
      apply elem_of_app in Hl' as [Hl'|Hl']; apply elem_of_app; [by left|].
      right. by right. }
  assert (Forall (λ kv : Z * V, kv.1 < key) (flat_map (leaf_entries h) pre) ∧
          Forall (λ kv : Z * V, key < kv.1) (flat_map (leaf_entries h) post))
    as [Hpre' Hpost'] by
    (split; [by apply (leaves_entries_Forall (λ k, k < key))
            |by apply (leaves_entries_Forall (λ k, key < k))]).
  split_and!; simpl.
  - destruct r as [[sep n2]|]; done.
  - split_and!; simpl; [done| | |].
    + rewrite Hleaves'. apply NoDup_app in Hnd as (Hndpre & Hdisj & Hnd).
      apply NoDup_cons in Hnd as [Hnot Hndpost].
      assert (length h ∉ pre ++ l :: post) as Hfresh.
      { intros Hin. rewrite Forall_forall in Hlts. specialize (Hlts _ Hin). lia. }
      apply NoDup_app. split_and!; [done| |].
      * intros x Hx [->|Hx']%elem_of_cons; [by apply (Hdisj l Hx); left|].
        destruct split; simpl in Hx'.
        -- apply elem_of_cons in Hx' as [->|Hx'].
           ++ apply Hfresh, elem_of_app. by left.
           ++ apply (Hdisj x Hx). by right.
        -- apply (Hdisj x Hx). by right.
      * apply NoDup_cons. split.
        -- destruct split; simpl; [|done].
           intros [->|Hx]%elem_of_cons; [|done].
           apply Hfresh, elem_of_app. right. left.
        -- destruct split; simpl; [|done]. apply NoDup_cons. split; [|done].
           intros Hin. apply Hfresh, elem_of_app. right. by right.
    + rewrite Hleaves'. by eapply chained_update.
    + rewrite Hleaves', (leaf_update_length _ _ _ _ _ _ Hup).
      rewrite length_app in Hlen. simpl in Hlen.
      destruct split; simpl; rewrite !length_app; simpl; lia.
  - done.
  - unfold tree_contents, contents. simpl. rewrite Hleaves', Hleaves.
    rewrite flat_map_middle. rewrite (flat_map_middle _ pre l [] post).
    simpl. rewrite app_nil_r.
    assert (∀ ls, (∀ l', l' ∈ ls → l' ∈ pre ++ post) →
                  flat_map (leaf_entries h') ls = flat_map (leaf_entries h) ls)
      as Hsame.
    { induction ls as [|l0 ls IHls]; intros Hsub; simpl; [done|].
      rewrite IHls by (intros l' Hl'; apply Hsub; by right).
      unfold leaf_entries at 1 3. rewrite Hframe; [done|]. apply Hsub. left. }
    rewrite (Hsame pre) by (intros l' Hl'; apply elem_of_app; by left).
    rewrite (Hsame post) by (intros l' Hl'; apply elem_of_app; by right).
    match goal with
    | |- _ ++ ?X ++ _ = _ =>
        assert (X = ainsert key value (leaf_entries h l)) as ->
    end.
    { assert (l < length h)%nat as Hllt.
      { rewrite Forall_forall in Hlts. apply Hlts, elem_of_app. right. left. }
      destruct Hup as [lf lf' Hlf Hnext' Hent|lf lf1 lf2 Hlf Hnext1 Hnext2 Hent];
        unfold leaf_entries; simpl; rewrite Hlf.
      - rewrite list_lookup_insert_eq by done. by rewrite app_nil_r.
      - rewrite lookup_app_l by by rewrite length_insert.
        rewrite list_lookup_insert_eq by done.
        rewrite lookup_app_r by by rewrite length_insert.
        rewrite length_insert, Nat.sub_diag. simpl. by rewrite app_nil_r. }
    rewrite ainsert_app_l by done. f_equal. by rewrite ainsert_app_r.
Qed.

Lemma BPlusTree_inserts_spec (ops : list (Z * V)) : ∀ t,
  tree_inv t →
  ∃ t', BPlusTree_inserts t ops = Ok t' ∧
        tree_inv t' ∧ order t' = order t ∧
        tree_contents t' = foldl (λ m kv, ainsert kv.1 kv.2 m) (tree_contents t) ops.
Proof.
  induction ops as [|[key value] ops IH]; intros t Hinv; simpl.
  - by exists t.
  - destruct (BPlusTree_insert_spec t key value Hinv) as (t1 & Hrun & Hinv1 & Hord & Hc).
    destruct (IH t1 Hinv1) as (t' & Hrun' & Hinv' & Hord' & Hc').
    exists t'. unfold BPlusTree_inserts in *. simpl. rewrite Hrun. simpl.
    split_and!; [done|done|congruence|]. by rewrite Hc', Hc.
Qed.

Lemma foldl_ainsert_keys (ops m : list (Z * V)) k :
  k ∈ map fst (foldl (λ m kv, ainsert kv.1 kv.2 m) m ops)
  ↔ k ∈ map fst m ∨ k ∈ map fst ops.
Proof.
  revert m. induction ops as [|[key value] ops IH]; intros m; simpl.
  - split; [by left|]. by intros [?|?%elem_of_nil].
  - rewrite IH, ainsert_keys, elem_of_cons. tauto.
Qed.

Lemma foldl_ainsert_sorted (ops m : list (Z * V)) :
  StronglySorted Z.lt (map fst m) →
  StronglySorted Z.lt (map fst (foldl (λ m kv, ainsert kv.1 kv.2 m) m ops)).
Proof.
  revert m. induction ops as [|[key value] ops IH]; intros m Hm; simpl; [done|].
  by apply IH, ainsert_sorted.
Qed.
End tree_facts.

Section store_theorems.
Context {V : Type}.
Implicit Types (ops : list (Z * V)) (key k : Z) (value v : V).

Lemma last_write_None k ops : k ∉ map fst ops → last_write k ops = None.
Proof.
  induction ops as [|[key value] ops IH]; simpl; [done|].
  intros [Hne Hnot]%not_elem_of_cons. rewrite IH by done. by rewrite decide_False.
Qed.

Lemma last_write_last k v ops1 ops2 :
  k ∉ map fst ops2 → last_write k (ops1 ++ (k, v) :: ops2) = Some v.
Proof.
  intros Hnot. induction ops1 as [|[key value] ops1 IH]; simpl.
  - rewrite last_write_None by done. by rewrite decide_True.
  - by rewrite IH.
Qed.

Lemma sorted_lt_NoDup (ks : list Z) : StronglySorted Z.lt ks → NoDup ks.
Proof.
  induction 1 as [|k ks _ IH Hk]; [apply NoDup_nil_2|].
  apply NoDup_cons. split; [|done]. intros Hin.
  rewrite Forall_forall in Hk. specialize (Hk k Hin). lia.
Qed.

(** What a tree built by a sequence of inserts holds. *)
Lemma BPlusTree_built order ops :
  ∃ t, BPlusTree_inserts (BPlusTree_new order) ops = Ok t ∧
       tree_inv t ∧
       (∀ k, BPlusTree_search t k = Ok (last_write k ops)) ∧
       BPlusTree_chain t = Ok (tree_contents t) ∧
       StronglySorted Z.lt (map fst (tree_contents t)) ∧
       ∀ k, k ∈ map fst (tree_contents t) ↔ k ∈ map fst ops.
Proof.
  destruct (BPlusTree_inserts_spec ops (BPlusTree_new order) (BPlusTree_new_inv order))
    as (t & Hrun & Hinv & _ & Hc).
  assert (tree_contents (BPlusTree_new (V:=V) order) = []) as Hnew by done.
  rewrite Hnew in Hc.
  exists t. split_and!; [done|done| | | |].
  - intros k. rewrite BPlusTree_search_spec, Hc, alookup_foldl_ainsert by done.
    simpl. by destruct (last_write k ops).
  - by apply BPlusTree_chain_spec.
  - rewrite Hc. apply foldl_ainsert_sorted. constructor.
  - intros k. rewrite Hc, foldl_ainsert_keys. simpl. split; [|by right].
    by intros [?%elem_of_nil|?].
Qed.

(** C1: after any sequence of [insert] calls on a new tree of any order,
    [search(k)] returns the value of the last insertion of [k], and [None]
    when [k] was never inserted; no call raises; and no key is stored
    twice. *)
Theorem BPlusTree_search_last_writer_wins (order : Z) ops :
  ∃ t, BPlusTree_inserts (BPlusTree_new order) ops = Ok t ∧
       (∀ k v ops1 ops2,
          ops = ops1 ++ (k, v) :: ops2 → k ∉ map fst ops2 →
          BPlusTree_search t k = Ok (Some v)) ∧
       (∀ k, k ∉ map fst ops → BPlusTree_search t k = Ok None) ∧
       ∃ stored, BPlusTree_chain t = Ok stored ∧ NoDup (map fst stored).
Proof.
  destruct (BPlusTree_built order ops) as (t & Hrun & _ & Hsearch & Hchain & Hsorted & _).
  exists t. split_and!; [done| | |].
  - intros k v ops1 ops2 -> Hnot. by rewrite Hsearch, last_write_last.
  - intros k Hnot. by rewrite Hsearch, last_write_None.
  - exists (tree_contents t). split; [done|]. by apply sorted_lt_NoDup.
Qed.

(** C6: after any sequence of [insert] calls, splits included, the keys of
    the leaves taken left to right are strictly ascending, and following
    [next_leaf] from the leftmost leaf ends and visits exactly these
    entries in this order: every inserted key once, in ascending order. *)
Theorem BPlusTree_leaf_chain_sorted (order : Z) ops :
  ∃ t stored,
    BPlusTree_inserts (BPlusTree_new order) ops = Ok t ∧
    BPlusTree_chain t = Ok stored ∧
    stored = contents (leaf_heap t) (tree_root t) ∧
    StronglySorted Z.lt (map fst stored) ∧
    ∀ k, k ∈ map fst stored ↔ k ∈ map fst ops.
Proof.
  destruct (BPlusTree_built order ops) as (t & Hrun & _ & _ & Hchain & Hsorted & Hkeys).
  by exists t, (tree_contents t).
Qed.
End store_theorems.

(** *** Key counts and the order bound *)

(** Every node below [n] holds fewer than [order] keys. *)
#[local] Unset Elimination Schemes.
Inductive node_bounded {V} (h : list (LeafNode V)) (order : Z) : Node → Prop :=
| node_bounded_leaf l lf :
    h !! l = Some lf → Z.of_nat (length (keys lf)) < order →
    node_bounded h order (Leaf l)
| node_bounded_internal ks cs :
    Z.of_nat (length ks) < order → Forall (node_bounded h order) cs →
    node_bounded h order (Internal ks cs).
#[local] Set Elimination Schemes.

Section order_facts.
Context {V : Type}.
Implicit Types (h : list (LeafNode V)) (lf : LeafNode V) (l : loc) (n c : Node)
  (ks : list Z) (cs : list Node) (key : Z) (value : V) (order : Z).

Lemma node_bounded_leaf_inv h order l :
  node_bounded h order (Leaf l) →
  ∃ lf, h !! l = Some lf ∧ Z.of_nat (length (keys lf)) < order.
Proof. inversion 1; eauto. Qed.

Lemma node_bounded_internal_inv h order ks cs :
  node_bounded h order (Internal ks cs) →
  Z.of_nat (length ks) < order ∧ Forall (node_bounded h order) cs.
Proof. by inversion 1. Qed.

Lemma node_bounded_frame h h' order n :
  node_bounded h order n → (∀ l, l ∈ leaves n → h' !! l = h !! l) →
  node_bounded h' order n.
Proof.
  induction n as [l|ks cs IH] using Node_ind; intros Hb Hframe.
  - apply node_bounded_leaf_inv in Hb as (lf & Hl & Hlen).
    apply node_bounded_leaf with lf; [|done]. rewrite Hframe; [done|]. simpl. left.
  - apply node_bounded_internal_inv in Hb as [Hlen Hcs].
    apply node_bounded_internal; [done|].
    rewrite Forall_forall in IH. rewrite Forall_forall in Hcs.
    apply Forall_forall. intros c Hc. apply IH; [done|by apply Hcs|].
    intros l Hl. apply Hframe. rewrite leaves_Internal.
    apply elem_of_flat_map. by exists c.
Qed.

(** A change at a leaf of one child is not seen by the other children. *)
Lemma sibling_frame cs (idx : nat) c l h h' key value split :
  cs !! idx = Some c → NoDup (flat_map leaves cs) → l ∈ leaves c →
  leaf_update h l key value h' split →
  ∀ c0 a b, c0 ∈ take idx cs ++ drop (S idx) cs → bst h a b c0 →
            ∀ l0, l0 ∈ leaves c0 → h' !! l0 = h !! l0.
Proof.
  intros Hc Hnd Hl Hup c0 a b Hc0 Hb l0 Hl0.
  eapply leaf_update_frame; [done| |by eapply bst_leaves_lt].
  intros ->. rewrite <-(take_drop_middle cs idx c Hc), flat_map_app in Hnd.
  simpl in Hnd. apply NoDup_app in Hnd as (_ & Hdisj1 & Hnd).
  apply NoDup_app in Hnd as (_ & Hdisj2 & _).
  apply elem_of_app in Hc0 as [Hc0|Hc0].
  - apply (Hdisj1 l); [apply elem_of_flat_map; eauto|]. apply elem_of_app. by left.
  - apply (Hdisj2 l); [done|]. apply elem_of_flat_map; eauto.
Qed.

Lemma half_lt (n : nat) : (0 < n)%nat → (n / 2 < n)%nat.
Proof. intros. apply Nat.div_lt; lia. Qed.

Lemma half_pos (n : nat) : (2 ≤ n)%nat → (0 < n / 2)%nat.
Proof. intros. apply Nat.div_str_pos. lia. Qed.

Lemma is_full_true order ks : is_full order ks = true ↔ order ≤ Z.of_nat (length ks).
Proof. unfold is_full. apply Z.leb_le. Qed.

Lemma is_full_false order ks : is_full order ks = false ↔ Z.of_nat (length ks) < order.
Proof. unfold is_full. apply Z.leb_gt. Qed.

Lemma LeafNode_insert_bounded order h l lf key value h' r :
  2 ≤ order → h !! l = Some lf → Z.of_nat (length (keys lf)) < order →
  LeafNode_insert order h l key value = Ok (h', r) →
  node_bounded h' order (Leaf l) ∧
  match r with Some (_, n2) => node_bounded h' order n2 | None => True end.
Proof.
  intros Horder Hl Hlen. assert (l < length h)%nat as Hlt by by eapply lookup_lt_Some.
  unfold LeafNode_insert, read_leaf. rewrite Hl. simpl.
  set (pos := insert_pos (keys lf) key). case_bool_decide as Hpos.
  - destruct (py_get (values lf) pos); simpl; [|done]. intros [= <- <-].
    split; [|done]. eapply node_bounded_leaf; [by apply list_lookup_insert_eq|done].
  - set (ks := py_list_insert pos key (keys lf)).
    assert (length ks = S (length (keys lf))) as Hks by apply length_py_list_insert.
    destruct (is_full order ks) eqn:Hfull.
    + apply is_full_true in Hfull. unfold LeafNode_split. simpl.
      destruct (py_get (drop (length ks / 2) ks) 0); simpl; [|done].
      intros [= <- <-].
      assert (length ks / 2 < length ks)%nat by (apply half_lt; lia).
      assert (0 < length ks / 2)%nat by (apply half_pos; lia).
      split.
      * eapply node_bounded_leaf.
        { rewrite lookup_app_l by (by rewrite length_insert).
          by apply list_lookup_insert_eq. }
        simpl. rewrite length_take. lia.
      * eapply node_bounded_leaf.
        { rewrite lookup_app_r by (by rewrite length_insert).
          by rewrite length_insert, Nat.sub_diag. }
        simpl. rewrite length_drop. lia.
    + apply is_full_false in Hfull. intros [= <- <-]. split; [|done].
      eapply node_bounded_leaf; [by apply list_lookup_insert_eq|done].
Qed.

Lemma InternalNode_add_child_bounded order h ks cs (idx : nat) new_key new_child n' r :
  1 ≤ order → Z.of_nat (length ks) < order →
  Forall (node_bounded h order) cs → node_bounded h order new_child →
  InternalNode_add_child order ks cs idx new_key new_child = Ok (n', r) →
  node_bounded h order n' ∧
  match r with Some (_, n2) => node_bounded h order n2 | None => True end.
Proof.
  intros Horder Hlen Hcs Hnew. unfold InternalNode_add_child.
  set (ks' := py_list_insert idx new_key ks).
  set (cs' := py_list_insert (S idx) new_child cs).
  assert (length ks' = S (length ks)) as Hks by apply length_py_list_insert.
  assert (Forall (node_bounded h order) cs') as Hcs'.
  { unfold cs', py_list_insert. apply Forall_app. split; [by apply Forall_take|].
    constructor; [done|by apply Forall_drop]. }
  destruct (is_full order ks') eqn:Hfull.
  - apply is_full_true in Hfull. unfold InternalNode_split.
    destruct (py_get ks' (length ks' / 2)); simpl; [|done]. intros [= <- <-].
    assert (length ks' / 2 < length ks')%nat by (apply half_lt; lia).
    split; apply node_bounded_internal.
    + rewrite length_take. lia.
    + by apply Forall_take.
    + rewrite length_drop. lia.
    + by apply Forall_drop.
  - apply is_full_false in Hfull. intros [= <- <-]. split; [|done].
    by apply node_bounded_internal.
Qed.

Lemma Node_insert_bounded order n : 2 ≤ order → ∀ h lo hi key value h' n' r,
  bst h lo hi n → in_range lo hi key → NoDup (leaves n) →
  node_bounded h order n →
  Node_insert order n key value h = Ok (h', n', r) →
  node_bounded h' order n' ∧
  match r with Some (_, n2) => node_bounded h' order n2 | None => True end.
Proof.
  intros Horder. induction n as [l|ks cs IH] using Node_ind;
    intros h lo hi key value h' n' r Hbst Hkey Hnd Hb Hrun.
  - apply node_bounded_leaf_inv in Hb as (lf & Hl & Hlen). simpl in Hrun.
    destruct (LeafNode_insert order h l key value) as [[h1 r1]|] eqn:Hleaf;
      simpl in Hrun; [|done].
    injection Hrun as <- <- <-. by eapply LeafNode_insert_bounded.
  - apply bst_internal_inv in Hbst.
    apply node_bounded_internal_inv in Hb as [Hlen Hcs].
    destruct (aligned_route _ _ _ _ _ key Hbst Hkey)
      as (c & lo' & hi' & Hc & Hbstc & Hkey' & _).
    rewrite Node_insert_Internal in Hrun. cbv zeta in Hrun.
    set (idx := find_child_index ks key) in *.
    rewrite leaves_Internal in Hnd.
    assert (c ∈ cs) as Hcin by by eapply list_elem_of_lookup_2.
    assert (NoDup (leaves c)) as Hndc.
    { rewrite <-(take_drop_middle cs idx c Hc), flat_map_app in Hnd. simpl in Hnd.
      apply NoDup_app in Hnd as (_ & _ & Hnd). by apply NoDup_app in Hnd as (? & _). }
    destruct (Node_insert_spec order c h lo' hi' key value Hbstc Hkey' Hndc)
      as (h1 & c' & rc & l & split & pre & post & Hrunc & Hlc & Hup & _).
    rewrite Hc, Hrunc in Hrun. simpl in Hrun.
    rewrite Forall_forall in IH. rewrite Forall_forall in Hcs.
    destruct (IH c Hcin h lo' hi' key value h1 c' rc Hbstc Hkey' Hndc
                (Hcs c Hcin) Hrunc) as [Hbc' Hbrc].
    assert (l ∈ leaves c) as Hlin.
    { rewrite Hlc. apply elem_of_app. right. left. }
    assert (Forall (node_bounded h1 order) (<[idx := c']> cs)) as Hcs1.
    { rewrite insert_take_drop by by eapply lookup_lt_Some.
      pose proof (aligned_children _ _ _ _ _ Hbst) as Hch.
      rewrite Forall_forall in Hch.
      assert (∀ c0, c0 ∈ take idx cs ++ drop (S idx) cs → node_bounded h1 order c0)
        as Hsib.
      { intros c0 Hc0.
        assert (c0 ∈ cs) as Hc0in.
        { rewrite <-(take_drop_middle cs idx c Hc).
          apply elem_of_app in Hc0 as [?|?]; apply elem_of_app; [by left|].
          right. by right. }
        destruct (Hch c0 Hc0in) as (a & b & Hbc0 & _).
        apply (node_bounded_frame h); [by apply Hcs|].
        by eapply (sibling_frame cs idx c l h h1). }
      apply Forall_app. split; [|constructor; [done|]]; apply Forall_forall;
        intros c0 Hc0; apply Hsib, elem_of_app; [by left|by right]. }
    destruct rc as [[sep c2]|].
    + destruct (InternalNode_add_child order ks (<[idx:=c']> cs) idx sep c2)
        as [[n1 r1]|] eqn:Hadd; simpl in Hrun; [|done].
      injection Hrun as <- <- <-.
      eapply InternalNode_add_child_bounded; [lia|done|done|done|done].
    + injection Hrun as <- <- <-. split; [|done].
      by apply node_bounded_internal.
Qed.
End order_facts.

Section order_theorems.
Context {V : Type}.
Implicit Types (h : list (LeafNode V)) (lf : LeafNode V) (l : loc) (n c : Node)
  (ks : list Z) (cs : list Node) (key : Z) (value : V) (order : Z)
  (t : BPlusTree V).

Lemma insert_pos_found ks key :
  StronglySorted Z.lt ks → (ks !! insert_pos ks key = Some key ↔ key ∈ ks).
Proof.
  induction 1 as [|k ks Hs IH Hk]; simpl.
  - split; [done|by intros ?%elem_of_nil].
  - destruct (Z.ltb_spec k key) as [Hlt|Hge]; simpl.
    + rewrite IH, elem_of_cons. split; [by right|]. intros [->|?]; [lia|done].
    + rewrite elem_of_cons. split; [intros [= ->]; by left|].
      intros [->|Hin]; [done|]. rewrite Forall_forall in Hk.
      specialize (Hk key Hin). lia.
Qed.

(** A leaf splits exactly when the insertion of a new key brings its key
    count to [order]. *)
Lemma LeafNode_insert_splits order h l lf key value :
  h !! l = Some lf → length (keys lf) = length (values lf) →
  StronglySorted Z.lt (keys lf) →
  ∃ h' r, LeafNode_insert order h l key value = Ok (h', r) ∧
          (is_Some r ↔ (key ∉ keys lf) ∧ order ≤ Z.of_nat (length (keys lf)) + 1).
Proof.
  intros Hl Hlen Hsorted. unfold LeafNode_insert, read_leaf. rewrite Hl. simpl.
  pose proof (insert_pos_found (keys lf) key Hsorted) as Hfound.
  set (pos := insert_pos (keys lf) key) in *. case_bool_decide as Hpos.
  - assert (pos < length (values lf))%nat as Hposlt.
    { rewrite <-Hlen. by eapply lookup_lt_Some. }
    destruct (lookup_lt_is_Some_2 _ _ Hposlt) as [v Hv].
    unfold py_get. rewrite Hv. simpl. eexists _, None. split; [done|].
    split; [by intros [? ?]|]. intros [Hnot _]. destruct Hnot. by apply Hfound.
  - set (ks := py_list_insert pos key (keys lf)).
    assert (length ks = S (length (keys lf))) as Hks by apply length_py_list_insert.
    assert (key ∉ keys lf) as Hnot by (intros Hin; by apply Hpos, Hfound).
    destruct (is_full order ks) eqn:Hfull.
    + apply is_full_true in Hfull. unfold LeafNode_split. simpl. fold ks.
      assert (length ks / 2 < length ks)%nat as Hmid by (apply half_lt; lia).
      destruct (lookup_lt_is_Some_2 _ _ Hmid) as [sep Hsep].
      unfold py_get. rewrite lookup_drop, Nat.add_0_r, Hsep. simpl.
      eexists _, (Some _). split; [done|]. split; [|done]. intros _. split; [done|lia].
    + apply is_full_false in Hfull. eexists _, None. split; [done|].
      split; [by intros [? ?]|]. intros [_ Hle]. lia.
Qed.

(** An internal node whose child has split splits exactly when the new
    separator brings its key count to [order]. *)
Lemma InternalNode_add_child_splits order ks cs (idx : nat) new_key new_child :
  ∃ n' r, InternalNode_add_child order ks cs idx new_key new_child = Ok (n', r) ∧
          (is_Some r ↔ order ≤ Z.of_nat (length ks) + 1).
Proof.
  unfold InternalNode_add_child.
  set (ks' := py_list_insert idx new_key ks).
  assert (length ks' = S (length ks)) as Hks by apply length_py_list_insert.
  destruct (is_full order ks') eqn:Hfull.
  - apply is_full_true in Hfull. unfold InternalNode_split.
    assert (length ks' / 2 < length ks')%nat as Hmid by (apply half_lt; lia).
    destruct (lookup_lt_is_Some_2 _ _ Hmid) as [m Hm].
    unfold py_get. rewrite Hm. simpl. eexists _, (Some _). split; [done|].
    split; [lia|done].
  - apply is_full_false in Hfull. eexists _, None. split; [done|].
    split; [by intros [? ?]|lia].
Qed.

Lemma BPlusTree_insert_bounded t key value t' :
  2 ≤ order t → tree_inv t →
  node_bounded (leaf_heap t) (order t) (tree_root t) →
  BPlusTree_insert t key value = Ok t' →
  node_bounded (leaf_heap t') (order t') (tree_root t').
Proof.
  intros Horder (Hbst & Hnd & _) Hb. unfold BPlusTree_insert.
  destruct (Node_insert (order t) (tree_root t) key value (leaf_heap t))
    as [[[h' n'] r]|] eqn:Hrun; simpl; [|done].
  destruct (Node_insert_bounded (order t) (tree_root t) Horder _ NegInf PosInf
              _ _ _ _ _ Hbst ltac:(bounds) Hnd Hb Hrun) as [Hn' Hr].
  destruct r as [[sep n2]|]; intros [= <-]; simpl; [|done].
  apply node_bounded_internal; [simpl; lia|]. by repeat constructor.
Qed.

Lemma BPlusTree_inserts_bounded (ops : list (Z * V)) : ∀ t,
  2 ≤ order t → tree_inv t →
  node_bounded (leaf_heap t) (order t) (tree_root t) →
  ∃ t', BPlusTree_inserts t ops = Ok t' ∧
        node_bounded (leaf_heap t') (order t') (tree_root t').
Proof.
  induction ops as [|[key value] ops IH]; intros t Horder Hinv Hb.
  - by exists t.
  - destruct (BPlusTree_insert_spec t key value Hinv) as (t1 & Hrun & Hinv1 & Hord & _).
    pose proof (BPlusTree_insert_bounded t key value t1 Horder Hinv Hb Hrun) as Hb1.
    destruct (IH t1 ltac:(lia) Hinv1 Hb1) as (t' & Hrun' & Hb').
    exists t'. unfold BPlusTree_inserts in *. simpl. rewrite Hrun. simpl.
    split; [done|]. done.
Qed.

(** C5, as the code has it: a node is split exactly when an insertion
    brings its key count to [order] ([is_full] is [len(keys) >= order],
    tested after the key is in), for leaves and internal nodes alike; so
    after every insert completes every node holds at most [order - 1]
    keys. *)
Theorem BPlusTree_split_when_order_reached order :
  2 ≤ order →
  (∀ h l lf key value,
     h !! l = Some lf → length (keys lf) = length (values lf) →
     StronglySorted Z.lt (keys lf) →
     ∃ h' r, LeafNode_insert order h l key value = Ok (h', r) ∧
             (is_Some r ↔ (key ∉ keys lf) ∧ order ≤ Z.of_nat (length (keys lf)) + 1)) ∧
  (∀ ks cs (idx : nat) new_key new_child,
     ∃ n' r, InternalNode_add_child order ks cs idx new_key new_child = Ok (n', r) ∧
             (is_Some r ↔ order ≤ Z.of_nat (length ks) + 1)) ∧
  (∀ ops : list (Z * V),
     ∃ t, BPlusTree_inserts (BPlusTree_new order) ops = Ok t ∧
          node_bounded (leaf_heap t) order (tree_root t)).
Proof.
  intros Horder. split_and!.
  - intros. by apply LeafNode_insert_splits.
  - intros. apply InternalNode_add_child_splits.
  - intros ops.
    destruct (BPlusTree_inserts_bounded ops (BPlusTree_new order) Horder
                (BPlusTree_new_inv order)) as (t & Hrun & Hb).
    { eapply node_bounded_leaf; [done|]. simpl. lia. }
    exists t. split; [done|].
    destruct (BPlusTree_inserts_spec ops (BPlusTree_new order)
                (BPlusTree_new_inv order)) as (t2 & Hrun2 & _ & Hord & _).
    rewrite Hrun in Hrun2. injection Hrun2 as <-. simpl in Hord.
    by rewrite Hord in Hb.
Qed.
End order_theorems.

Lemma BPlusTree_split_when_order_reached_witness :
  ∃ t, BPlusTree_inserts (BPlusTree_new 4) [(1, 10); (2, 20); (3, 30); (4, 40)] = Ok t ∧
       node_bounded (leaf_heap t) 4 (tree_root t).
Proof.
  destruct (BPlusTree_split_when_order_reached (V:=Z) 4 ltac:(lia)) as (_ & _ & H).
  apply H.
Defined.

(** C5 as the specification words it: a split happens only when the key
    count would exceed [order]. *)
Definition split_only_beyond_order : Prop :=
  ∀ (order : Z) (h : list (LeafNode Z)) (l : loc) (lf : LeafNode Z) (key value : Z)
    h' r,
    h !! l = Some lf →
    LeafNode_insert order h l key value = Ok (h', Some r) →
    order < Z.of_nat (length (keys lf)) + 1.

(** With [order = 4], the fourth key splits the leaf: the count reaches
    4, it does not exceed it, and no leaf is left holding 4 keys. *)
Lemma split_only_beyond_order_fails : ¬ split_only_beyond_order.
Proof.
  intros Hclaim.
  specialize (Hclaim 4 [mkLeafNode [1; 2; 3] [10; 20; 30] None] 0%nat
                (mkLeafNode [1; 2; 3] [10; 20; 30] None) 4 40
                [mkLeafNode [1; 2] [10; 20] (Some 1%nat);
                 mkLeafNode [3; 4] [30; 40] None]
                (3, Leaf 1) eq_refl eq_refl).
  simpl in Hclaim. lia.
Qed.

(** A run of the store-passing sort on three scores. *)
Lemma sorting_leaves_input_unchanged_witness :
  let scored : Scored Q := λ q, q in
  let s : list (list Q) := [[1 # 2; 3 # 4; 1 # 4]%Q] in
  (∃ r s', merge_sort_st 5 0%nat s = Ok (r, s') ∧
           s' !! 0%nat = Some [1 # 2; 3 # 4; 1 # 4]%Q ∧
           (∀ l ys, s !! l = Some ys → s' !! l = Some ys) ∧
           s' !! r = Some (merge_sort [1 # 2; 3 # 4; 1 # 4]%Q)) ∧
  (∃ r s', sort_results_st 5 0%nat s = Ok (r, s') ∧
           s' !! 0%nat = Some [1 # 2; 3 # 4; 1 # 4]%Q ∧
           (∀ l ys, s !! l = Some ys → s' !! l = Some ys) ∧
           s' !! r = Some (sort_results [1 # 2; 3 # 4; 1 # 4]%Q)).
Proof.
  intros scored s.
  apply (sorting_leaves_input_unchanged (H:=scored) 5 0%nat [1 # 2; 3 # 4; 1 # 4]%Q s).
  - reflexivity.
  - simpl. lia.
Defined.

(** ** engine.py *)

(** Three documents and the engine built from them (ASCII text, and a
    source of draws that always gives 0). *)
Definition three_documents : list Document :=
  [mkDocument (py "data/a.txt") (py "Tries") (py "https://cs.example.com/a")
     (py "tries are trees");
   mkDocument (py "data/b.txt") (py "Trees") (py "https://cs.example.com/b")
     (py "trees are graphs");
   mkDocument (py "data/c.txt") (py "Graphs") (py "https://cs.example.com/c")
     (py "graphs are fun")].

Definition three_documents_engine : exn SearchEngine :=
  SearchEngine_init ascii_lower ascii_findall_words [] three_documents.

Example search_trees :
  (e ← three_documents_engine;
   results ← SearchEngine_search ascii_lower ascii_strip ascii_findall_words e
               (py "  Trees?");
   Ok (map (λ r, (doc_id r, Qred (score r), Qred (term_frequency r),
                  Qred (authority_score r))) results))
  = Ok [(1, (2 # 3)%Q, (1 # 3)%Q, (1 # 3)%Q); (2, (2 # 3)%Q, (1 # 3)%Q, (1 # 3)%Q)].
Proof. vm_compute. reflexivity. Qed.

Example search_zebra :
  (e ← three_documents_engine;
   SearchEngine_search ascii_lower ascii_strip ascii_findall_words e (py "zebra"))
  = Ok [].
Proof. vm_compute. reflexivity. Qed.

Example autocomplete_tr_engine :
  (e ← three_documents_engine;
   Ok (SearchEngine_autocomplete ascii_lower ascii_strip e (py " tr ")))
  = Ok [py "trees"; py "tries"].
Proof. vm_compute. reflexivity. Qed.

Section search_scoring.
Variables (lower strip : pystr → pystr) (re_findall_words : pystr → list pystr).
Implicit Types (e : SearchEngine) (r : SearchResult) (results : list SearchResult).

Abbreviation search := (SearchEngine_search lower strip re_findall_words).
Abbreviation tokenize := (SearchEngine_tokenize lower re_findall_words).

(** What [search] reports for a document: the three numbers of the
    scoring formula. *)
Definition scored_as e (search_term : pystr) r : Prop :=
  result_score r = (term_frequency r + authority_score r)%Q ∧
  term_frequency r
  = match dict_get (doc_id r) (doc_term_frequency e) with
    | None => 0%Q
    | Some table =>
        let occurrences := default 0%Z (dict_get (lower search_term) table) in
        let total_tokens := foldr Z.add 0%Z (map snd table) in
        if (0 <? total_tokens)%Z
        then (inject_Z occurrences / inject_Z total_tokens)%Q
        else 0%Q
    end ∧
  authority_score r = default 0%Q (dict_get (doc_id r) (pagerank_scores (graph e))).

Lemma score_document_step e search_term acc d acc' :
  score_document lower strip e search_term acc d = Ok acc' →
  acc' = acc ∨ ∃ r, acc' = acc ++ [r] ∧ doc_id r = d ∧ scored_as e search_term r.
Proof using Type.
  unfold score_document.
  destruct (BPlusTree_search (b_plus_tree e) d) as [[md|]|]; simpl; [| |done].
  - intros [= <-]. right. eexists. split; [done|]. by split_and!.
  - intros [= <-]. by left.
Qed.

Lemma score_document_scored e search_term docs : ∀ acc results,
  for_each (score_document lower strip e search_term) docs acc = Ok results →
  ∀ r, r ∈ results → r ∈ acc ∨ (doc_id r ∈ docs ∧ scored_as e search_term r).
Proof using Type.
  induction docs as [|d docs IH]; intros acc results; simpl.
  - intros [= <-] r Hr. by left.
  - destruct (score_document lower strip e search_term acc d) as [acc'|] eqn:Hstep;
      simpl; [|done].
    intros Hrun r Hr. destruct (IH _ _ Hrun r Hr) as [Hacc|[Hd Hs]].
    + destruct (score_document_step _ _ _ _ _ Hstep) as [->|(r' & -> & <- & Hs)];
        [by left|].
      apply elem_of_app in Hacc as [Hacc| ->%list_elem_of_singleton]; [by left|].
      right. split; [left|done].
    + right. split; [by right|done].
Qed.

Lemma elem_of_sort_results results r : r ∈ sort_results results → r ∈ results.
Proof.
  destruct results as [|r0 results]; [done|]. unfold sort_results.
  pose proof (merge_sort_spec (r0 :: results)) as (Hperm & _).
  by rewrite Hperm.
Qed.

(** C9: every result of [search(query)] carries
    [score = term_frequency + authority_score], where [term_frequency] is
    the count of the search term in the document's frequency table over
    the sum of the table's counts (0 when that sum is 0, or when the
    document has no table) and [authority_score] is the score the graph
    stores for the document (0 when it stores none).  The search term is
    the first token of the query. *)
Theorem search_score_formula e (query : pystr) results r :
  search e query = Ok results → r ∈ results →
  ∃ first_term rest,
    tokenize query = first_term :: rest ∧
    doc_id r ∈ default [] (dict_get (lower first_term) (inverted_index e)) ∧
    scored_as e (lower first_term) r.
Proof using Type.
  unfold SearchEngine_search.
  destruct (bool_decide (query = []) || bool_decide (strip query = []));
    [by intros [= <-] ?%elem_of_nil|].
  destruct (SearchEngine_tokenize lower re_findall_words query)
    as [|first_term rest]; [by intros [= <-] ?%elem_of_nil|].
  destruct (default [] (dict_get (lower first_term) (inverted_index e)))
    as [|d docs] eqn:Hdocs; [by intros [= <-] ?%elem_of_nil|].
  destruct (for_each _ (d :: docs) []) as [rs|] eqn:Hrun; simpl; [|done].
  intros [= <-] Hr%elem_of_sort_results.
  destruct (score_document_scored _ _ _ _ _ Hrun r Hr) as [?%elem_of_nil|[Hd Hs]];
    [done|].
  exists first_term, rest. split_and!; [done|by rewrite Hdocs|done].
Qed.
End search_scoring.

Section engine_facts.
Variables (lower strip : pystr → pystr) (re_findall_words : pystr → list pystr).
Implicit Types (e : SearchEngine) (d : Document) (files : list Document).

Abbreviation index_document := (SearchEngine_index_document lower re_findall_words).
Abbreviation load_documents := (SearchEngine_load_documents lower re_findall_words).
Abbreviation init := (SearchEngine_init lower re_findall_words).
Abbreviation autocomplete := (SearchEngine_autocomplete lower strip).

(** The words [_load_documents] inserts into the trie, in order. *)
Definition indexed_words files : list pystr :=
  flat_map (λ d, py_set (SearchEngine_tokenize lower re_findall_words (plain_text d)))
           files.

(** The store of a loaded engine is a well-formed tree that holds exactly
    the document ids. *)
Definition store_inv e : Prop :=
  tree_inv (b_plus_tree e) ∧
  ∀ k, k ∈ map fst (tree_contents (b_plus_tree e)) ↔ k ∈ doc_ids e.

Lemma index_document_spec e d :
  store_inv e →
  store_inv (index_document e d) ∧
  trie (index_document e d)
  = foldl (λ t w, Trie_insert lower w t) (trie e)
      (py_set (SearchEngine_tokenize lower re_findall_words (plain_text d))) ∧
  graph (index_document e d) = graph e.
Proof using Type.
  intros [Hinv Hkeys]. unfold SearchEngine_index_document.
  set (doc_id := Z.of_nat (length (doc_ids e)) + 1).
  set (words := SearchEngine_tokenize lower re_findall_words (plain_text d)).
  destruct (foldl (count_word doc_id) ([], inverted_index e) words) as [term_freq index].
  set (metadata := mkMetadata _ _ _ _ _).
  destruct (BPlusTree_insert_spec (b_plus_tree e) doc_id metadata Hinv)
    as (tree' & -> & Hinv' & _ & Hcontents).
  simpl. split_and!; [|done..]. split; [done|]. simpl.
  intros k. rewrite Hcontents, ainsert_keys, Hkeys, elem_of_app, list_elem_of_singleton.
  tauto.
Qed.

Lemma load_documents_spec files : ∀ e,
  store_inv e →
  store_inv (load_documents e files) ∧
  trie (load_documents e files)
  = foldl (λ t w, Trie_insert lower w t) (trie e) (indexed_words files) ∧
  graph (load_documents e files) = graph e.
Proof using Type.
  induction files as [|d files IH]; intros e He; simpl; [done|].
  destruct (index_document_spec e d He) as (He1 & Htrie1 & Hgraph1).
  destruct (IH _ He1) as (He' & Htrie' & Hgraph').
  split_and!; [done| |congruence].
  unfold indexed_words in *. simpl. by rewrite foldl_app, <-Htrie1.
Qed.

Lemma init_spec (r : rng) files e :
  init r files = Ok e →
  store_inv e ∧ trie e = Trie_of_words lower (indexed_words files).
Proof using Type.
  unfold SearchEngine_init.
  set (e0 := mkSearchEngine Trie_new (BPlusTree_new 4) DocumentGraph_new [] [] []).
  destruct (load_documents_spec files e0) as (Hinv & Htrie & _).
  { split; [apply BPlusTree_new_inv|]. done. }
  set (e1 := SearchEngine_load_documents lower re_findall_words e0 files) in *.
  unfold SearchEngine_generate_citations.
  destruct (length (doc_ids e1) <? 2)%nat; simpl.
  - unfold SearchEngine_calculate_authority_scores.
    destruct (calculate_pagerank _ _ _ _) as [[g scores]|]; simpl; [|done].
    by intros [= <-].
  - destruct (for_each _ _ _) as [[g r']|]; simpl; [|done].
    unfold SearchEngine_calculate_authority_scores. simpl.
    destruct (calculate_pagerank _ _ _ _) as [[g' scores]|]; simpl; [|done].
    by intros [= <-].
Qed.

Lemma search_never_raises e (query : pystr) :
  tree_inv (b_plus_tree e) →
  ∃ results, SearchEngine_search lower strip re_findall_words e query = Ok results.
Proof using Type.
  intros Hinv. unfold SearchEngine_search.
  destruct (bool_decide (query = []) || bool_decide (strip query = [])); [by eexists|].
  destruct (SearchEngine_tokenize lower re_findall_words query)
    as [|first_term rest]; [by eexists|].
  destruct (default [] (dict_get (lower first_term) (inverted_index e)))
    as [|d docs]; [by eexists|].
  assert (∀ docs acc, ∃ results,
            for_each (score_document lower strip e (lower first_term)) docs acc
            = Ok results) as Hloop.
  { clear docs. induction docs as [|d' docs IH]; intros acc; simpl; [by eexists|].
    assert (∃ acc', score_document lower strip e (lower first_term) acc d' = Ok acc')
      as [acc' ->]; [|simpl; apply IH].
    unfold score_document. rewrite (BPlusTree_search_spec _ d' Hinv). simpl.
    destruct (alookup d' (tree_contents (b_plus_tree e))); by eexists. }
  destruct (Hloop (d :: docs) []) as [results ->]. simpl. by eexists.
Qed.

(** C8: on an engine the constructor returned, [search] raises on no query
    at all; an empty or whitespace-only query or prefix gives an empty
    result whatever the engine holds; a query whose term is not in the
    inverted index gives the empty list; so does a prefix that no indexed
    word extends; and the store answers [None] for a key it does not
    hold. *)
Theorem not_found_is_empty_never_raises (r : rng) files e :
  init r files = Ok e →
  (∀ query, ∃ results,
     SearchEngine_search lower strip re_findall_words e query = Ok results) ∧
  (∀ text, text = [] ∨ strip text = [] →
     ∀ e', SearchEngine_search lower strip re_findall_words e' text = Ok [] ∧
           autocomplete e' text = []) ∧
  (∀ query first_term rest,
     SearchEngine_tokenize lower re_findall_words query = first_term :: rest →
     dict_get (lower first_term) (inverted_index e) = None →
     SearchEngine_search lower strip re_findall_words e query = Ok []) ∧
  (∀ prefix,
     (∀ w, w ∈ indexed_words files → ¬ lower (strip prefix) `prefix_of` lower w) →
     autocomplete e prefix = []) ∧
  (∀ key, key ∉ doc_ids e → BPlusTree_search (b_plus_tree e) key = Ok None).
Proof using Type.
  intros Hinit. destruct (init_spec r files e Hinit) as [[Hinv Hkeys] Htrie].
  split_and!.
  - intros query. by apply search_never_raises.
  - intros text Hblank e'. unfold SearchEngine_search, SearchEngine_autocomplete.
    assert (bool_decide (text = []) || bool_decide (strip text = []) = true) as ->;
      [|done].
    destruct Hblank as [->| ->]; [done|].
    rewrite (bool_decide_eq_true_2 ([] = [])) by done. apply orb_true_r.
  - intros query first_term rest Htok Hnone. unfold SearchEngine_search.
    destruct (bool_decide (query = []) || bool_decide (strip query = [])); [done|].
    by rewrite Htok, Hnone.
  - intros prefix Hnone. unfold SearchEngine_autocomplete.
    destruct (bool_decide (prefix = []) || bool_decide (strip prefix = [])); [done|].
    rewrite Htrie. by apply Trie_autocomplete_no_completion.
  - intros key Hkey. rewrite BPlusTree_search_spec by done.
    f_equal. apply alookup_None, Forall_forall. intros [k v] Hin Heq. simpl in Heq.
    subst k. apply Hkey, Hkeys. by apply (list_elem_of_fmap_2 fst) in Hin.
Qed.
End engine_facts.

(** *** Where the citation edges come from *)

Section citations.
Variables (lower strip : pystr → pystr) (re_findall_words : pystr → list pystr).
Implicit Types (e : SearchEngine) (g : DocumentGraph) (files : list Document)
  (r : rng).

Lemma for_each_cons {A S} (body : S → A → exn S) (a : A) (l : list A) (s : S) :
  for_each body (a :: l) s = body s a ≫= for_each body l.
Proof. reflexivity. Qed.

Lemma add_node_scores g v : pagerank_scores (add_node g v) = pagerank_scores g.
Proof. unfold add_node. by destruct (dict_get v (adjacency_list g)). Qed.

Lemma add_link_scores g u v g' :
  add_link g u v = Ok g' → pagerank_scores g' = pagerank_scores g.
Proof.
  unfold add_link, dict_item.
  destruct (dict_get u _) as [outs|]; simpl; [|done].
  case_bool_decide.
  - intros [= <-]. by rewrite !add_node_scores.
  - destruct (dict_get v _) as [ins|]; simpl; [|done].
    intros [= <-]. simpl. by rewrite !add_node_scores.
Qed.

Lemma add_links_scores edges : ∀ g g',
  add_links g edges = Ok g' → pagerank_scores g' = pagerank_scores g.
Proof.
  unfold add_links. induction edges as [|[u v] edges IH]; intros g g'; simpl.
  - by intros [= <-].
  - destruct (add_link g u v) as [g1|] eqn:Hlink; simpl; [|done].
    intros Hrest. rewrite (IH _ _ Hrest). by eapply add_link_scores.
Qed.

Lemma cite_from_scores ids g r from_doc g' r' :
  cite_from ids (g, r) from_doc = Ok (g', r') →
  pagerank_scores g' = pagerank_scores g.
Proof.
  unfold cite_from.
  destruct (random_randint _ _ _) as [[n r1]|]; simpl; [|done].
  destruct (random_sample _ _ _) as [[cited r2]|]; simpl; [|done].
  destruct (add_links g _) as [g1|] eqn:Hlinks; simpl; [|done].
  intros [= <- <-]. by eapply add_links_scores.
Qed.

Lemma generate_citations_scores ids froms : ∀ g r g' r',
  for_each (cite_from ids) froms (g, r) = Ok (g', r') →
  pagerank_scores g' = pagerank_scores g.
Proof.
  induction froms as [|from_doc froms IH]; intros g r g' r'.
  - by intros [= <- <-].
  - rewrite for_each_cons.
    destruct (cite_from ids (g, r) from_doc) as [[g1 r1]|] eqn:Hcite; simpl; [|done].
    intros Hrest. rewrite (IH _ _ _ _ Hrest). by eapply cite_from_scores.
Qed.

(** [calculate_pagerank] reads the two link dicts only, and leaves them as
    they are. *)
Lemma calculate_pagerank_links g d n tol g' scores :
  calculate_pagerank g d n tol = Ok (g', scores) →
  adjacency_list g' = adjacency_list g ∧ incoming_links g' = incoming_links g.
Proof.
  unfold calculate_pagerank. destruct (adjacency_list g) as [|kv adj] eqn:Hadj.
  - by intros [= <- <-].
  - destruct (pagerank_loop _ _ _ _ _ _) as [s|]; simpl; [|done].
    by intros [= <- <-].
Qed.

Lemma calculate_pagerank_ext g1 g2 d n tol :
  adjacency_list g1 = adjacency_list g2 → incoming_links g1 = incoming_links g2 →
  pagerank_scores g1 = pagerank_scores g2 →
  calculate_pagerank g1 d n tol = calculate_pagerank g2 d n tol.
Proof. destruct g1, g2. simpl. by intros -> -> ->. Qed.

(** What the constructor returns: the loaded documents, a graph drawn by
    [_generate_citations], and its scores. *)
Lemma init_inv r files e :
  SearchEngine_init lower re_findall_words r files = Ok e →
  let loaded :=
    SearchEngine_load_documents lower re_findall_words
      (mkSearchEngine Trie_new (BPlusTree_new 4) DocumentGraph_new [] [] []) files in
  ∃ g scores,
    pagerank_scores g = [] ∧
    calculate_pagerank g default_damping_factor default_max_iterations
      default_tolerance = Ok (graph e, scores) ∧
    e = mkSearchEngine (trie loaded) (b_plus_tree loaded) (graph e)
          (inverted_index loaded) (doc_term_frequency loaded) (doc_ids loaded).
Proof using Type.
  unfold SearchEngine_init.
  set (e0 := mkSearchEngine Trie_new (BPlusTree_new 4) DocumentGraph_new [] [] []).
  assert (graph (SearchEngine_load_documents lower re_findall_words e0 files)
          = DocumentGraph_new) as Hgraph.
  { destruct (load_documents_spec lower re_findall_words files e0) as (_ & _ & ->);
      [|done].
    split; [apply BPlusTree_new_inv|done]. }
  set (e1 := SearchEngine_load_documents lower re_findall_words e0 files) in *.
  unfold SearchEngine_generate_citations, SearchEngine_calculate_authority_scores.
  destruct (length (doc_ids e1) <? 2)%nat; simpl.
  - destruct (calculate_pagerank (graph e1) _ _ _) as [[g scores]|] eqn:Hcalc;
      simpl; [|done].
    intros [= <-]. exists (graph e1), scores. simpl. split_and!; [|done..].
    by rewrite Hgraph.
  - destruct (for_each _ _ _) as [[g r']|] eqn:Hgen; simpl; [|done].
    destruct (calculate_pagerank g _ _ _) as [[g' scores]|] eqn:Hcalc; simpl; [|done].
    intros [= <-]. exists g, scores. simpl. split_and!; [|done..].
    rewrite (generate_citations_scores _ _ _ _ _ _ Hgen). by rewrite Hgraph.
Qed.

(** C4, as the code has it: the engine draws its citation edges itself
    ([_generate_citations], from the [random] module); the draws are its
    only source of variation.  Two runs over the same documents whose
    draws gave the same citation edges return the same engine: the same
    authority scores, the same search results and the same suggestions. *)
Theorem engine_determined_by_documents_and_citations r1 r2 files e1 e2 :
  SearchEngine_init lower re_findall_words r1 files = Ok e1 →
  SearchEngine_init lower re_findall_words r2 files = Ok e2 →
  adjacency_list (graph e1) = adjacency_list (graph e2) →
  incoming_links (graph e1) = incoming_links (graph e2) →
  e1 = e2 ∧
  pagerank_scores (graph e1) = pagerank_scores (graph e2) ∧
  (∀ query, SearchEngine_search lower strip re_findall_words e1 query
            = SearchEngine_search lower strip re_findall_words e2 query) ∧
  (∀ prefix, SearchEngine_autocomplete lower strip e1 prefix
             = SearchEngine_autocomplete lower strip e2 prefix).
Proof using Type.
  intros Hinit1 Hinit2 Hadj Hinc.
  destruct (init_inv _ _ _ Hinit1) as (g1 & s1 & Hs1 & Hcalc1 & He1).
  destruct (init_inv _ _ _ Hinit2) as (g2 & s2 & Hs2 & Hcalc2 & He2).
  destruct (calculate_pagerank_links _ _ _ _ _ _ Hcalc1) as [Hadj1 Hinc1].
  destruct (calculate_pagerank_links _ _ _ _ _ _ Hcalc2) as [Hadj2 Hinc2].
  assert (graph e1 = graph e2) as Hgraph.
  { rewrite (calculate_pagerank_ext g1 g2) in Hcalc1 by congruence. congruence. }
  assert (e1 = e2) as -> by (rewrite He1, He2, Hgraph; done).
  done.
Qed.
End citations.

(** *** Concrete runs *)

Definition empty_engine : SearchEngine :=
  mkSearchEngine Trie_new (BPlusTree_new 4) DocumentGraph_new [] [] [].

(** The engine over [three_documents], with draws that are all 0. *)
Definition three_documents_engine_value : SearchEngine :=
  Eval vm_compute in
    match three_documents_engine with
    | Ok e => e
    | Raise _ => empty_engine
    end.

Definition four_documents : list Document :=
  [mkDocument (py "data/a.txt") (py "A") (py "https://cs.example.com/a") (py "alpha");
   mkDocument (py "data/b.txt") (py "B") (py "https://cs.example.com/b") (py "beta");
   mkDocument (py "data/c.txt") (py "C") (py "https://cs.example.com/c") (py "gamma");
   mkDocument (py "data/d.txt") (py "D") (py "https://cs.example.com/d") (py "delta")].

(** Draws with which every document cites the three others *)
Definition draws_all_three : rng :=
  [1; 0; 0; 0; 1; 0; 0; 0; 1; 0; 0; 0; 1; 0; 0; 0]%nat.

(** Two runs over [four_documents]: draws that are all 0 (every document
    cites two others, nobody cites document 4), and [draws_all_three]. *)
Definition four_documents_run_a : SearchEngine :=
  Eval vm_compute in
    match SearchEngine_init ascii_lower ascii_findall_words [] four_documents with
    | Ok e => e
    | Raise _ => empty_engine
    end.

Definition four_documents_run_b : SearchEngine :=
  Eval vm_compute in
    match SearchEngine_init ascii_lower ascii_findall_words draws_all_three
            four_documents with
    | Ok e => e
    | Raise _ => empty_engine
    end.

(** C4 as the specification words it: the authority scores are determined
    by the input documents (the citation edges being an input too, which
    the constructor does not have). *)
Definition scores_determined_by_input : Prop :=
  ∀ (r1 r2 : rng) (files : list Document) (e1 e2 : SearchEngine),
    SearchEngine_init ascii_lower ascii_findall_words r1 files = Ok e1 →
    SearchEngine_init ascii_lower ascii_findall_words r2 files = Ok e2 →
    ∀ doc, (get_authority_score (graph e1) doc
            == get_authority_score (graph e2) doc)%Q.

(** Two runs over the same four documents: the citation edges are drawn by
    the constructor, differ, and so do the authority scores (3/80 against
    1/4 for document 4). *)
Lemma scores_determined_by_input_fails : ¬ scores_determined_by_input.
Proof.
  intros Hclaim.
  assert (SearchEngine_init ascii_lower ascii_findall_words [] four_documents
          = Ok four_documents_run_a) as Ha by (vm_compute; reflexivity).
  assert (SearchEngine_init ascii_lower ascii_findall_words draws_all_three
            four_documents = Ok four_documents_run_b) as Hb
    by (vm_compute; reflexivity).
  specialize (Hclaim _ _ _ _ _ Ha Hb 4). vm_compute in Hclaim. discriminate Hclaim.
Qed.

Lemma engine_determined_by_documents_and_citations_witness :
  three_documents_engine_value = three_documents_engine_value ∧
  pagerank_scores (graph three_documents_engine_value)
  = pagerank_scores (graph three_documents_engine_value) ∧
  (∀ query,
     SearchEngine_search ascii_lower ascii_strip ascii_findall_words
       three_documents_engine_value query
     = SearchEngine_search ascii_lower ascii_strip ascii_findall_words
         three_documents_engine_value query) ∧
  (∀ prefix,
     SearchEngine_autocomplete ascii_lower ascii_strip three_documents_engine_value prefix
     = SearchEngine_autocomplete ascii_lower ascii_strip three_documents_engine_value
         prefix).
Proof.
  apply (engine_determined_by_documents_and_citations ascii_lower ascii_strip
           ascii_findall_words [] [0%nat] three_documents).
  - vm_compute. reflexivity.
  - vm_compute. reflexivity.
  - reflexivity.
  - reflexivity.
Defined.

Lemma not_found_is_empty_never_raises_witness :
  (∃ results,
     SearchEngine_search ascii_lower ascii_strip ascii_findall_words
       three_documents_engine_value (py "zebra") = Ok results) ∧
  SearchEngine_autocomplete ascii_lower ascii_strip three_documents_engine_value
    (py "zz") = [] ∧
  BPlusTree_search (b_plus_tree three_documents_engine_value) 7 = Ok None.
Proof.
  destruct (not_found_is_empty_never_raises ascii_lower ascii_strip
              ascii_findall_words [] three_documents three_documents_engine_value)
    as (Hok & _ & _ & Hprefix & Hkey).
  - vm_compute. reflexivity.
  - split_and!.
    + apply Hok.
    + apply Hprefix. intros w Hw Hpre. vm_compute in Hw.
      repeat (apply elem_of_cons in Hw as [->|Hw];
              [destruct Hpre as [k Hk]; vm_compute in Hk; discriminate Hk|]).
      by apply elem_of_nil in Hw.
    + apply Hkey. vm_compute. intros Hin.
      repeat (apply elem_of_cons in Hin as [Heq|Hin]; [discriminate Heq|]).
      by apply elem_of_nil in Hin.
Defined.

Lemma search_score_formula_witness :
  ∃ results r,
    SearchEngine_search ascii_lower ascii_strip ascii_findall_words
      three_documents_engine_value (py "trees") = Ok results ∧
    r ∈ results ∧
    ∃ first_term rest,
      SearchEngine_tokenize ascii_lower ascii_findall_words (py "trees")
      = first_term :: rest ∧
      doc_id r ∈ default [] (dict_get (ascii_lower first_term)
                               (inverted_index three_documents_engine_value)) ∧
      scored_as ascii_lower three_documents_engine_value (ascii_lower first_term) r.
Proof.
  eexists _, _. split; [vm_compute; reflexivity|]. split; [left|].
  eapply (search_score_formula ascii_lower ascii_strip ascii_findall_words
            three_documents_engine_value (py "trees")).
  - vm_compute. reflexivity.
  - left.
Defined.

(** * Further properties *)

(** ** utils/sorter.py: the contract of [merge], sorted input, aliasing *)

Section sorter_more.
Context {R : Type} `{Scored R}.
Implicit Types (arr left right : list R).

Lemma merge_app_sorted left right :
  StronglySorted score_ge (left ++ right) → merge left right = left ++ right.
Proof.
  revert right. induction left as [|a left IH]; intros right Hs.
  - by rewrite merge_nil_l.
  - destruct right as [|b right]; [by rewrite merge_nil_r, app_nil_r|].
    rewrite merge_cons. simpl in Hs. apply StronglySorted_inv in Hs as [Hs Ha].
    assert (Qle_bool (score b) (score a) = true) as ->.
    { apply Qle_bool_iff. rewrite Forall_forall in Ha. apply (Ha b).
      apply elem_of_app. right. left. }
    simpl. f_equal. by apply IH.
Qed.

Lemma sorted_take_drop (n : nat) arr :
  StronglySorted score_ge arr →
  StronglySorted score_ge (take n arr) ∧ StronglySorted score_ge (drop n arr).
Proof.
  revert n. induction arr as [|a arr IH]; intros n Hs.
  - rewrite take_nil, drop_nil. split; constructor.
  - destruct n as [|n]; simpl; [split; [constructor|done]|].
    apply StronglySorted_inv in Hs as [Hs Ha]. destruct (IH n Hs) as [Ht Hd].
    split; [|done]. constructor; [done|].
    apply Forall_forall. intros b Hb. rewrite Forall_forall in Ha. apply Ha.
    by apply (subseteq_take n arr).
Qed.

Lemma merge_sort_sorted_id arr : StronglySorted score_ge arr → merge_sort arr = arr.
Proof.
  funelim (merge_sort arr); intros Hs; [done|].
  rename H0 into IHl, H1 into IHr.
  destruct (sorted_take_drop (length arr / 2) arr Hs) as [Ht Hd].
  rewrite IHl, IHr by done. rewrite merge_app_sorted; by rewrite take_drop.
Qed.


(** X2: a list already in non-increasing order of score comes back as it is
    (equal scores included: nothing is reordered). *)
Theorem merge_sort_sorted_unchanged arr :
  StronglySorted (λ a b, score b <= score a)%Q arr →
  merge_sort arr = arr ∧ sort_results arr = arr.
Proof.
  intros Hs. split; [by apply merge_sort_sorted_id|].
  destruct arr; [done|]. by apply (merge_sort_sorted_id (_ :: _)).
Qed.

(** X3: sorting twice is sorting once: [merge_sort] and [sort_results]
    return a sorted list as it is. *)
Theorem merge_sort_idempotent arr :
  merge_sort (merge_sort arr) = merge_sort arr ∧
  sort_results (sort_results arr) = sort_results arr.
Proof.
  pose proof (merge_sort_spec arr) as (Hperm & Hsorted & _).
  assert (merge_sort (merge_sort arr) = merge_sort arr) as Hidem
    by by apply merge_sort_sorted_id.
  split; [done|]. destruct arr as [|a arr]; [done|].
  change (sort_results (a :: arr)) with (merge_sort (a :: arr)).
  destruct (merge_sort (a :: arr)) as [|b l] eqn:Hms; [done|].
  exact Hidem.
Qed.
End sorter_more.


Lemma merge_sort_sorted_unchanged_witness :
  let scored : Scored Q := λ q, q in
  merge_sort [3 # 4; 1 # 2; 1 # 2; 1 # 4]%Q = [3 # 4; 1 # 2; 1 # 2; 1 # 4]%Q ∧
  sort_results [3 # 4; 1 # 2; 1 # 2; 1 # 4]%Q = [3 # 4; 1 # 2; 1 # 2; 1 # 4]%Q.
Proof.
  intros scored.
  apply (merge_sort_sorted_unchanged (H:=scored) [3 # 4; 1 # 2; 1 # 2; 1 # 4]%Q).
  repeat constructor; unfold score, scored; by vm_compute.
Defined.

Section sorter_aliasing.
Context {R : Type} `{Scored R}.
Implicit Types (s : list (list R)) (xs : list R) (r arr : ref).

Lemma merge_sort_st_short fuel arr xs s :
  s !! arr = Some xs → (length xs ≤ 1)%nat →
  merge_sort_st (S fuel) arr s = Ok (arr, s).
Proof.
  intros Harr Hle. cbn [merge_sort_st].
  rewrite (St_bind_ok _ _ _ _ _ (st_len_ok _ _ _ Harr)).
  by destruct (Nat.leb_spec (length xs) 1); [|lia].
Qed.

Lemma merge_sort_st_fresh fuel arr xs s :
  s !! arr = Some xs → (2 ≤ length xs)%nat → (length xs + 2 ≤ fuel)%nat →
  ∃ r s', merge_sort_st fuel arr s = Ok (r, s') ∧ (length s ≤ r)%nat.
Proof.
  intros Harr Hge Hfuel. destruct fuel as [|fuel]; [lia|].
  cbn [merge_sort_st].
  rewrite (St_bind_ok _ _ _ _ _ (st_len_ok _ _ _ Harr)).
  assert (arr < length s)%nat as Hlt by by eapply lookup_lt_Some.
  destruct (Nat.leb_spec (length xs) 1); [lia|].
  set (mid := (length xs / 2)%nat).
  assert (0 < mid < length xs)%nat as Hmid.
  { split; [apply Nat.div_str_pos; lia | apply Nat.div_lt; lia]. }
  rewrite (St_bind_ok _ _ _ _ _ (st_slice_to_ok _ _ mid _ Harr)).
  assert ((s ++ [take mid xs]) !! arr = Some xs) as Harr'
    by by rewrite lookup_app_l.
  rewrite (St_bind_ok _ _ _ _ _ (st_slice_from_ok _ _ mid _ Harr')).
  set (s2 := (s ++ [take mid xs]) ++ [drop mid xs]).
  assert (s2 !! length s = Some (take mid xs)) as Hleft.
  { unfold s2. rewrite lookup_app_l by (rewrite length_app; simpl; lia).
    by rewrite lookup_app_r, Nat.sub_diag by lia. }
  destruct (merge_sort_st_ok fuel _ _ _ Hleft) as (rl & ext1 & Hrun1 & Hrl).
  { rewrite length_take. lia. }
  rewrite (St_bind_ok _ _ _ _ _ Hrun1).
  destruct (merge_sort_st_ok fuel (length (s ++ [take mid xs])) (drop mid xs)
              (s2 ++ ext1)) as (rr & ext2 & Hrun2 & Hrr).
  { rewrite lookup_app_l by (unfold s2; rewrite !length_app; simpl; lia).
    unfold s2. by rewrite lookup_app_r, Nat.sub_diag by lia. }
  { rewrite length_drop. lia. }
  rewrite (St_bind_ok _ _ _ _ _ Hrun2).
  assert (((s2 ++ ext1) ++ ext2) !! rl = Some (merge_sort (take mid xs))) as Hrl'.
  { rewrite lookup_app_l; [done|]. by eapply lookup_lt_Some. }
  rewrite (merge_st_ok fuel rl rr _ _ _ Hrl' Hrr).
  - eexists _, _. split; [reflexivity|]. unfold s2. rewrite !length_app. lia.
  - pose proof (merge_sort_spec (take mid xs)) as (P1 & _).
    pose proof (merge_sort_spec (drop mid xs)) as (P2 & _).
    rewrite (Permutation_length P1), (Permutation_length P2).
    rewrite length_take, length_drop. lia.
Qed.

(** X4: what the caller gets back is the argument itself, not a copy, exactly
    when nothing had to be sorted: [merge_sort] returns the very list
    object it was given when that has at most one element (and allocates
    nothing), and a newly allocated list otherwise; [sort_results]
    returns its argument exactly when it has one element, since the empty
    input is answered with a new empty list. *)
Theorem sorted_result_aliases_short_input fuel arr xs s :
  s !! arr = Some xs → (length xs + 2 ≤ fuel)%nat →
  (∃ r s', merge_sort_st fuel arr s = Ok (r, s') ∧
           (r = arr ↔ (length xs ≤ 1)%nat) ∧
           ((length xs ≤ 1)%nat → s' = s) ∧
           ((2 ≤ length xs)%nat → s !! r = None)) ∧
  (∃ r s', sort_results_st fuel arr s = Ok (r, s') ∧
           (r = arr ↔ length xs = 1%nat) ∧
           (length xs = 1%nat → s' = s) ∧
           (length xs ≠ 1%nat → s !! r = None)).
Proof.
  intros Harr Hfuel.
  assert (arr < length s)%nat as Hlt by by eapply lookup_lt_Some.
  assert (∀ r, (length s ≤ r)%nat → r ≠ arr ∧ s !! r = None) as Hfresh.
  { intros r Hr. split; [lia|]. by apply lookup_ge_None. }
  destruct fuel as [|fuel]; [lia|].
  destruct (le_lt_dec (length xs) 1) as [Hle|Hgt].
  - split.
    + exists arr, s. rewrite (merge_sort_st_short _ _ xs) by done.
      split_and!; [done|done|done|lia].
    + unfold sort_results_st.
      rewrite (St_bind_ok _ _ _ _ _ (st_len_ok _ _ _ Harr)).
      destruct (Nat.eqb_spec (length xs) 0) as [H0|H0].
      * exists (length s), (s ++ [[]]). destruct (Hfresh (length s)); [done|].
        split_and!; [done|split; [done|lia]|lia|done].
      * exists arr, s. rewrite (merge_sort_st_short _ _ xs) by done.
        split_and!; [done|split; [lia|done]|done|lia].
  - destruct (merge_sort_st_fresh (S fuel) arr xs s) as (r & s' & Hrun & Hr);
      [done|lia|done|].
    destruct (Hfresh r Hr) as [Hne Hnone].
    split.
    + exists r, s'. split_and!; [done|split; [done|lia]|lia|done].
    + unfold sort_results_st.
      rewrite (St_bind_ok _ _ _ _ _ (st_len_ok _ _ _ Harr)).
      destruct (Nat.eqb_spec (length xs) 0) as [H0|H0]; [lia|].
      exists r, s'. split_and!; [done|split; [done|lia]|lia|done].
Qed.
End sorter_aliasing.

Lemma sorted_result_aliases_short_input_witness :
  let scored : Scored Q := λ q, q in
  let s : list (list Q) := [[1 # 2]%Q] in
  (∃ r s', merge_sort_st 3 0%nat s = Ok (r, s') ∧
           (r = 0%nat ↔ (length [1 # 2]%Q ≤ 1)%nat) ∧
           ((length [1 # 2]%Q ≤ 1)%nat → s' = s) ∧
           ((2 ≤ length [1 # 2]%Q)%nat → s !! r = None)) ∧
  (∃ r s', sort_results_st 3 0%nat s = Ok (r, s') ∧
           (r = 0%nat ↔ length [1 # 2]%Q = 1%nat) ∧
           (length [1 # 2]%Q = 1%nat → s' = s) ∧
           (length [1 # 2]%Q ≠ 1%nat → s !! r = None)).
Proof.
  intros scored s.
  apply (sorted_result_aliases_short_input (H:=scored) 3 0%nat [1 # 2]%Q s).
  - reflexivity.
  - simpl. lia.
Defined.

(** ** structures/trie.py: live branches, the word set, negative limits *)

(** Every branch of the trie leads to a word: each child node has at least
    one word at or below it. *)
#[local] Unset Elimination Schemes.
Inductive TrieNode_live : TrieNode → Prop :=
| TrieNode_live_intro cs e :
    Forall (λ p, TrieNode_live p.2 ∧ ∃ s, has_word p.2 s = true) cs →
    TrieNode_live (mkTrieNode cs e).
#[local] Set Elimination Schemes.

Section trie_more.
Variable lower : pystr → pystr.
Implicit Types (n m : TrieNode) (w s : pystr) (W : list pystr).

Lemma TrieNode_live_inv cs e :
  TrieNode_live (mkTrieNode cs e) →
  Forall (λ p, TrieNode_live p.2 ∧ ∃ s, has_word p.2 s = true) cs.
Proof. by inversion 1. Qed.

Lemma TrieNode_new_live : TrieNode_live TrieNode_new.
Proof. by constructor. Qed.

Lemma TrieNode_insert_live w n : TrieNode_live n → TrieNode_live (TrieNode_insert w n).
Proof.
  revert n. induction w as [|c w IH]; intros [cs e] Hn; simpl.
  - constructor. by apply TrieNode_live_inv in Hn.
  - apply TrieNode_live_inv in Hn. constructor.
    apply dict_set_Forall; [done|]. simpl. split.
    + apply IH. destruct (dict_get c cs) as [child|] eqn:Hget; [|apply TrieNode_new_live].
      apply dict_get_Some_In in Hget. rewrite Forall_forall in Hn.
      by destruct (Hn (c, child) Hget).
    + exists w. apply TrieNode_insert_has_word. by left.
Qed.

Lemma Trie_of_words_live W : TrieNode_live (root (Trie_of_words lower W)).
Proof using Type.
  unfold Trie_of_words. generalize TrieNode_new_live.
  change TrieNode_new with (root Trie_new). generalize Trie_new.
  induction W as [|w W IH]; intros t Ht; simpl; [done|].
  apply IH. simpl. by apply TrieNode_insert_live.
Qed.

Lemma TrieNode_search_prefix_live p n m :
  TrieNode_live n → p ≠ [] → TrieNode_search_prefix p n = Some m →
  ∃ s, has_word m s = true.
Proof.
  revert n. induction p as [|c p IH]; intros [cs e] Hn Hp; [done|]. simpl.
  destruct (dict_get c cs) as [child|] eqn:Hget; [|done].
  apply TrieNode_live_inv in Hn. rewrite Forall_forall in Hn.
  destruct (Hn (c, child) (dict_get_Some_In _ _ _ Hget)) as [Hlive Hword].
  destruct p as [|c' p]; [by intros [= <-]|]. by apply IH.
Qed.

(** X5: [_search_prefix] over the trie holding the words [W]: it finds a node
    exactly when the case-folded prefix is empty or starts a case-folded
    word of [W].  The trie has no dead branch: a path that exists always
    leads on to a word. *)
Theorem search_prefix_finds_exactly_started_words W p :
  is_Some (Trie_search_prefix lower (Trie_of_words lower W) p) ↔
  lower p = [] ∨ ∃ w0, w0 ∈ W ∧ lower p `prefix_of` lower w0.
Proof using Type.
  destruct (Trie_of_words_spec lower W) as [Hwf Hwords].
  pose proof (Trie_of_words_live W) as Hlive.
  unfold Trie_search_prefix.
  pose proof (TrieNode_search_prefix_has_word (lower p)
                (root (Trie_of_words lower W))) as Hsearch.
  destruct (TrieNode_search_prefix (lower p) (root (Trie_of_words lower W)))
    as [node|] eqn:Hnode.
  - split; [intros _|by eexists].
    destruct (lower p) as [|c q] eqn:Hp; [by left|right].
    destruct (TrieNode_search_prefix_live (c :: q) _ _ Hlive ltac:(done) Hnode) as [s Hs].
    rewrite Hsearch in Hs. apply Hwords in Hs as (w0 & Hw0 & Heq).
    exists w0. split; [done|]. rewrite <-Heq. by exists s.
  - split; [by intros [? ?]|]. intros [Hp|(w0 & Hw0 & [s Hs])].
    + by rewrite Hp in Hnode.
    + assert (has_word (root (Trie_of_words lower W)) (lower p ++ s) = true) as Hw.
      { apply Hwords. by exists w0. }
      by rewrite Hsearch in Hw.
Qed.

Lemma str_le_antisymm a b : str_le a b → str_le b a → a = b.
Proof.
  intros Hab Hba. destruct (str_le_lt_or_eq _ _ Hab) as [Hlt|]; [|done].
  unfold str_le, str_leb in Hba. apply str_ltb_asym in Hlt.
  rewrite negb_true_iff in Hba. by apply str_ltb_connex.
Qed.

Lemma sorted_le_unique (l1 l2 : list pystr) :
  StronglySorted str_le l1 → StronglySorted str_le l2 → l1 ≡ₚ l2 → l1 = l2.
Proof.
  intros Hl1. revert l2. induction Hl1 as [|a l1 Hl1 IH Ha]; intros l2 Hl2 Hperm.
  - symmetry. by apply Permutation_nil.
  - destruct Hl2 as [|b l2 Hl2 Hb]; [by apply Permutation_nil_r in Hperm|].
    rewrite Forall_forall in Ha. rewrite Forall_forall in Hb.
    assert (a = b) as ->.
    { assert (b ∈ a :: l1) as [->|Hb']%elem_of_cons by (rewrite Hperm; left); [done|].
      assert (a ∈ b :: l2) as [->|Ha']%elem_of_cons by (rewrite <-Hperm; left); [done|].
      apply str_le_antisymm; auto. }
    f_equal. apply IH; [done|]. by apply Permutation_cons_inv in Hperm.
Qed.

Lemma py_sort_same_elements (l1 l2 : list pystr) :
  NoDup l1 → NoDup l2 → (∀ w, w ∈ l1 ↔ w ∈ l2) → py_sort l1 = py_sort l2.
Proof.
  intros Hnd1 Hnd2 Hin. apply sorted_le_unique.
  - apply py_sort_sorted.
  - apply py_sort_sorted.
  - rewrite !py_sort_perm. by apply NoDup_Permutation.
Qed.

(** X6: what [autocomplete] answers depends only on the set of case-folded
    words that were inserted: not on the order of the insertions, on how
    often a word was inserted, or on the case it was written in.  This
    holds for every prefix and every integer limit. *)
Theorem autocomplete_depends_on_word_set_only W W' p (limit : Z) :
  (∀ w, w ∈ map lower W ↔ w ∈ map lower W') →
  Trie_autocomplete lower (Trie_of_words lower W) p limit
  = Trie_autocomplete lower (Trie_of_words lower W') p limit.
Proof using Type.
  intros Hsame.
  destruct (Trie_autocomplete_candidates lower W p) as (ws & -> & Hnd & Hin).
  destruct (Trie_autocomplete_candidates lower W' p) as (ws' & -> & Hnd' & Hin').
  f_equal. apply py_sort_same_elements; [done..|].
  assert (∀ V w, (∃ w0, w0 ∈ V ∧ w = lower w0) ↔ w ∈ map lower V) as Hmap.
  { intros V w. rewrite list_elem_of_fmap. split; intros (w0 & ? & ?); by exists w0. }
  intros w. by rewrite Hin, Hin', !Hmap, Hsame.
Qed.

(** X7: a negative limit is Python's slice from the end: [autocomplete(p, k)]
    with [k < 0] answers the alphabetical completions without the last
    [-k] of them (nothing when there are at most [-k]); it does not mean
    "no limit". *)
Theorem autocomplete_negative_limit_drops_last W p (k : Z) :
  k < 0 →
  ∃ completions : list pystr,
    StronglySorted str_lt completions ∧
    (∀ w, w ∈ completions ↔
          (∃ w0, w0 ∈ W ∧ w = lower w0) ∧ lower p `prefix_of` w) ∧
    Trie_autocomplete lower (Trie_of_words lower W) p k
      = take (length completions - Z.to_nat (- k)) completions ∧
    (length completions ≤ Z.to_nat (- k) →
     Trie_autocomplete lower (Trie_of_words lower W) p k = [])%nat.
Proof using Type.
  intros Hk. destruct (Trie_autocomplete_candidates lower W p) as (words & Hrun & Hnd & Hin).
  assert (Trie_autocomplete lower (Trie_of_words lower W) p k
          = take (length (py_sort words) - Z.to_nat (- k)) (py_sort words)) as Heq.
  { rewrite Hrun. unfold py_slice_to. by destruct (Z.leb_spec 0 k); [lia|]. }
  exists (py_sort words). split_and!.
  - by apply py_sort_strictly_sorted.
  - intros w. by rewrite py_sort_perm.
  - done.
  - intros Hle. rewrite Heq.
    by replace (length (py_sort words) - Z.to_nat (- k))%nat with 0%nat by lia.
Qed.
End trie_more.

Lemma autocomplete_depends_on_word_set_only_witness :
  Trie_autocomplete ascii_lower
    (Trie_of_words ascii_lower [py "trie"; py "Tree"; py "trust"]) (py "tr") 2
  = Trie_autocomplete ascii_lower
    (Trie_of_words ascii_lower [py "TRUST"; py "tree"; py "trie"; py "tree"]) (py "tr") 2.
Proof.
  apply (autocomplete_depends_on_word_set_only ascii_lower
           [py "trie"; py "Tree"; py "trust"]
           [py "TRUST"; py "tree"; py "trie"; py "tree"] (py "tr") 2).
  intros w.
  change (map ascii_lower [py "trie"; py "Tree"; py "trust"])
    with [py "trie"; py "tree"; py "trust"].
  change (map ascii_lower [py "TRUST"; py "tree"; py "trie"; py "tree"])
    with [py "trust"; py "tree"; py "trie"; py "tree"].
  rewrite !elem_of_cons, !elem_of_nil. tauto.
Defined.

Lemma autocomplete_negative_limit_drops_last_witness :
  ∃ completions : list pystr,
    StronglySorted str_lt completions ∧
    (∀ w, w ∈ completions ↔
          (∃ w0, w0 ∈ [py "trie"; py "Tree"; py "trust"] ∧ w = ascii_lower w0)
          ∧ ascii_lower (py "tr") `prefix_of` w) ∧
    Trie_autocomplete ascii_lower
      (Trie_of_words ascii_lower [py "trie"; py "Tree"; py "trust"]) (py "tr") (-1)
      = take (length completions - Z.to_nat (- -1)) completions ∧
    (length completions ≤ Z.to_nat (- -1) →
     Trie_autocomplete ascii_lower
      (Trie_of_words ascii_lower [py "trie"; py "Tree"; py "trust"]) (py "tr") (-1)
     = [])%nat.
Proof.
  apply (autocomplete_negative_limit_drops_last ascii_lower
           [py "trie"; py "Tree"; py "trust"] (py "tr") (-1)).
  lia.
Defined.

(** ** structures/graph.py: the two link tables, [add_link], PageRank *)

(** [v] is in the list that the table [d] holds for [u]. *)
Definition has_link (d : list (Z * list Z)) (u v : Z) : Prop :=
  ∃ l, dict_get u d = Some l ∧ v ∈ l.

(** The graphs a [DocumentGraph] object can hold: whatever its methods make
    of the empty graph. *)
Inductive graph_built : DocumentGraph → Prop :=
| built_new : graph_built DocumentGraph_new
| built_add_node g doc_id : graph_built g → graph_built (add_node g doc_id)
| built_add_link g from_doc to_doc g' :
    graph_built g → add_link g from_doc to_doc = Ok g' → graph_built g'
| built_calculate_pagerank g d n tol g' scores :
    graph_built g → calculate_pagerank g d n tol = Ok (g', scores) → graph_built g'.

Record graph_wf (g : DocumentGraph) : Prop := mk_graph_wf {
  wf_keys : map fst (incoming_links g) = map fst (adjacency_list g);
  wf_nodes : NoDup (map fst (adjacency_list g));
  wf_outs : ∀ u outs, dict_get u (adjacency_list g) = Some outs → NoDup outs;
  wf_ins : ∀ v ins, dict_get v (incoming_links g) = Some ins → NoDup ins;
  wf_transpose : ∀ u v,
    has_link (adjacency_list g) u v ↔ has_link (incoming_links g) v u;
  wf_scores : adjacency_list g = [] → pagerank_scores g = []
}.

Section dict_more.
Context `{EqDecision K} {V : Type}.
Implicit Types (d : list (K * V)) (k : K) (v : V).

Lemma dict_get_is_Some d k : is_Some (dict_get k d) ↔ k ∈ map fst d.
Proof.
  split.
  - intros [v Hv]. apply dict_get_Some_In in Hv.
    by apply (list_elem_of_fmap_2 fst) in Hv.
  - intros Hk. destruct (dict_get k d) eqn:Hget; [by eexists|].
    by apply dict_get_None in Hget.
Qed.

Lemma dict_set_fresh d k v : dict_get k d = None → dict_set k v d = d ++ [(k, v)].
Proof.
  induction d as [|[k' v'] d IH]; simpl; [done|].
  destruct (decide (k' = k)); [done|]. intros Hget. by rewrite IH.
Qed.

Lemma dict_set_same d k v : dict_get k d = Some v → dict_set k v d = d.
Proof.
  induction d as [|[k' v'] d IH]; simpl; [done|].
  destruct (decide (k' = k)) as [->|]; [by intros [= ->]|].
  intros Hget. by rewrite IH.
Qed.

Lemma dict_set_keys_present d k v :
  is_Some (dict_get k d) → map fst (dict_set k v d) = map fst d.
Proof. intros [v' Hv']. by rewrite dict_set_keys, Hv'. Qed.
End dict_more.

Lemma dict_get_same_keys `{EqDecision K} {V V'} (d : list (K * V)) (d' : list (K * V')) k :
  map fst d = map fst d' → is_Some (dict_get k d) → is_Some (dict_get k d').
Proof. rewrite !dict_get_is_Some. by intros ->. Qed.

Section graph_more.
Implicit Types (g : DocumentGraph) (u v a b : Z) (d : list (Z * list Z)).

Lemma has_link_set_empty d k a b :
  dict_get k d = None → has_link (dict_set k [] d) a b ↔ has_link d a b.
Proof.
  intros Hk. unfold has_link. setoid_rewrite dict_get_set.
  destruct (decide (k = a)) as [->|Hne]; [|done]. split.
  - intros (l & [= <-] & Hb). by apply elem_of_nil in Hb.
  - intros (l & Hl & _). congruence.
Qed.

Lemma has_link_set_snoc d k l x a b :
  dict_get k d = Some l →
  has_link (dict_set k (l ++ [x]) d) a b ↔ has_link d a b ∨ (a = k ∧ b = x).
Proof.
  intros Hk. unfold has_link. setoid_rewrite dict_get_set.
  destruct (decide (k = a)) as [->|Hne]; split.
  - intros (l' & [= <-] & [Hb| ->%list_elem_of_singleton]%elem_of_app).
    + left. by exists l.
    + by right.
  - intros [(l' & Hl' & Hb)|[_ ->]].
    + exists (l ++ [x]). split; [done|]. apply elem_of_app. left. congruence.
    + exists (l ++ [x]). split; [done|]. apply elem_of_app. right. left.
  - by left.
  - intros [?|[-> _]]; done.
Qed.

Lemma add_node_present g v :
  is_Some (dict_get v (adjacency_list g)) → add_node g v = g.
Proof. intros [outs Houts]. unfold add_node. by rewrite Houts. Qed.

Lemma add_node_wf g v : graph_wf g → graph_wf (add_node g v).
Proof.
  intros Hg. unfold add_node.
  destruct (dict_get v (adjacency_list g)) as [outs|] eqn:Hv; [done|].
  assert (dict_get v (incoming_links g) = None) as Hv'.
  { destruct (dict_get v (incoming_links g)) eqn:Hget; [|done].
    destruct (dict_get_same_keys (incoming_links g) (adjacency_list g) v)
      as [? ?]; [apply Hg|by eexists|congruence]. }
  constructor; simpl.
  - by rewrite !dict_set_keys, Hv, Hv', (wf_keys g).
  - apply dict_set_keys_NoDup, Hg.
  - intros u outs. rewrite dict_get_set.
    destruct (decide (v = u)); [intros [= <-]; apply NoDup_nil_2|apply Hg].
  - intros u ins. rewrite dict_get_set.
    destruct (decide (v = u)); [intros [= <-]; apply NoDup_nil_2|apply Hg].
  - intros a b. rewrite !has_link_set_empty by done. apply Hg.
  - rewrite dict_set_fresh by done. by destruct (adjacency_list g).
Qed.

Lemma add_node_links g v a b :
  has_link (adjacency_list (add_node g v)) a b ↔ has_link (adjacency_list g) a b.
Proof.
  unfold add_node.
  destruct (dict_get v (adjacency_list g)) as [outs|] eqn:Hv; [done|].
  simpl. by apply has_link_set_empty.
Qed.

Lemma add_node_nodes g v w :
  w ∈ map fst (adjacency_list (add_node g v)) ↔
  w ∈ map fst (adjacency_list g) ∨ w = v.
Proof.
  unfold add_node.
  destruct (dict_get v (adjacency_list g)) as [outs|] eqn:Hv; simpl.
  - split; [by left|]. intros [?| ->]; [done|].
    apply dict_get_is_Some. by eexists.
  - rewrite dict_set_keys, Hv, elem_of_app, list_elem_of_singleton. done.
Qed.

Lemma add_link_spec g u v :
  graph_wf g →
  ∃ g', add_link g u v = Ok g' ∧ graph_wf g' ∧
        (∀ a b, has_link (adjacency_list g') a b ↔
                has_link (adjacency_list g) a b ∨ (a = u ∧ b = v)) ∧
        (∀ w, w ∈ map fst (adjacency_list g') ↔
              w ∈ map fst (adjacency_list g) ∨ w = u ∨ w = v) ∧
        pagerank_scores g' = pagerank_scores g.
Proof.
  intros Hg. unfold add_link.
  pose proof (add_node_wf _ v (add_node_wf g u Hg)) as Hg1.
  assert (∀ a b, has_link (adjacency_list (add_node (add_node g u) v)) a b ↔
                 has_link (adjacency_list g) a b) as Hlinks.
  { intros a b. by rewrite !add_node_links. }
  assert (∀ w, w ∈ map fst (adjacency_list (add_node (add_node g u) v)) ↔
               w ∈ map fst (adjacency_list g) ∨ w = u ∨ w = v) as Hnodes.
  { intros w. rewrite !add_node_nodes. tauto. }
  assert (pagerank_scores (add_node (add_node g u) v) = pagerank_scores g) as Hsc.
  { by rewrite !add_node_scores. }
  set (g1 := add_node (add_node g u) v) in *.
  assert (is_Some (dict_get u (adjacency_list g1))) as [outs Houts].
  { apply dict_get_is_Some, Hnodes. auto. }
  assert (is_Some (dict_get v (incoming_links g1))) as [ins Hins].
  { apply dict_get_is_Some. rewrite (wf_keys g1 Hg1). apply Hnodes. auto. }
  unfold dict_item. rewrite Houts. simpl. case_bool_decide as Hthere.
  - exists g1. split_and!; [done..| |done|done].
    intros a b. rewrite Hlinks. split; [by left|]. intros [?|[-> ->]]; [done|].
    apply Hlinks. by exists outs.
  - rewrite Hins. simpl. eexists. split; [done|].
    split_and!; simpl; [|intros a b; by rewrite has_link_set_snoc, Hlinks| |done].
    + constructor; simpl.
      * rewrite !dict_set_keys_present by by eexists. apply Hg1.
      * apply dict_set_keys_NoDup, Hg1.
      * intros a l. rewrite dict_get_set. destruct (decide (u = a)) as [->|Hne].
        -- intros [= <-]. apply NoDup_app. split_and!.
           ++ by apply (wf_outs g1 Hg1 a).
           ++ by intros x Hx ->%list_elem_of_singleton.
           ++ apply NoDup_singleton.
        -- apply Hg1.
      * intros a l. rewrite dict_get_set. destruct (decide (v = a)) as [->|Hne].
        -- intros [= <-]. apply NoDup_app. split_and!.
           ++ by apply (wf_ins g1 Hg1 a).
           ++ intros x Hx ->%list_elem_of_singleton. apply Hthere.
              assert (has_link (adjacency_list g1) u a) as (l' & Hl' & Ha).
              { apply Hg1. by exists ins. }
              congruence.
           ++ apply NoDup_singleton.
        -- apply Hg1.
      * intros a b. rewrite !has_link_set_snoc by done.
        rewrite (wf_transpose g1 Hg1). tauto.
      * intros Hnil. apply (f_equal (map fst)) in Hnil.
        rewrite dict_set_keys_present in Hnil by by eexists.
        assert (u ∈ map fst (adjacency_list g1)) as Hu by (apply Hnodes; auto).
        rewrite Hnil in Hu. by apply elem_of_nil in Hu.
    + intros w. rewrite dict_set_keys_present by by eexists. apply Hnodes.
Qed.

Lemma DocumentGraph_new_wf : graph_wf DocumentGraph_new.
Proof.
  constructor; simpl; try done.
  - apply NoDup_nil_2.
  - intros a b. split; intros (l & Hl & _); done.
Qed.

Lemma calculate_pagerank_wf g (damping : Q) n tol g' scores :
  graph_wf g → calculate_pagerank g damping n tol = Ok (g', scores) → graph_wf g'.
Proof.
  intros Hg Hrun.
  destruct (calculate_pagerank_links _ _ _ _ _ _ Hrun) as [Hadj Hinc].
  assert (adjacency_list g = [] → g' = g) as Hsame.
  { intros Hnil. unfold calculate_pagerank in Hrun. rewrite Hnil in Hrun. congruence. }
  constructor; rewrite ?Hadj, ?Hinc; try apply Hg.
  intros Hnil. rewrite (Hsame Hnil). by apply Hg.
Qed.

Lemma graph_built_wf g : graph_built g → graph_wf g.
Proof.
  induction 1 as [|g v _ IH|g u v g' _ IH Hlink|g damping n tol g' scores _ IH Hrun].
  - apply DocumentGraph_new_wf.
  - by apply add_node_wf.
  - destruct (add_link_spec g u v IH) as (g'' & Hrun & Hwf & _). congruence.
  - by eapply calculate_pagerank_wf.
Qed.
End graph_more.

(** X8: [incoming_links] is [adjacency_list] read backwards.  In every
    graph the methods can build, the two dicts have the same keys in the
    same order; [u] lists [v] among the documents it cites exactly when
    [v] lists [u] among those citing it; no list holds a document twice;
    and every listed document is a node. *)
Theorem incoming_links_mirror_adjacency_list g :
  graph_built g →
  map fst (incoming_links g) = map fst (adjacency_list g) ∧
  NoDup (map fst (adjacency_list g)) ∧
  (∀ u v, has_link (adjacency_list g) u v ↔ has_link (incoming_links g) v u) ∧
  (∀ u outs, dict_get u (adjacency_list g) = Some outs →
             NoDup outs ∧ ∀ v, v ∈ outs → v ∈ map fst (adjacency_list g)) ∧
  (∀ v ins, dict_get v (incoming_links g) = Some ins →
            NoDup ins ∧ ∀ u, u ∈ ins → u ∈ map fst (adjacency_list g)).
Proof.
  intros Hg%graph_built_wf. split_and!; try apply Hg.
  - intros u outs Houts. split; [by apply (wf_outs g Hg u)|]. intros v Hv.
    assert (has_link (incoming_links g) v u) as (l & Hl & _).
    { apply Hg. by exists outs. }
    rewrite <-(wf_keys g Hg). apply dict_get_is_Some. by eexists.
  - intros v ins Hins. split; [by apply (wf_ins g Hg v)|]. intros u Hu.
    assert (has_link (adjacency_list g) u v) as (l & Hl & _).
    { apply Hg. by exists ins. }
    apply dict_get_is_Some. by eexists.
Qed.

(** X9: [add_link] never raises.  Afterwards the graph has the link, the links
    it had before and no other; its nodes are those it had plus the two
    ends; the stored scores are untouched; and adding the same link again
    changes nothing. *)
Theorem add_link_adds_one_link g from_doc to_doc :
  graph_built g →
  ∃ g', add_link g from_doc to_doc = Ok g' ∧
        (∀ a b, has_link (adjacency_list g') a b ↔
                has_link (adjacency_list g) a b ∨ (a = from_doc ∧ b = to_doc)) ∧
        (∀ w, w ∈ map fst (adjacency_list g') ↔
              w ∈ map fst (adjacency_list g) ∨ w = from_doc ∨ w = to_doc) ∧
        pagerank_scores g' = pagerank_scores g ∧
        add_link g' from_doc to_doc = Ok g'.
Proof.
  intros Hg%graph_built_wf.
  destruct (add_link_spec g from_doc to_doc Hg) as (g' & Hrun & Hwf & Hlinks & Hnodes & Hsc).
  exists g'. split_and!; [done..|].
  assert (add_node g' from_doc = g') as Hfrom.
  { apply add_node_present, dict_get_is_Some, Hnodes. auto. }
  assert (add_node g' to_doc = g') as Hto.
  { apply add_node_present, dict_get_is_Some, Hnodes. auto. }
  assert (has_link (adjacency_list g') from_doc to_doc) as (outs & Houts & Hin).
  { apply Hlinks. by right. }
  unfold add_link, dict_item. rewrite Hfrom, Hto, Houts. simpl.
  by rewrite bool_decide_eq_true_2.
Qed.

(** *** PageRank as sums *)

Definition Qsum (l : list Q) : Q := foldr Qplus 0%Q l.

Section sums.
Context {A : Type}.
Implicit Types (f h : A → Q) (l : list A).

Lemma Qsum_app (l1 l2 : list Q) : (Qsum (l1 ++ l2) == Qsum l1 + Qsum l2)%Q.
Proof. induction l1 as [|x l1 IH]; simpl; [ring|]. rewrite IH. ring. Qed.

Lemma Qsum_perm (l1 l2 : list Q) : l1 ≡ₚ l2 → (Qsum l1 == Qsum l2)%Q.
Proof.
  induction 1 as [|x l1 l2 _ IH|x y l|l1 l2 l3 _ IH1 _ IH2]; simpl.
  - reflexivity.
  - by rewrite IH.
  - ring.
  - by rewrite IH1.
Qed.

Lemma Qsum_map_ext f h l :
  (∀ x, x ∈ l → f x == h x)%Q → (Qsum (map f l) == Qsum (map h l))%Q.
Proof.
  induction l as [|x l IH]; intros Hext; simpl; [reflexivity|].
  apply Qplus_comp; [apply Hext; left|]. apply IH. intros y Hy. apply Hext. by right.
Qed.

Lemma Qsum_map_plus (c : Q) h l :
  (Qsum (map (λ x, c + h x) l) == Qnat (length l) * c + Qsum (map h l))%Q.
Proof.
  induction l as [|x l IH]; simpl; [unfold Qnat; simpl; ring|].
  rewrite IH. unfold Qnat. rewrite Nat2Z.inj_succ, <-Z.add_1_r, inject_Z_plus.
  simpl. ring.
Qed.

Lemma Qsum_map_mult (c : Q) h l :
  (Qsum (map (λ x, c * h x) l) == c * Qsum (map h l))%Q.
Proof. induction l as [|x l IH]; simpl; [ring|]. rewrite IH. ring. Qed.

Lemma Qsum_map_const (c : Q) l : (Qsum (map (λ _, c) l) == Qnat (length l) * c)%Q.
Proof.
  induction l as [|x l IH]; simpl; [unfold Qnat; simpl; ring|].
  rewrite IH. unfold Qnat. rewrite Nat2Z.inj_succ, <-Z.add_1_r, inject_Z_plus.
  simpl. ring.
Qed.

Lemma Qsum_flat_map {B} (h : B → Q) (k : A → list B) l :
  (Qsum (map h (flat_map k l)) == Qsum (map (λ x, Qsum (map h (k x))) l))%Q.
Proof.
  induction l as [|x l IH]; simpl; [reflexivity|].
  by rewrite map_app, Qsum_app, IH.
Qed.

Lemma foldl_plus_Qsum f (s : Q) l :
  (foldl (λ s x, s + f x) s l == s + Qsum (map f l))%Q.
Proof.
  revert s. induction l as [|x l IH]; intros s; simpl; [ring|].
  rewrite IH. ring.
Qed.

Lemma NoDup_flat_map {B} (k : A → list B) l :
  NoDup l → (∀ x, x ∈ l → NoDup (k x)) →
  (∀ x x' y, x ∈ l → x' ∈ l → y ∈ k x → y ∈ k x' → x = x') →
  NoDup (flat_map k l).
Proof.
  induction 1 as [|x l Hx Hl IH]; intros Hk Hinj; simpl; [apply NoDup_nil_2|].
  apply NoDup_app. split_and!.
  - apply Hk. left.
  - intros y Hy (x' & Hx' & Hy')%elem_of_flat_map.
    assert (x = x') as <-; [|done].
    apply (Hinj x x' y); [left|by right|done..].
  - apply IH.
    + intros x' Hx'. apply Hk. by right.
    + intros x1 x2 y H1 H2. apply Hinj; by right.
Qed.
End sums.

Lemma Qnat_nonzero (n : nat) : (0 < n)%nat → ¬ (Qnat n == 0)%Q.
Proof.
  intros Hn Heq. unfold Qnat, inject_Z, Qeq in Heq. simpl in Heq. lia.
Qed.

Lemma sum_scores_Qsum (scores : list (Z * Q)) :
  (sum_scores scores == Qsum (map snd scores))%Q.
Proof.
  unfold sum_scores. rewrite (foldl_plus_Qsum snd). ring.
Qed.

Lemma mapM_exn_ok {A B} (f : A → exn B) (l : list A) :
  (∀ x, x ∈ l → ∃ y, f x = Ok y) →
  ∃ ys, mapM f l = Ok ys ∧ length ys = length l.
Proof.
  induction l as [|x l IH]; intros Hf; [by exists []|].
  destruct (Hf x) as [y Hy]; [left|].
  destruct IH as (ys & Hys & Hlen); [intros x' Hx'; apply Hf; by right|].
  exists (y :: ys). split; [|simpl; by rewrite Hlen].
  change (mapM f (x :: l)) with (y ← f x; k ← mapM f l; mret (y :: k)).
  by rewrite Hy, Hys.
Qed.

Section pagerank_more.
Variables (g : DocumentGraph) (damping_factor : Q).
Hypothesis Hwf : graph_wf g.
Implicit Types (cur : list (Z * Q)) (u v : Z).

Definition outs_of u : list Z := default [] (dict_get u (adjacency_list g)).
Definition ins_of v : list Z := default [] (dict_get v (incoming_links g)).
Definition score_of cur u : Q := default 0%Q (dict_get u cur).

(** What [u] passes on to each document it cites *)
Definition share cur u : Q :=
  (damping_factor * score_of cur u / Qnat (length (outs_of u)))%Q.

(** The new score of [v] after one iteration *)
Definition next_score cur v : Q :=
  foldl (λ s u, s + share cur u)%Q
        ((1 - damping_factor) / Qnat (length (adjacency_list g)))%Q (ins_of v).

Definition next_scores cur : list (Z * Q) :=
  map (λ v, (v, Qred (next_score cur v))) (map fst (adjacency_list g)).

Lemma ins_of_has_link u v : u ∈ ins_of v ↔ has_link (incoming_links g) v u.
Proof.
  unfold ins_of, has_link. destruct (dict_get v (incoming_links g)) as [ins|]; simpl.
  - split; [by exists ins|]. by intros (l & [= <-] & ?).
  - split; [by intros ?%elem_of_nil|]. by intros (l & ? & _).
Qed.

Lemma outs_of_has_link u v : v ∈ outs_of u ↔ has_link (adjacency_list g) u v.
Proof.
  unfold outs_of, has_link. destruct (dict_get u (adjacency_list g)) as [outs|]; simpl.
  - split; [by exists outs|]. by intros (l & [= <-] & ?).
  - split; [by intros ?%elem_of_nil|]. by intros (l & ? & _).
Qed.

Lemma add_contribution_ok cur (s : Q) u v :
  map fst cur = map fst (adjacency_list g) → u ∈ ins_of v →
  add_contribution g damping_factor (length (adjacency_list g)) cur s u
  = Ok (s + share cur u)%Q.
Proof using Hwf.
  intros Hkeys Hu. apply ins_of_has_link, Hwf in Hu as (outs & Houts & Hv).
  assert (is_Some (dict_get u cur)) as [c Hc].
  { apply dict_get_is_Some. rewrite Hkeys. apply dict_get_is_Some. by eexists. }
  unfold add_contribution, dict_item, share, score_of, outs_of.
  rewrite Houts, Hc. simpl.
  destruct (Nat.ltb_spec 0 (length outs)) as [|Hle]; [done|].
  destruct outs; [by apply elem_of_nil in Hv|simpl in Hle; lia].
Qed.

Lemma node_score_ok cur v :
  map fst cur = map fst (adjacency_list g) → v ∈ map fst (adjacency_list g) →
  node_score g damping_factor (length (adjacency_list g)) cur v
  = Ok (next_score cur v).
Proof using Hwf.
  intros Hkeys Hv. unfold node_score, next_score, dict_item.
  assert (is_Some (dict_get v (incoming_links g))) as [ins Hins].
  { apply dict_get_is_Some. by rewrite (wf_keys g Hwf). }
  assert (ins_of v = ins) as Hins' by (unfold ins_of; by rewrite Hins).
  rewrite Hins, Hins'. simpl.
  assert (∀ u, u ∈ ins → u ∈ ins_of v) as Hall by by rewrite Hins'.
  clear Hins Hins'. generalize ((1 - damping_factor) / Qnat (length (adjacency_list g)))%Q.
  induction ins as [|u ins IH]; intros s; simpl; [done|].
  rewrite (add_contribution_ok cur s u v) by (done || apply Hall; left). simpl.
  apply IH. intros u' Hu'. apply Hall. by right.
Qed.

Lemma pagerank_iteration_from cur (l : list Z) (acc : list (Z * Q)) :
  map fst cur = map fst (adjacency_list g) →
  (∀ v, v ∈ l → v ∈ map fst (adjacency_list g)) →
  NoDup (map fst acc ++ l) →
  for_each (λ new_scores doc_id,
              score ← node_score g damping_factor (length (adjacency_list g))
                        cur doc_id;
              Ok (dict_set doc_id (Qred score) new_scores)) l acc
  = Ok (acc ++ map (λ v, (v, Qred (next_score cur v))) l).
Proof using Hwf.
  intros Hkeys. revert acc. induction l as [|v l IH]; intros acc Hsub Hnd; simpl.
  - by rewrite app_nil_r.
  - rewrite node_score_ok by (done || apply Hsub; left). simpl.
    assert (dict_get v acc = None) as Hfresh.
    { destruct (dict_get v acc) eqn:Hget; [|done].
      apply NoDup_app in Hnd as (_ & Hdisj & _). destruct (Hdisj v).
      - apply dict_get_is_Some. by eexists.
      - left. }
    rewrite dict_set_fresh by done. rewrite IH.
    + by rewrite <-app_assoc.
    + intros v' Hv'. apply Hsub. by right.
    + rewrite map_app, <-app_assoc. done.
Qed.

Lemma pagerank_iteration_ok cur :
  map fst cur = map fst (adjacency_list g) →
  pagerank_iteration g damping_factor (length (adjacency_list g)) cur
  = Ok (next_scores cur).
Proof using Hwf.
  intros Hkeys. unfold pagerank_iteration, next_scores.
  rewrite pagerank_iteration_from; [done..|]. apply Hwf.
Qed.

Lemma next_scores_keys cur : map fst (next_scores cur) = map fst (adjacency_list g).
Proof. unfold next_scores. rewrite map_map. simpl. apply map_id. Qed.

Lemma max_diff_ok new cur :
  adjacency_list g ≠ [] →
  map fst new = map fst (adjacency_list g) →
  map fst cur = map fst (adjacency_list g) →
  ∃ q, max_diff g new cur = Ok q.
Proof.
  intros Hne Hnew Hcur. unfold max_diff.
  edestruct (mapM_exn_ok (λ doc_id : Z,
               n ← dict_item new doc_id; c ← dict_item cur doc_id;
               Ok (Qabs (n - c))) (map fst (adjacency_list g)))
    as (diffs & -> & Hlen).
  - intros v Hv. unfold dict_item.
    assert (is_Some (dict_get v new)) as [n ->]
      by (apply dict_get_is_Some; by rewrite Hnew).
    assert (is_Some (dict_get v cur)) as [c ->]
      by (apply dict_get_is_Some; by rewrite Hcur).
    by eexists.
  - simpl. destruct diffs as [|q diffs]; [|by eexists].
    rewrite length_map in Hlen. by destruct (adjacency_list g).
Qed.

(** The loop returns one of the iterates. *)
Lemma pagerank_loop_ok (P : list (Z * Q) → Prop) tolerance max_iterations : ∀ cur,
  adjacency_list g ≠ [] →
  (∀ cur, map fst cur = map fst (adjacency_list g) → P cur → P (next_scores cur)) →
  map fst cur = map fst (adjacency_list g) → P cur →
  ∃ scores,
    pagerank_loop g damping_factor (length (adjacency_list g)) tolerance
      max_iterations cur = Ok scores ∧
    map fst scores = map fst (adjacency_list g) ∧ P scores.
Proof using Hwf.
  induction max_iterations as [|n IH]; intros cur Hne Hstep Hkeys Hcur; simpl.
  - by exists cur.
  - rewrite pagerank_iteration_ok by done. simpl.
    destruct (max_diff_ok (next_scores cur) cur) as [q ->];
      [done|apply next_scores_keys|done|]. simpl.
    destruct (Qlt_bool q tolerance); [by exists cur|].
    apply IH; [done|done|apply next_scores_keys|by apply Hstep].
Qed.

Lemma initial_scores_keys (c : Q) :
  map fst (map (λ kv : Z * list Z, (kv.1, c)) (adjacency_list g))
  = map fst (adjacency_list g).
Proof. rewrite map_map. done. Qed.

Lemma calculate_pagerank_ok (P : list (Z * Q) → Prop) max_iterations tolerance :
  adjacency_list g ≠ [] →
  (∀ cur, map fst cur = map fst (adjacency_list g) → P cur → P (next_scores cur)) →
  P (map (λ kv, (kv.1, Qred (1 / Qnat (length (adjacency_list g))))) (adjacency_list g)) →
  ∃ scores,
    calculate_pagerank g damping_factor max_iterations tolerance
    = Ok (mkDocumentGraph (adjacency_list g) (incoming_links g) scores, scores) ∧
    map fst scores = map fst (adjacency_list g) ∧ P scores.
Proof using Hwf.
  intros Hne Hstep Hinit. unfold calculate_pagerank.
  destruct (pagerank_loop_ok P tolerance max_iterations _ Hne Hstep
              (initial_scores_keys _) Hinit) as (scores & Hrun & Hkeys & HP).
  exists scores. rewrite Hrun. simpl. by destruct (adjacency_list g).
Qed.
End pagerank_more.

(** X10: [calculate_pagerank] never raises, whatever the damping factor, the
    number of iterations and the tolerance: it stores and returns one score
    for each node of the graph, in the order of the nodes (no score on the
    empty graph), and leaves the links as they are. *)
Theorem calculate_pagerank_scores_every_node g damping_factor max_iterations tolerance :
  graph_built g →
  ∃ scores,
    calculate_pagerank g damping_factor max_iterations tolerance
    = Ok (mkDocumentGraph (adjacency_list g) (incoming_links g) scores, scores) ∧
    map fst scores = map fst (adjacency_list g).
Proof.
  intros Hg%graph_built_wf.
  destruct (adjacency_list g) as [|kv adj] eqn:Hadj.
  - exists []. split; [|done]. unfold calculate_pagerank. rewrite Hadj.
    pose proof (wf_keys g Hg) as Hkeys. pose proof (wf_scores g Hg Hadj) as Hsc.
    rewrite Hadj in Hkeys. destruct g as [a i s]. simpl in *. subst.
    by destruct i.
  - destruct (calculate_pagerank_ok g damping_factor Hg (λ _, True)
                max_iterations tolerance) as (scores & Hrun & Hkeys & _);
      [by rewrite Hadj|done|done|].
    exists scores. by rewrite <-Hadj.
Qed.

Section pagerank_mass.
Variables (g : DocumentGraph) (damping_factor : Q).
Hypothesis Hwf : graph_wf g.
Implicit Types (cur : list (Z * Q)) (u v : Z).

(** The links, listed by target and listed by source *)
Definition links_by_target : list (Z * Z) :=
  flat_map (λ v, map (λ u, (u, v)) (ins_of g v)) (map fst (adjacency_list g)).
Definition links_by_source : list (Z * Z) :=
  flat_map (λ u, map (λ v, (u, v)) (outs_of g u)) (map fst (adjacency_list g)).

Lemma outs_of_NoDup u : NoDup (outs_of g u).
Proof using Hwf.
  unfold outs_of. destruct (dict_get u (adjacency_list g)) eqn:Hget; simpl;
    [by eapply (wf_outs g Hwf)|apply NoDup_nil_2].
Qed.

Lemma ins_of_NoDup v : NoDup (ins_of g v).
Proof using Hwf.
  unfold ins_of. destruct (dict_get v (incoming_links g)) eqn:Hget; simpl;
    [by eapply (wf_ins g Hwf)|apply NoDup_nil_2].
Qed.

Lemma links_perm : links_by_target ≡ₚ links_by_source.
Proof using Hwf.
  apply NoDup_Permutation.
  - apply NoDup_flat_map; [apply Hwf| |].
    + intros v _. apply NoDup_fmap_2; [|apply ins_of_NoDup]. by intros ?? [= ->].
    + intros v v' [a b] _ _ (? & [= <- <-] & _)%list_elem_of_fmap
                            (? & [= <- <-] & _)%list_elem_of_fmap. done.
  - apply NoDup_flat_map; [apply Hwf| |].
    + intros u _. apply NoDup_fmap_2; [|apply outs_of_NoDup]. by intros ?? [= ->].
    + intros u u' [a b] _ _ (? & [= <- <-] & _)%list_elem_of_fmap
                            (? & [= <- <-] & _)%list_elem_of_fmap. done.
  - intros [a b]. unfold links_by_target, links_by_source.
    rewrite !elem_of_flat_map. split.
    + intros (v & Hv & (u & [= -> ->] & Hu)%list_elem_of_fmap).
      apply ins_of_has_link, Hwf in Hu. exists u. split.
      * destruct Hu as (l & Hl & _). apply dict_get_is_Some. by eexists.
      * apply list_elem_of_fmap. exists v. split; [done|].
        by apply outs_of_has_link.
    + intros (u & Hu & (v & [= -> ->] & Hv)%list_elem_of_fmap).
      apply outs_of_has_link, Hwf in Hv. exists v. split.
      * destruct Hv as (l & Hl & _). rewrite <-(wf_keys g Hwf).
        apply dict_get_is_Some. by eexists.
      * apply list_elem_of_fmap. exists u. split; [done|].
        by apply ins_of_has_link.
Qed.

Lemma score_of_keys cur :
  NoDup (map fst cur) → map (score_of cur) (map fst cur) = map snd cur.
Proof.
  induction cur as [|[k c] cur IH]; intros Hnd; [done|].
  simpl in Hnd. apply NoDup_cons in Hnd as [Hk Hnd]. simpl. f_equal.
  - unfold score_of. simpl. by rewrite decide_True.
  - rewrite <-IH by done. apply map_ext_in. intros k' Hk'.
    unfold score_of. simpl. rewrite decide_False; [done|].
    intros ->. by apply Hk, list_elem_of_In.
Qed.

(** One iteration hands every score on: the new scores add up to
    [(1 - d) + d * (the old sum)] when every node has an outgoing link. *)
Lemma next_scores_sum cur :
  adjacency_list g ≠ [] →
  Forall (λ kv, kv.2 ≠ []) (adjacency_list g) →
  map fst cur = map fst (adjacency_list g) →
  (sum_scores (next_scores g damping_factor cur)
   == (1 - damping_factor) + damping_factor * sum_scores cur)%Q.
Proof using Hwf.
  intros Hne Hout Hkeys.
  assert (¬ Qnat (length (adjacency_list g)) == 0)%Q as HN.
  { apply Qnat_nonzero. destruct (adjacency_list g); [done|simpl; lia]. }
  assert (∀ u, u ∈ map fst (adjacency_list g) →
               ¬ Qnat (length (outs_of g u)) == 0)%Q as Hdeg.
  { intros u Hu. apply Qnat_nonzero.
    apply dict_get_is_Some in Hu as [outs Houts].
    unfold outs_of. rewrite Houts. simpl.
    rewrite Forall_forall in Hout.
    specialize (Hout (u, outs) (dict_get_Some_In _ _ _ Houts)). simpl in Hout.
    destruct outs; [done|simpl; lia]. }
  rewrite !sum_scores_Qsum. unfold next_scores. rewrite map_map. simpl.
  rewrite (Qsum_map_ext _ (λ v,
             (1 - damping_factor) / Qnat (length (adjacency_list g))
             + Qsum (map (share g damping_factor cur) (ins_of g v))))%Q.
  2:{ intros v _. rewrite Qred_correct. unfold next_score.
      apply foldl_plus_Qsum. }
  rewrite Qsum_map_plus, length_map.
  assert (Qsum (map (λ v, Qsum (map (share g damping_factor cur) (ins_of g v)))
                    (map fst (adjacency_list g)))
          == damping_factor * Qsum (map snd cur))%Q as ->.
  { transitivity (Qsum (map (λ e : Z * Z, share g damping_factor cur e.1)
                            links_by_target)).
    { unfold links_by_target. rewrite Qsum_flat_map.
      apply Qsum_map_ext. intros v _. by rewrite map_map. }
    rewrite (Qsum_perm _ _ (Permutation_map _ links_perm)).
    unfold links_by_source. rewrite Qsum_flat_map.
    rewrite (Qsum_map_ext _ (λ u, damping_factor * score_of cur u))%Q.
    - rewrite Qsum_map_mult, <-Hkeys, score_of_keys; [reflexivity|].
      rewrite Hkeys. apply Hwf.
    - intros u Hu. rewrite map_map. simpl. rewrite Qsum_map_const.
      unfold share. field. by apply Hdeg. }
  field. done.
Qed.

Lemma initial_scores_sum :
  adjacency_list g ≠ [] →
  (sum_scores (map (λ kv : Z * list Z,
                      (kv.1, Qred (1 / Qnat (length (adjacency_list g)))))
                   (adjacency_list g)) == 1)%Q.
Proof.
  intros Hne.
  assert (¬ Qnat (length (adjacency_list g)) == 0)%Q as HN.
  { apply Qnat_nonzero. destruct (adjacency_list g); [done|simpl; lia]. }
  rewrite sum_scores_Qsum, map_map. simpl. rewrite Qsum_map_const, Qred_correct.
  field. done.
Qed.
End pagerank_mass.

(** X11: when every node has an outgoing link, the scores [calculate_pagerank]
    returns add up to 1, whatever the damping factor, the number of
    iterations and the tolerance (in exact arithmetic). *)
Theorem pagerank_scores_sum_to_one g damping_factor max_iterations tolerance :
  graph_built g →
  adjacency_list g ≠ [] →
  Forall (λ kv, kv.2 ≠ []) (adjacency_list g) →
  ∃ g' scores,
    calculate_pagerank g damping_factor max_iterations tolerance = Ok (g', scores) ∧
    (sum_scores scores == 1)%Q.
Proof.
  intros Hg%graph_built_wf Hne Hout.
  destruct (calculate_pagerank_ok g damping_factor Hg (λ s, sum_scores s == 1)%Q
              max_iterations tolerance) as (scores & Hrun & _ & Hsum).
  - done.
  - intros cur Hkeys Hsum. rewrite next_scores_sum, Hsum by done. ring.
  - by apply initial_scores_sum.
  - by eexists _, _.
Qed.

(** Two documents that cite each other. *)
Definition two_cycle_graph : DocumentGraph :=
  mkDocumentGraph [(1, [2]); (2, [1])] [(1, [2]); (2, [1])] [].

Lemma two_cycle_graph_built : graph_built two_cycle_graph.
Proof.
  eapply (built_add_link _ 2 1);
    [eapply (built_add_link _ 1 2); [apply built_new|reflexivity]|reflexivity].
Defined.

Lemma incoming_links_mirror_adjacency_list_witness :
  map fst (incoming_links two_cycle_graph) = map fst (adjacency_list two_cycle_graph) ∧
  NoDup (map fst (adjacency_list two_cycle_graph)) ∧
  (∀ u v, has_link (adjacency_list two_cycle_graph) u v ↔
          has_link (incoming_links two_cycle_graph) v u) ∧
  (∀ u outs, dict_get u (adjacency_list two_cycle_graph) = Some outs →
             NoDup outs ∧ ∀ v, v ∈ outs → v ∈ map fst (adjacency_list two_cycle_graph)) ∧
  (∀ v ins, dict_get v (incoming_links two_cycle_graph) = Some ins →
            NoDup ins ∧ ∀ u, u ∈ ins → u ∈ map fst (adjacency_list two_cycle_graph)).
Proof.
  apply (incoming_links_mirror_adjacency_list two_cycle_graph).
  apply two_cycle_graph_built.
Defined.

Lemma add_link_adds_one_link_witness :
  ∃ g', add_link two_cycle_graph 2 3 = Ok g' ∧
        (∀ a b, has_link (adjacency_list g') a b ↔
                has_link (adjacency_list two_cycle_graph) a b ∨ (a = 2 ∧ b = 3)) ∧
        (∀ w, w ∈ map fst (adjacency_list g') ↔
              w ∈ map fst (adjacency_list two_cycle_graph) ∨ w = 2 ∨ w = 3) ∧
        pagerank_scores g' = pagerank_scores two_cycle_graph ∧
        add_link g' 2 3 = Ok g'.
Proof.
  apply (add_link_adds_one_link two_cycle_graph 2 3).
  apply two_cycle_graph_built.
Defined.

Lemma calculate_pagerank_scores_every_node_witness :
  ∃ scores,
    calculate_pagerank two_cycle_graph default_damping_factor
      default_max_iterations default_tolerance
    = Ok (mkDocumentGraph (adjacency_list two_cycle_graph)
            (incoming_links two_cycle_graph) scores, scores) ∧
    map fst scores = map fst (adjacency_list two_cycle_graph).
Proof.
  apply (calculate_pagerank_scores_every_node two_cycle_graph).
  apply two_cycle_graph_built.
Defined.

Lemma pagerank_scores_sum_to_one_witness :
  ∃ g' scores,
    calculate_pagerank two_cycle_graph default_damping_factor
      default_max_iterations default_tolerance = Ok (g', scores) ∧
    (sum_scores scores == 1)%Q.
Proof.
  apply (pagerank_scores_sum_to_one two_cycle_graph).
  - apply two_cycle_graph_built.
  - done.
  - repeat constructor; done.
Defined.

(** ** structures/b_plus_tree.py: balance and fill *)

(** [balanced d n]: every leaf below [n] is [d] levels down, and every
    internal node has one child more than it has keys. *)
#[local] Unset Elimination Schemes.
Inductive balanced : nat → Node → Prop :=
| balanced_leaf l : balanced 0 (Leaf l)
| balanced_internal d ks cs :
    length cs = S (length ks) → Forall (balanced d) cs →
    balanced (S d) (Internal ks cs).
#[local] Set Elimination Schemes.

Section balance.
Context {V : Type}.
Implicit Types (h : list (LeafNode V)) (lf : LeafNode V) (l : loc) (n c : Node)
  (ks : list Z) (cs : list Node) (key : Z) (value : V) (order : Z) (d : nat).

Lemma balanced_internal_inv d ks cs :
  balanced d (Internal ks cs) →
  ∃ d', d = S d' ∧ length cs = S (length ks) ∧ Forall (balanced d') cs.
Proof. inversion 1; eauto. Qed.

Lemma balanced_leaf_inv d l : balanced d (Leaf l) → d = 0%nat.
Proof. by inversion 1. Qed.

Lemma LeafNode_insert_result order h l key value h' r :
  LeafNode_insert order h l key value = Ok (h', r) →
  r = None ∨ ∃ k, r = Some (k, Leaf (length h)).
Proof.
  unfold LeafNode_insert, read_leaf. destruct (h !! l) as [lf|]; simpl; [|done].
  case_bool_decide.
  - destruct (py_get _ _); simpl; [|done]. intros [= <- <-]. by left.
  - destruct (is_full _ _).
    + unfold LeafNode_split. destruct (py_get _ _) as [k|]; simpl; [|done].
      intros [= <- <-]. right. by exists k.
    + intros [= <- <-]. by left.
Qed.

Lemma InternalNode_add_child_balanced d order ks cs (idx : nat) new_key new_child n' r :
  length cs = S (length ks) → Forall (balanced d) cs → balanced d new_child →
  InternalNode_add_child order ks cs idx new_key new_child = Ok (n', r) →
  balanced (S d) n' ∧
  match r with Some (_, n2) => balanced (S d) n2 | None => True end.
Proof.
  intros Hlen Hcs Hnew. unfold InternalNode_add_child.
  set (ks' := py_list_insert idx new_key ks).
  set (cs' := py_list_insert (S idx) new_child cs).
  assert (length ks' = S (length ks)) as Hks by apply length_py_list_insert.
  assert (length cs' = S (length cs)) as Hcs' by apply length_py_list_insert.
  assert (Forall (balanced d) cs') as Hall.
  { unfold cs', py_list_insert. apply Forall_app. split; [by apply Forall_take|].
    constructor; [done|by apply Forall_drop]. }
  destruct (is_full order ks').
  - unfold InternalNode_split.
    destruct (py_get ks' (length ks' / 2)); simpl; [|done]. intros [= <- <-].
    assert (length ks' / 2 < length ks')%nat by (apply half_lt; lia).
    split; constructor.
    + rewrite !length_take. lia.
    + by apply Forall_take.
    + rewrite !length_drop. lia.
    + by apply Forall_drop.
  - intros [= <- <-]. split; [|done]. constructor; [lia|done].
Qed.

Lemma Node_insert_balanced order n : ∀ d h key value h' n' r,
  balanced d n → Node_insert order n key value h = Ok (h', n', r) →
  balanced d n' ∧ match r with Some (_, n2) => balanced d n2 | None => True end.
Proof.
  induction n as [l|ks cs IH] using Node_ind; intros d h key value h' n' r Hb Hrun.
  - apply balanced_leaf_inv in Hb as ->. simpl in Hrun.
    destruct (LeafNode_insert order h l key value) as [[h1 r1]|] eqn:Hleaf;
      simpl in Hrun; [|done].
    injection Hrun as <- <- <-. split; [constructor|].
    destruct (LeafNode_insert_result _ _ _ _ _ _ _ Hleaf) as [->|[k ->]];
      [done|constructor].
  - apply balanced_internal_inv in Hb as (d' & -> & Hlen & Hcs).
    rewrite Node_insert_Internal in Hrun. cbv zeta in Hrun.
    set (idx := find_child_index ks key) in *.
    destruct (cs !! idx) as [c|] eqn:Hc; [|done].
    assert (c ∈ cs) as Hcin by by eapply list_elem_of_lookup_2.
    destruct (Node_insert order c key value h) as [[[h1 c'] rc]|] eqn:Hrunc;
      simpl in Hrun; [|done].
    rewrite Forall_forall in IH.
    destruct (IH c Hcin d' h key value h1 c' rc) as [Hc' Hrc]; [|done|].
    { rewrite Forall_forall in Hcs. by apply Hcs. }
    assert (Forall (balanced d') (<[idx := c']> cs)) as Hcs1
      by by apply Forall_insert.
    destruct rc as [[sep c2]|].
    + destruct (InternalNode_add_child order ks (<[idx:=c']> cs) idx sep c2)
        as [[n1 r1]|] eqn:Hadd; simpl in Hrun; [|done].
      injection Hrun as <- <- <-.
      eapply InternalNode_add_child_balanced; [|done|done|done].
      by rewrite length_insert.
    + injection Hrun as <- <- <-. split; [|done].
      constructor; [by rewrite length_insert|done].
Qed.

Lemma BPlusTree_insert_balanced t key value t' d :
  balanced d (tree_root t) → BPlusTree_insert t key value = Ok t' →
  balanced d (tree_root t') ∨ balanced (S d) (tree_root t').
Proof.
  intros Hb. unfold BPlusTree_insert.
  destruct (Node_insert (order t) (tree_root t) key value (leaf_heap t))
    as [[[h' n'] r]|] eqn:Hrun; simpl; [|done].
  destruct (Node_insert_balanced _ _ _ _ _ _ _ _ _ Hb Hrun) as [Hn' Hr].
  destruct r as [[sep n2]|]; intros [= <-]; simpl; [right|by left].
  constructor; [done|]. by repeat constructor.
Qed.

Lemma BPlusTree_inserts_balanced (ops : list (Z * V)) : ∀ t t' d,
  balanced d (tree_root t) → BPlusTree_inserts t ops = Ok t' →
  ∃ d', balanced d' (tree_root t') ∧ (d ≤ d' ≤ d + length ops)%nat.
Proof.
  unfold BPlusTree_inserts.
  induction ops as [|[key value] ops IH]; intros t t' d Hb; simpl.
  - intros [= <-]. exists d. split; [done|lia].
  - destruct (BPlusTree_insert t key value) as [t1|] eqn:Hrun; simpl; [|done].
    intros Hrest.
    destruct (BPlusTree_insert_balanced _ _ _ _ _ Hb Hrun) as [Hb1|Hb1];
      destruct (IH _ _ _ Hb1 Hrest) as (d' & Hb' & Hd'); exists d';
      (split; [done|lia]).
Qed.

(** X12: the tree is balanced, whatever the order and the insertions: all the
    leaves are at one depth, every internal node has one child more than
    keys, and the depth is at most the number of insertions. *)
Theorem BPlusTree_stays_balanced order (ops : list (Z * V)) :
  ∃ t d, BPlusTree_inserts (BPlusTree_new order) ops = Ok t ∧
         balanced d (tree_root t) ∧ (d ≤ length ops)%nat.
Proof.
  destruct (BPlusTree_inserts_spec ops (BPlusTree_new order) (BPlusTree_new_inv order))
    as (t & Hrun & _).
  destruct (BPlusTree_inserts_balanced ops (BPlusTree_new order) t 0) as (d & Hb & Hd);
    [constructor|done|].
  exists t, d. split_and!; [done..|lia].
Qed.
End balance.

(** [node_filled h order n]: every leaf below [n] holds at least
    [order // 2] keys and every internal node at or below [n] at least
    [(order - 1) // 2]. *)
#[local] Unset Elimination Schemes.
Inductive node_filled {V} (h : list (LeafNode V)) (order : Z) : Node → Prop :=
| node_filled_leaf l lf :
    h !! l = Some lf → order / 2 ≤ Z.of_nat (length (keys lf)) →
    node_filled h order (Leaf l)
| node_filled_internal ks cs :
    (order - 1) / 2 ≤ Z.of_nat (length ks) → Forall (node_filled h order) cs →
    node_filled h order (Internal ks cs).
#[local] Set Elimination Schemes.

(** The root is exempt: a root leaf may hold any number of keys, an
    internal root needs one key only. *)
Definition root_filled {V} (h : list (LeafNode V)) (order : Z) (n : Node) : Prop :=
  match n with
  | Leaf _ => True
  | Internal ks cs => (1 ≤ length ks)%nat ∧ Forall (node_filled h order) cs
  end.

Section fill.
Context {V : Type}.
Implicit Types (h : list (LeafNode V)) (lf : LeafNode V) (l : loc) (n c : Node)
  (ks : list Z) (cs : list Node) (key : Z) (value : V) (order : Z).

Definition children_filled h order n : Prop :=
  match n with
  | Leaf _ => True
  | Internal _ cs => Forall (node_filled h order) cs
  end.

Definition ikeys_count n : nat :=
  match n with Leaf _ => 0%nat | Internal ks _ => length ks end.

Lemma node_filled_leaf_inv h order l :
  node_filled h order (Leaf l) →
  ∃ lf, h !! l = Some lf ∧ order / 2 ≤ Z.of_nat (length (keys lf)).
Proof. inversion 1; eauto. Qed.

Lemma node_filled_internal_inv h order ks cs :
  node_filled h order (Internal ks cs) →
  (order - 1) / 2 ≤ Z.of_nat (length ks) ∧ Forall (node_filled h order) cs.
Proof. by inversion 1. Qed.

Lemma node_filled_frame h h' order n :
  node_filled h order n → (∀ l, l ∈ leaves n → h' !! l = h !! l) →
  node_filled h' order n.
Proof.
  induction n as [l|ks cs IH] using Node_ind; intros Hb Hframe.
  - apply node_filled_leaf_inv in Hb as (lf & Hl & Hlen).
    apply node_filled_leaf with lf; [|done]. rewrite Hframe; [done|]. simpl. left.
  - apply node_filled_internal_inv in Hb as [Hlen Hcs].
    apply node_filled_internal; [done|].
    rewrite Forall_forall in IH. rewrite Forall_forall in Hcs.
    apply Forall_forall. intros c Hc. apply IH; [done|by apply Hcs|].
    intros l Hl. apply Hframe. rewrite leaves_Internal.
    apply elem_of_flat_map. by exists c.
Qed.

Lemma half_of_nat (n : nat) : Z.of_nat (n / 2) = Z.of_nat n / 2.
Proof. by rewrite Nat2Z.inj_div. Qed.

Lemma LeafNode_insert_filled order h l lf key value h' r :
  2 ≤ order → h !! l = Some lf → Z.of_nat (length (keys lf)) < order →
  LeafNode_insert order h l key value = Ok (h', r) →
  (node_filled h order (Leaf l) → node_filled h' order (Leaf l)) ∧
  match r with
  | Some (_, n2) => node_filled h' order (Leaf l) ∧ node_filled h' order n2
  | None => True
  end.
Proof.
  intros Horder Hl Hlen. assert (l < length h)%nat as Hlt by by eapply lookup_lt_Some.
  unfold LeafNode_insert, read_leaf. rewrite Hl. simpl.
  set (pos := insert_pos (keys lf) key). case_bool_decide as Hpos.
  - destruct (py_get (values lf) pos); simpl; [|done]. intros [= <- <-].
    split; [|done]. intros (lf0 & Hl0 & Hfill)%node_filled_leaf_inv.
    eapply node_filled_leaf; [by apply list_lookup_insert_eq|]. simpl. congruence.
  - set (ks := py_list_insert pos key (keys lf)).
    assert (length ks = S (length (keys lf))) as Hks by apply length_py_list_insert.
    destruct (is_full order ks) eqn:Hfull.
    + apply is_full_true in Hfull. unfold LeafNode_split. simpl.
      destruct (py_get (drop (length ks / 2) ks) 0); simpl; [|done].
      intros [= <- <-].
      assert (Z.of_nat (length ks) = order) as Hexact by lia.
      assert (Z.of_nat (length ks / 2) = order / 2) as Hmid
        by by rewrite half_of_nat, Hexact.
      assert (2 * (order / 2) ≤ order) as Hq by (apply Z.mul_div_le; lia).
      assert (length ks / 2 < length ks)%nat as Hm by (apply half_lt; lia).
      set (m := (length ks / 2)%nat) in *. clearbody m.
      assert (node_filled (<[l:=mkLeafNode (take m ks)
                                  (take m (py_list_insert pos value (values lf)))
                                  (Some (length h))]> h
                           ++ [mkLeafNode (drop m ks)
                                 (drop m (py_list_insert pos value (values lf)))
                                 (next_leaf lf)]) order (Leaf l)) as Hleft.
      { eapply node_filled_leaf.
        { rewrite lookup_app_l by (by rewrite length_insert).
          by apply list_lookup_insert_eq. }
        simpl. rewrite length_take. lia. }
      split_and!; [done|done|].
      eapply node_filled_leaf.
      { rewrite lookup_app_r by (by rewrite length_insert).
        by rewrite length_insert, Nat.sub_diag. }
      simpl. rewrite length_drop. lia.
    + intros [= <- <-]. split; [|done].
      intros (lf0 & Hl0 & Hfill)%node_filled_leaf_inv.
      eapply node_filled_leaf; [by apply list_lookup_insert_eq|]. simpl.
      assert (lf0 = lf) as -> by congruence. lia.
Qed.

Lemma InternalNode_add_child_filled order h ks cs (idx : nat) new_key new_child n' r :
  2 ≤ order → Z.of_nat (length ks) < order →
  Forall (node_filled h order) cs → node_filled h order new_child →
  InternalNode_add_child order ks cs idx new_key new_child = Ok (n', r) →
  children_filled h order n' ∧
  (ikeys_count n' = S (length ks) ∨ is_Some r) ∧
  match r with
  | Some (_, n2) => node_filled h order n' ∧ node_filled h order n2
  | None => True
  end.
Proof.
  intros Horder Hlen Hcs Hnew. unfold InternalNode_add_child.
  set (ks' := py_list_insert idx new_key ks).
  set (cs' := py_list_insert (S idx) new_child cs).
  assert (length ks' = S (length ks)) as Hks by apply length_py_list_insert.
  assert (Forall (node_filled h order) cs') as Hcs'.
  { unfold cs', py_list_insert. apply Forall_app. split; [by apply Forall_take|].
    constructor; [done|by apply Forall_drop]. }
  destruct (is_full order ks') eqn:Hfull.
  - apply is_full_true in Hfull. unfold InternalNode_split.
    destruct (py_get ks' (length ks' / 2)); simpl; [|done]. intros [= <- <-].
    assert (Z.of_nat (length ks') = order) as Hexact by lia.
    assert (Z.of_nat (length ks' / 2) = order / 2) as Hmid
      by by rewrite half_of_nat, Hexact.
    assert ((order - 1) / 2 ≤ order / 2) as Hhalf
      by (apply Z.div_le_mono; lia).
    assert ((order - 1) / 2 ≤ order - order / 2 - 1) as Hhalf'.
    { pose proof (Z.div_mod order 2 ltac:(lia)).
      pose proof (Z.mod_pos_bound order 2 ltac:(lia)).
      pose proof (Z.div_mod (order - 1) 2 ltac:(lia)).
      pose proof (Z.mod_pos_bound (order - 1) 2 ltac:(lia)).
      generalize dependent (order / 2). generalize dependent ((order - 1) / 2).
      generalize dependent (order mod 2). generalize dependent ((order - 1) mod 2).
      intros. lia. }
    assert (length ks' / 2 < length ks')%nat as Hm by (apply half_lt; lia).
    set (m := (length ks' / 2)%nat) in *. clearbody m.
    simpl. split_and!.
    + by apply Forall_take.
    + right. by eexists.
    + apply node_filled_internal; [|by apply Forall_take].
      rewrite length_take. lia.
    + apply node_filled_internal; [|by apply Forall_drop].
      rewrite length_drop. lia.
  - intros [= <- <-]. simpl. split_and!; [done|by left|done].
Qed.

Lemma Node_insert_filled order n : 2 ≤ order → ∀ h lo hi key value h' n' r,
  bst h lo hi n → in_range lo hi key → NoDup (leaves n) →
  node_bounded h order n → children_filled h order n →
  Node_insert order n key value h = Ok (h', n', r) →
  children_filled h' order n' ∧
  (node_filled h order n → node_filled h' order n') ∧
  ((ikeys_count n ≤ ikeys_count n')%nat ∨ is_Some r) ∧
  match r with
  | Some (_, n2) => node_filled h' order n' ∧ node_filled h' order n2
  | None => True
  end.
Proof.
  intros Horder. induction n as [l|ks cs IH] using Node_ind;
    intros h lo hi key value h' n' r Hbst Hkey Hnd Hb Hfill Hrun.
  - apply node_bounded_leaf_inv in Hb as (lf & Hl & Hlen). simpl in Hrun.
    destruct (LeafNode_insert order h l key value) as [[h1 r1]|] eqn:Hleaf;
      simpl in Hrun; [|done].
    injection Hrun as <- <- <-.
    destruct (LeafNode_insert_filled _ _ _ _ _ _ _ _ Horder Hl Hlen Hleaf) as [H1 H2].
    split_and!; [done|done|left; simpl; lia|done].
  - apply bst_internal_inv in Hbst.
    apply node_bounded_internal_inv in Hb as [Hlen Hcs]. simpl in Hfill.
    destruct (aligned_route _ _ _ _ _ key Hbst Hkey)
      as (c & lo' & hi' & Hc & Hbstc & Hkey' & _).
    rewrite Node_insert_Internal in Hrun. cbv zeta in Hrun.
    set (idx := find_child_index ks key) in *.
    rewrite leaves_Internal in Hnd.
    assert (c ∈ cs) as Hcin by by eapply list_elem_of_lookup_2.
    assert (NoDup (leaves c)) as Hndc.
    { rewrite <-(take_drop_middle cs idx c Hc), flat_map_app in Hnd. simpl in Hnd.
      apply NoDup_app in Hnd as (_ & _ & Hnd). by apply NoDup_app in Hnd as (? & _). }
    destruct (Node_insert_spec order c h lo' hi' key value Hbstc Hkey' Hndc)
      as (h1 & c' & rc & l & split & pre & post & Hrunc & Hlc & Hup & _).
    rewrite Hc, Hrunc in Hrun. simpl in Hrun.
    rewrite Forall_forall in IH. rewrite Forall_forall in Hcs.
    pose proof Hfill as Hfill'. rewrite Forall_forall in Hfill'.
    assert (children_filled h order c) as Hcfill.
    { specialize (Hfill' c Hcin). destruct c as [?|ks0 cs0]; [done|].
      by apply node_filled_internal_inv in Hfill' as [_ ?]. }
    destruct (IH c Hcin h lo' hi' key value h1 c' rc Hbstc Hkey' Hndc
                (Hcs c Hcin) Hcfill Hrunc) as (_ & Hfc' & _ & Hfrc).
    specialize (Hfc' (Hfill' c Hcin)).
    destruct (Node_insert_bounded order c Horder h lo' hi' key value h1 c' rc
                Hbstc Hkey' Hndc (Hcs c Hcin) Hrunc) as [Hbc' _].
    assert (l ∈ leaves c) as Hlin.
    { rewrite Hlc. apply elem_of_app. right. left. }
    assert (Forall (node_filled h1 order) (<[idx := c']> cs)) as Hcs1.
    { rewrite insert_take_drop by by eapply lookup_lt_Some.
      pose proof (aligned_children _ _ _ _ _ Hbst) as Hch.
      rewrite Forall_forall in Hch.
      assert (∀ c0, c0 ∈ take idx cs ++ drop (S idx) cs → node_filled h1 order c0)
        as Hsib.
      { intros c0 Hc0.
        assert (c0 ∈ cs) as Hc0in.
        { rewrite <-(take_drop_middle cs idx c Hc).
          apply elem_of_app in Hc0 as [?|?]; apply elem_of_app; [by left|].
          right. by right. }
        destruct (Hch c0 Hc0in) as (a & b & Hbc0 & _).
        apply (node_filled_frame h); [by apply Hfill'|].
        by eapply (sibling_frame cs idx c l h h1). }
      apply Forall_app. split; [|constructor; [done|]]; apply Forall_forall;
        intros c0 Hc0; apply Hsib, elem_of_app; [by left|by right]. }
    destruct rc as [[sep c2]|].
    + destruct Hfrc as [_ Hfc2].
      destruct (InternalNode_add_child order ks (<[idx:=c']> cs) idx sep c2)
        as [[n1 r1]|] eqn:Hadd; simpl in Hrun; [|done].
      injection Hrun as <- <- <-.
      destruct (InternalNode_add_child_filled _ _ _ _ _ _ _ _ _ Horder Hlen Hcs1
                  Hfc2 Hadd) as (Hch1 & Hcount & Hres).
      split_and!; [done| | |done].
      * intros [Hmin _]%node_filled_internal_inv.
        destruct r1 as [[k2 n2]|]; [by destruct Hres|].
        destruct Hcount as [Hcount|[? ?]]; [|done].
        destruct n1 as [?|ks1 cs1]; [done|]. simpl in *.
        apply node_filled_internal; [lia|done].
      * destruct Hcount as [Hcount|?]; [left; simpl; lia|by right].
    + injection Hrun as <- <- <-. split_and!; [done| |by left|done].
      intros [Hmin _]%node_filled_internal_inv.
      by apply node_filled_internal.
Qed.

Lemma BPlusTree_insert_filled t key value t' :
  2 ≤ order t → tree_inv t →
  node_bounded (leaf_heap t) (order t) (tree_root t) →
  root_filled (leaf_heap t) (order t) (tree_root t) →
  BPlusTree_insert t key value = Ok t' →
  root_filled (leaf_heap t') (order t') (tree_root t').
Proof.
  intros Horder (Hbst & Hnd & _) Hb Hroot. unfold BPlusTree_insert.
  destruct (Node_insert (order t) (tree_root t) key value (leaf_heap t))
    as [[[h' n'] r]|] eqn:Hrun; simpl; [|done].
  assert (children_filled (leaf_heap t) (order t) (tree_root t)) as Hch.
  { destruct (tree_root t); [done|]. by destruct Hroot. }
  destruct (Node_insert_filled (order t) (tree_root t) Horder _ NegInf PosInf
              _ _ _ _ _ Hbst ltac:(bounds) Hnd Hb Hch Hrun)
    as (Hch' & _ & Hcount & Hres).
  destruct r as [[sep n2]|]; intros [= <-]; simpl.
  - destruct Hres. split; [lia|]. by repeat constructor.
  - destruct Hcount as [Hcount|[? ?]]; [|done].
    destruct n' as [?|ks' cs']; [done|]. simpl in *. split; [|done].
    destruct (tree_root t) as [?|ks cs].
    + simpl in Hrun.
      destruct (LeafNode_insert _ _ _ _ _) as [[? ?]|]; simpl in Hrun; done.
    + simpl in Hcount. destruct Hroot. lia.
Qed.

Lemma BPlusTree_inserts_filled (ops : list (Z * V)) : ∀ t,
  2 ≤ order t → tree_inv t →
  node_bounded (leaf_heap t) (order t) (tree_root t) →
  root_filled (leaf_heap t) (order t) (tree_root t) →
  ∃ t', BPlusTree_inserts t ops = Ok t' ∧ order t' = order t ∧
        root_filled (leaf_heap t') (order t') (tree_root t').
Proof.
  induction ops as [|[key value] ops IH]; intros t Horder Hinv Hb Hroot.
  - by exists t.
  - destruct (BPlusTree_insert_spec t key value Hinv) as (t1 & Hrun & Hinv1 & Hord & _).
    pose proof (BPlusTree_insert_bounded t key value t1 Horder Hinv Hb Hrun) as Hb1.
    pose proof (BPlusTree_insert_filled t key value t1 Horder Hinv Hb Hroot Hrun) as Hf1.
    destruct (IH t1 ltac:(lia) Hinv1 Hb1 Hf1) as (t' & Hrun' & Hord' & Hf').
    exists t'. unfold BPlusTree_inserts in *. simpl. rewrite Hrun. simpl.
    split_and!; [done|congruence|done].
Qed.

(** X13: nodes stay at least half full.  For [order >= 2], after any sequence
    of insertions every leaf other than a root leaf holds at least
    [order // 2] keys, every internal node other than the root holds at
    least [(order - 1) // 2] keys, and an internal root holds at least
    one. *)
Theorem BPlusTree_nodes_half_full order (ops : list (Z * V)) :
  2 ≤ order →
  ∃ t, BPlusTree_inserts (BPlusTree_new order) ops = Ok t ∧
       root_filled (leaf_heap t) order (tree_root t).
Proof.
  intros Horder.
  destruct (BPlusTree_inserts_filled ops (BPlusTree_new order) Horder
              (BPlusTree_new_inv order)) as (t & Hrun & Hord & Hf).
  - eapply node_bounded_leaf; [done|]. simpl. lia.
  - done.
  - exists t. split; [done|]. simpl in Hord. by rewrite Hord in Hf.
Qed.
End fill.

Lemma BPlusTree_nodes_half_full_witness :
  ∃ t, BPlusTree_inserts (BPlusTree_new 4)
         [(1, 10); (2, 20); (3, 30); (4, 40); (5, 50); (6, 60)] = Ok t ∧
       root_filled (leaf_heap t) 4 (tree_root t).
Proof.
  apply (BPlusTree_nodes_half_full (V:=Z) 4
           [(1, 10); (2, 20); (3, 30); (4, 40); (5, 50); (6, 60)]).
  lia.
Defined.

Section update.
Context {V : Type}.
Implicit Types (h : list (LeafNode V)) (lf : LeafNode V) (l : loc) (n c : Node)
  (ks : list Z) (cs : list Node) (key : Z) (value : V) (order : Z).

(** Below [n] the key is stored: some leaf has it. *)
Definition stored_below h n key : Prop :=
  ∃ l lf, l ∈ leaves n ∧ h !! l = Some lf ∧ key ∈ keys lf.

Definition with_value lf (pos : nat) value : LeafNode V :=
  mkLeafNode (keys lf) (<[pos := value]> (values lf)) (next_leaf lf).

Lemma Node_insert_update order n : ∀ h lo hi key value,
  bst h lo hi n → in_range lo hi key → stored_below h n key →
  ∃ l lf (pos : nat),
    h !! l = Some lf ∧
    Node_insert order n key value h = Ok (<[l := with_value lf pos value]> h, n, None).
Proof.
  induction n as [l|ks cs IH] using Node_ind;
    intros h lo hi key value Hbst Hkey (l0 & lf0 & Hl0 & Hlf0 & Hin).
  - apply bst_leaf_inv in Hbst as (lf & Hl & Hlen & Hsorted & _).
    simpl in Hl0. apply list_elem_of_singleton in Hl0 as ->.
    assert (lf0 = lf) as -> by congruence.
    apply (insert_pos_found _ _ Hsorted) in Hin.
    exists l, lf, (insert_pos (keys lf) key). split; [done|].
    simpl. unfold LeafNode_insert, read_leaf. rewrite Hl. simpl.
    rewrite bool_decide_eq_true_2 by done.
    assert (insert_pos (keys lf) key < length (values lf))%nat as Hlt.
    { rewrite <-Hlen. by eapply lookup_lt_Some. }
    destruct (lookup_lt_is_Some_2 _ _ Hlt) as [v Hv].
    unfold py_get. by rewrite Hv.
  - apply bst_internal_inv in Hbst.
    destruct (aligned_route _ _ _ _ _ key Hbst Hkey)
      as (c & lo' & hi' & Hc & Hbstc & Hkey' & Hleft & Hright & _).
    set (idx := find_child_index ks key) in *.
    assert (c ∈ cs) as Hcin by by eapply list_elem_of_lookup_2.
    assert (stored_below h c key) as Hstored.
    { rewrite leaves_Internal in Hl0.
      apply elem_of_flat_map in Hl0 as (c0 & Hc0 & Hl0).
      rewrite <-(take_drop_middle cs idx c Hc) in Hc0.
      rewrite Forall_forall in Hleft. rewrite Forall_forall in Hright.
      apply elem_of_app in Hc0 as [Hc0|[->|Hc0]%elem_of_cons].
      - destruct (Hleft c0 Hc0) as (a & b & Hb0 & Hle).
        pose proof (bst_keys_range h c0 a b Hb0 l0 lf0 Hl0 Hlf0) as Hr.
        rewrite Forall_forall in Hr. specialize (Hr key Hin).
        exfalso. revert Hr Hle. clear. unfold in_range. bounds.
      - by exists l0, lf0.
      - destruct (Hright c0 Hc0) as (a & b & Hb0 & Hlt).
        pose proof (bst_keys_range h c0 a b Hb0 l0 lf0 Hl0 Hlf0) as Hr.
        rewrite Forall_forall in Hr. specialize (Hr key Hin).
        exfalso. revert Hr Hlt. clear. unfold in_range. bounds. }
    rewrite Forall_forall in IH.
    destruct (IH c Hcin h lo' hi' key value Hbstc Hkey' Hstored)
      as (l & lf & pos & Hl & Hrun).
    exists l, lf, pos. split; [done|].
    rewrite Node_insert_Internal. cbv zeta. fold idx. rewrite Hc, Hrun. simpl.
    by rewrite (list_insert_id cs idx c Hc).
Qed.

Lemma map_insert_same {A B} (f : A → B) (xs : list A) (i : nat) (x y : A) :
  xs !! i = Some x → f y = f x → map f (<[i := y]> xs) = map f xs.
Proof.
  revert i. induction xs as [|x0 xs IH]; intros [|i] Hi Hf; simplify_eq/=; [congruence|].
  f_equal. by apply IH.
Qed.

(** X14: inserting a key the tree already holds replaces the value in place:
    the tree keeps its root and its shape, no leaf is split or added, and
    every leaf keeps its keys and its link to the next leaf. *)
Theorem BPlusTree_update_in_place (tree_order : Z) (ops : list (Z * V)) key value :
  key ∈ map fst ops →
  ∃ t t', BPlusTree_inserts (BPlusTree_new tree_order) ops = Ok t ∧
          BPlusTree_insert t key value = Ok t' ∧
          tree_root t' = tree_root t ∧
          map keys (leaf_heap t') = map keys (leaf_heap t) ∧
          map next_leaf (leaf_heap t') = map next_leaf (leaf_heap t).
Proof.
  intros Hkey.
  destruct (BPlusTree_built tree_order ops) as (t & Hrun & Hinv & _ & _ & _ & Hkeys).
  apply Hkeys in Hkey. destruct Hinv as (Hbst & _).
  assert (stored_below (leaf_heap t) (tree_root t) key) as Hstored.
  { apply list_elem_of_fmap in Hkey as ([k v] & -> & Hkv).
    unfold tree_contents, contents in Hkv.
    apply elem_of_flat_map in Hkv as (l & Hl & Hkv). unfold leaf_entries in Hkv.
    destruct (leaf_heap t !! l) as [lf|] eqn:Hlf; [|by apply elem_of_nil in Hkv].
    exists l, lf. split_and!; [done..|]. unfold entries in Hkv.
    by apply elem_of_zip_l in Hkv. }
  destruct (Node_insert_update (order t) (tree_root t) (leaf_heap t) NegInf PosInf
              key value Hbst ltac:(bounds) Hstored) as (l & lf & pos & Hl & Hins).
  exists t, (mkBPlusTree (order t) (tree_root t)
               (<[l := with_value lf pos value]> (leaf_heap t))).
  split_and!; [done| |done| |].
  - unfold BPlusTree_insert. by rewrite Hins.
  - simpl. by apply (map_insert_same keys _ _ lf).
  - simpl. by apply (map_insert_same next_leaf _ _ lf).
Qed.
End update.

Lemma BPlusTree_update_in_place_witness :
  ∃ t t', BPlusTree_inserts (BPlusTree_new 4)
            [(1, 10); (2, 20); (3, 30); (4, 40); (5, 50)] = Ok t ∧
          BPlusTree_insert t 3 33 = Ok t' ∧
          tree_root t' = tree_root t ∧
          map keys (leaf_heap t') = map keys (leaf_heap t) ∧
          map next_leaf (leaf_heap t') = map next_leaf (leaf_heap t).
Proof.
  apply (BPlusTree_update_in_place (V:=Z) 4
           [(1, 10); (2, 20); (3, 30); (4, 40); (5, 50)] 3 33).
  simpl. rewrite !elem_of_cons. auto.
Defined.

(** ** engine.py: what [_load_documents] builds *)

(** How often [w] occurs in [words] *)
Definition occurrences (w : pystr) (words : list pystr) : nat :=
  length (List.filter (λ w', bool_decide (w' = w)) words).

(** [table] counts the words of [words]. *)
Definition counts_words (words : list pystr) (table : list (pystr * Z)) : Prop :=
  (∀ w, default 0 (dict_get w table) = Z.of_nat (occurrences w words)) ∧
  foldr Z.add 0 (map snd table) = Z.of_nat (length words).

Section dict_sums.
Context `{EqDecision K}.
Implicit Types (d : list (K * Z)) (k : K).

Lemma dict_set_sum d k (v : Z) :
  foldr Z.add 0 (map snd (dict_set k v d))
  = foldr Z.add 0 (map snd d) - default 0 (dict_get k d) + v.
Proof.
  induction d as [|[k' v'] d IH]; simpl; [lia|].
  destruct (decide (k' = k)); simpl; [lia|]. rewrite IH. lia.
Qed.
End dict_sums.

Section load_facts.
Variables (lower strip : pystr → pystr) (re_findall_words : pystr → list pystr).
Implicit Types (e : SearchEngine) (d : Document) (files : list Document)
  (w : pystr) (words : list pystr).

Definition doc_tokens d : list pystr :=
  SearchEngine_tokenize lower re_findall_words (plain_text d).

(** The metadata [_load_documents] stores for a document *)
Definition doc_metadata d : Metadata :=
  mkMetadata (file_title d) (file_path d) (file_url d)
             (Z.of_nat (length (doc_tokens d))) (plain_text d).

Lemma elem_of_set_add (x y : Z) (s : list Z) : y ∈ set_add x s ↔ y ∈ s ∨ y = x.
Proof.
  unfold set_add. case_bool_decide as Hx.
  - split; [by left|]. by intros [?| ->].
  - by rewrite elem_of_app, list_elem_of_singleton.
Qed.

Lemma set_add_NoDup (x : Z) (s : list Z) : NoDup s → NoDup (set_add x s).
Proof.
  intros Hs. unfold set_add. case_bool_decide as Hx; [done|].
  apply NoDup_app. split_and!; [done| |apply NoDup_singleton].
  by intros y Hy ->%list_elem_of_singleton.
Qed.

Lemma occurrences_cons w w' words :
  occurrences w (w' :: words)
  = ((if decide (w' = w) then 1 else 0) + occurrences w words)%nat.
Proof.
  unfold occurrences. simpl. case_bool_decide; by destruct (decide (w' = w)).
Qed.

(** The loop over the words of one document *)
Lemma count_words_spec (doc_id : Z) words : ∀ term_freq index term_freq' index',
  foldl (count_word doc_id) (term_freq, index) words = (term_freq', index') →
  (∀ w, default 0 (dict_get w term_freq')
        = default 0 (dict_get w term_freq) + Z.of_nat (occurrences w words)) ∧
  foldr Z.add 0 (map snd term_freq')
  = foldr Z.add 0 (map snd term_freq) + Z.of_nat (length words) ∧
  (∀ w k, k ∈ default [] (dict_get w index') ↔
          k ∈ default [] (dict_get w index) ∨ (k = doc_id ∧ w ∈ words)) ∧
  ((∀ w, NoDup (default [] (dict_get w index))) →
   ∀ w, NoDup (default [] (dict_get w index'))).
Proof.
  induction words as [|w0 words IH]; intros tf idx tf' idx'; simpl.
  - intros [= <- <-]. split_and!; [intros; unfold occurrences; simpl; lia|lia| |done].
    intros w k. split; [by left|]. by intros [?|[_ ?%elem_of_nil]].
  - intros Hrun. destruct (IH _ _ _ _ Hrun) as (Hcount & Hsum & Hidx & Hnd).
    split_and!.
    + intros w. rewrite Hcount, dict_get_set, occurrences_cons.
      destruct (decide (w0 = w)) as [->|Hne]; simpl; lia.
    + rewrite Hsum, dict_set_sum. lia.
    + intros w k. rewrite Hidx, dict_get_set.
      destruct (decide (w0 = w)) as [->|Hne]; simpl.
      * rewrite elem_of_set_add, elem_of_cons. split.
        -- intros [[?| ->]|[-> ?]]; auto.
        -- intros [?|[-> [_|?]]]; auto.
      * rewrite elem_of_cons. split.
        -- intros [?|[-> ?]]; auto.
        -- intros [?|[-> [?|?]]]; [auto|congruence|auto].
    + intros Hnd0. apply Hnd. intros w. rewrite dict_get_set.
      destruct (decide (w0 = w)); simpl; [|done]. by apply set_add_NoDup.
Qed.

(** An engine that has loaded [files], first to last *)
Definition loaded_inv files e : Prop :=
  doc_ids e = map (λ i, Z.of_nat i + 1) (seq 0 (length files)) ∧
  tree_inv (b_plus_tree e) ∧
  (∀ k, alookup k (tree_contents (b_plus_tree e))
        = if decide (1 ≤ k) then doc_metadata <$> files !! Z.to_nat (k - 1) else None) ∧
  (∀ w k, k ∈ default [] (dict_get w (inverted_index e)) ↔
          ∃ (i : nat) d, files !! i = Some d ∧ k = Z.of_nat i + 1 ∧ w ∈ doc_tokens d) ∧
  (∀ w, NoDup (default [] (dict_get w (inverted_index e)))) ∧
  (∀ (i : nat) d, files !! i = Some d →
     ∃ table, dict_get (Z.of_nat i + 1) (doc_term_frequency e) = Some table ∧
              counts_words (doc_tokens d) table) ∧
  map fst (doc_term_frequency e) = doc_ids e ∧
  graph e = DocumentGraph_new.

Lemma loaded_inv_empty :
  loaded_inv [] (mkSearchEngine Trie_new (BPlusTree_new 4) DocumentGraph_new [] [] []).
Proof.
  split_and!; simpl; try done.
  - apply BPlusTree_new_inv.
  - intros k. by destruct (decide (1 ≤ k)).
  - intros w k. split; [by intros ?%elem_of_nil|]. by intros (i & d & ? & _).
  - intros w. apply NoDup_nil_2.
Qed.

Lemma index_document_inv files e d :
  loaded_inv files e →
  loaded_inv (files ++ [d]) (SearchEngine_index_document lower re_findall_words e d).
Proof using Type.
  intros (Hids & Hinv & Hstore & Hidx & Hnd & Htf & Hkeys & Hgraph).
  unfold SearchEngine_index_document. cbv zeta.
  fold (doc_tokens d). fold (doc_metadata d).
  assert (Z.of_nat (length (doc_ids e)) + 1 = Z.of_nat (length files) + 1) as ->.
  { by rewrite Hids, length_map, length_seq. }
  set (doc_id := Z.of_nat (length files) + 1).
  set (words := doc_tokens d).
  destruct (foldl (count_word doc_id) ([], inverted_index e) words)
    as [term_freq index] eqn:Hcount.
  destruct (count_words_spec _ _ _ _ _ _ Hcount) as (Hc & Hsum & Hidx' & Hnd').
  destruct (BPlusTree_insert_spec (b_plus_tree e) doc_id (doc_metadata d) Hinv)
    as (tree' & -> & Hinv' & _ & Hcontents).
  split_and!; simpl.
  - rewrite Hids, length_app. simpl. rewrite Nat.add_1_r, seq_S, map_app. done.
  - done.
  - intros k. rewrite Hcontents, alookup_ainsert, Hstore.
    destruct (decide (doc_id = k)) as [<-|Hne].
    + rewrite decide_True by (unfold doc_id; lia).
      replace (Z.to_nat (doc_id - 1)) with (length files) by (unfold doc_id; lia).
      by rewrite list_lookup_middle.
    + destruct (decide (1 ≤ k)); [|done]. f_equal.
      destruct (decide (Z.to_nat (k - 1) < length files)%nat).
      * by rewrite lookup_app_l.
      * rewrite !lookup_ge_None_2; [done| |lia].
        rewrite length_app. simpl. unfold doc_id in Hne. lia.
  - intros w k. rewrite Hidx', Hidx. split.
    + intros [(i & d' & Hi & -> & Hw)|[-> Hw]].
      * exists i, d'. split; [|done]. rewrite lookup_app_l; [done|].
        by eapply lookup_lt_Some.
      * exists (length files), d. by rewrite list_lookup_middle.
    + intros (i & d' & Hi & -> & Hw).
      apply lookup_app_Some in Hi as [Hi|[Hge Hi]].
      * left. by exists i, d'.
      * right. apply list_lookup_singleton_Some in Hi as [Hi ->].
        split; [unfold doc_id; lia|done].
  - by apply Hnd'.
  - intros i d' Hi. rewrite dict_get_set.
    apply lookup_app_Some in Hi as [Hi|[Hge Hi]].
    + rewrite decide_False.
      * by apply Htf.
      * apply lookup_lt_Some in Hi. unfold doc_id. lia.
    + apply list_lookup_singleton_Some in Hi as [Hi ->].
      rewrite decide_True by (unfold doc_id; lia).
      exists term_freq. split; [done|]. split.
      * intros w. by rewrite Hc.
      * by rewrite Hsum.
  - rewrite dict_set_keys.
    destruct (dict_get doc_id (doc_term_frequency e)) as [table|] eqn:Hget.
    + assert (doc_id ∈ doc_ids e) as Hin.
      { rewrite <-Hkeys. apply dict_get_is_Some. by eexists. }
      rewrite Hids in Hin. apply list_elem_of_fmap in Hin as (i & Hi & Hin).
      apply elem_of_seq in Hin. unfold doc_id in Hi. lia.
    + by rewrite Hkeys.
  - done.
Qed.

Lemma load_documents_inv files : ∀ pre e,
  loaded_inv pre e →
  loaded_inv (pre ++ files) (SearchEngine_load_documents lower re_findall_words e files).
Proof using Type.
  induction files as [|d files IH]; intros pre e He; simpl.
  - by rewrite app_nil_r.
  - rewrite (assoc_L (++) pre [d] files) || rewrite cons_middle, app_assoc.
    apply IH. by apply index_document_inv.
Qed.
End load_facts.

(** ** engine.py: the citations [_generate_citations] draws *)

Section random_facts.
Implicit Types (r : rng) (population : list Z).

Lemma random_randint_ok (a b : Z) r :
  a ≤ b → ∃ n r', random_randint a b r = Ok (n, r') ∧ a ≤ n ≤ b.
Proof.
  intros Hab. unfold random_randint.
  destruct (Z.ltb_spec b a) as [?|_]; [lia|].
  destruct (rng_next r) as [x r']. eexists _, _. split; [done|].
  pose proof (Z.mod_pos_bound (Z.of_nat x) (b - a + 1) ltac:(lia)). lia.
Qed.

Lemma NoDup_lookup_delete population (i : nat) (v : Z) :
  NoDup population → population !! i = Some v → v ∉ delete i population.
Proof.
  intros Hnd Hi. rewrite <-(take_drop_middle population i v Hi) in Hnd.
  apply NoDup_app in Hnd as (_ & Hdisj & [Hv _]%NoDup_cons).
  rewrite delete_take_drop. intros [Hin|Hin]%elem_of_app; [|done].
  apply (Hdisj v Hin). left.
Qed.

Lemma random_sample_ok (k : nat) : ∀ population r,
  (k ≤ length population)%nat → NoDup population →
  ∃ cited r', random_sample population k r = Ok (cited, r') ∧
              length cited = k ∧ NoDup cited ∧ ∀ c, c ∈ cited → c ∈ population.
Proof.
  induction k as [|k IH]; intros population r Hk Hnd; simpl.
  - exists [], r. split_and!; [done..|apply NoDup_nil_2|]. by intros c ?%elem_of_nil.
  - destruct (rng_next r) as [x r1].
    assert (x mod length population < length population)%nat as Hlt
      by (apply Nat.mod_upper_bound; lia).
    destruct (lookup_lt_is_Some_2 population _ Hlt) as [v Hv]. rewrite Hv.
    destruct (IH (delete (x mod length population)%nat population) r1)
      as (rest & r2 & -> & Hlen & Hnd' & Hsub).
    { rewrite length_delete by by eexists. lia. }
    { eapply sublist_NoDup; [done|apply sublist_delete]. }
    simpl. exists (v :: rest), r2. split_and!; [done|simpl; lia| |].
    + apply NoDup_cons. split; [|done]. intros Hin%Hsub.
      exact (NoDup_lookup_delete population _ v Hnd Hv Hin).
    + intros c [->|Hc%Hsub]%elem_of_cons.
      * by eapply list_elem_of_lookup_2.
      * by eapply list_elem_of_delete_inv.
Qed.

Lemma others_spec (ids : list Z) (from_doc : Z) :
  NoDup ids → from_doc ∈ ids →
  let others := List.filter (λ d, negb (bool_decide (d = from_doc))) ids in
  NoDup others ∧ S (length others) = length ids ∧
  ∀ c, c ∈ others ↔ c ∈ ids ∧ c ≠ from_doc.
Proof.
  intros Hnd Hin others. split_and!.
  - unfold others. clear Hin others.
    induction Hnd as [|x ids Hx Hnd IH]; simpl; [apply NoDup_nil_2|].
    destruct (negb (bool_decide (x = from_doc))); [|done].
    apply NoDup_cons. split; [|done].
    rewrite list_elem_of_In, filter_In, <-list_elem_of_In. by intros [? _].
  - unfold others. clear others. induction Hnd as [|x ids Hx Hnd IH]; [by apply elem_of_nil in Hin|].
    simpl. case_bool_decide as Heq; simpl.
    + subst x. f_equal.
      rewrite (forallb_filter_id _ ids); [done|].
      apply forallb_forall. intros y Hy. apply negb_true_iff, bool_decide_eq_false.
      intros ->. by apply Hx, list_elem_of_In.
    + f_equal. apply IH. apply elem_of_cons in Hin as [?|?]; [congruence|done].
  - intros c. unfold others. rewrite list_elem_of_In, filter_In, <-list_elem_of_In.
    rewrite negb_true_iff, bool_decide_eq_false. done.
Qed.
End random_facts.

(** Where the loop of [_generate_citations] stands once the documents of
    [cited_from] have drawn their citations. *)
Definition citations_inv (ids cited_from : list Z) (g : DocumentGraph) : Prop :=
  graph_wf g ∧
  (∀ a b, has_link (adjacency_list g) a b → a ∈ cited_from ∧ b ∈ ids ∧ a ≠ b) ∧
  (∀ a, a ∈ cited_from →
        ∃ outs, dict_get a (adjacency_list g) = Some outs ∧ (2 ≤ length outs ≤ 4)%nat) ∧
  (∀ w, w ∈ map fst (adjacency_list g) → w ∈ ids) ∧
  pagerank_scores g = [].

Section citation_facts.
Implicit Types (g : DocumentGraph) (r : rng) (ids : list Z).

Lemma add_links_spec edges : ∀ g,
  graph_wf g →
  ∃ g', add_links g edges = Ok g' ∧ graph_wf g' ∧
        (∀ a b, has_link (adjacency_list g') a b ↔
                has_link (adjacency_list g) a b ∨ (a, b) ∈ edges) ∧
        (∀ w, w ∈ map fst (adjacency_list g') ↔
              w ∈ map fst (adjacency_list g) ∨
              ∃ a b, (a, b) ∈ edges ∧ (w = a ∨ w = b)) ∧
        pagerank_scores g' = pagerank_scores g.
Proof.
  unfold add_links. induction edges as [|[u v] edges IH]; intros g Hg; simpl.
  - exists g. split_and!; [done..| | |done].
    + intros a b. split; [by left|]. by intros [?|?%elem_of_nil].
    + intros w. split; [by left|]. by intros [?|(? & ? & ?%elem_of_nil & _)].
  - destruct (add_link_spec g u v Hg) as (g1 & -> & Hg1 & Hlinks1 & Hnodes1 & Hsc1).
    simpl. destruct (IH g1 Hg1) as (g' & -> & Hg' & Hlinks & Hnodes & Hsc).
    exists g'. split_and!; [done..| | |congruence].
    + intros a b. rewrite Hlinks, Hlinks1, elem_of_cons. split.
      * intros [[?|[-> ->]]|?]; auto.
      * intros [?|[[= -> ->]|?]]; auto.
    + intros w. rewrite Hnodes, Hnodes1. split.
      * intros [[?| Hw]|(a & b & Hin & Hw)]; [by left| |].
        -- right. exists u, v. split; [left|done].
        -- right. exists a, b. split; [by right|done].
      * intros [?|(a & b & [[= -> ->]|Hin]%elem_of_cons & Hw)]; [auto|auto|].
        right. by exists a, b.
Qed.

Lemma cite_from_spec ids g r from_doc :
  graph_wf g → NoDup ids → from_doc ∈ ids → (3 ≤ length ids)%nat →
  ∃ g' r' cited,
    cite_from ids (g, r) from_doc = Ok (g', r') ∧ graph_wf g' ∧
    (2 ≤ length cited ≤ 4)%nat ∧ NoDup cited ∧
    (∀ c, c ∈ cited → c ∈ ids ∧ c ≠ from_doc) ∧
    (∀ a b, has_link (adjacency_list g') a b ↔
            has_link (adjacency_list g) a b ∨ (a = from_doc ∧ b ∈ cited)) ∧
    (∀ w, w ∈ map fst (adjacency_list g') ↔
          w ∈ map fst (adjacency_list g) ∨ w = from_doc ∨ w ∈ cited) ∧
    pagerank_scores g' = pagerank_scores g.
Proof.
  intros Hg Hnd Hin Hlen. unfold cite_from.
  destruct (random_randint_ok 2 (Z.min 4 (Z.of_nat (length ids) - 1)) r)
    as (n & r1 & -> & Hn); [lia|]. simpl.
  destruct (others_spec ids from_doc Hnd Hin) as (Hnd' & Hlen' & Hothers).
  set (others := List.filter (λ d, negb (bool_decide (d = from_doc))) ids) in *.
  destruct (random_sample_ok (Z.to_nat (Z.min n (Z.of_nat (length others)))) others r1)
    as (cited & r2 & -> & Hk & Hndc & Hsub); [lia|done|]. simpl.
  destruct (add_links_spec (map (λ to_doc, (from_doc, to_doc)) cited) g Hg)
    as (g' & -> & Hg' & Hlinks & Hnodes & Hsc). simpl.
  assert (∀ a b, (a, b) ∈ map (λ to_doc, (from_doc, to_doc)) cited ↔
                 a = from_doc ∧ b ∈ cited) as Hedges.
  { intros a b. rewrite list_elem_of_fmap. split.
    - by intros (c & [= -> ->] & Hc).
    - intros [-> Hb]. by exists b. }
  exists g', r2, cited. split_and!; [done|done|lia|lia|done| | | |done].
  - intros c Hc. by apply Hothers, Hsub.
  - intros a b. by rewrite Hlinks, Hedges.
  - intros w. rewrite Hnodes. split.
    + intros [?|(a & b & [-> Hb]%Hedges & [->| ->])]; auto.
    + intros [?|[->|Hw]]; [by left| |].
      * destruct cited as [|c cited]; [simpl in Hk; lia|].
        right. exists from_doc, c. split; [|by left]. apply Hedges. split; [done|left].
      * right. exists from_doc, w. split; [|by right]. by apply Hedges.
Qed.

Lemma outs_length g g' a outs outs' :
  graph_wf g → graph_wf g' →
  dict_get a (adjacency_list g) = Some outs →
  dict_get a (adjacency_list g') = Some outs' →
  (∀ b, has_link (adjacency_list g') a b ↔ has_link (adjacency_list g) a b) →
  length outs' = length outs.
Proof.
  intros Hg Hg' Ha Ha' Hsame. apply Permutation_length, NoDup_Permutation.
  - by apply (wf_outs g' Hg' a).
  - by apply (wf_outs g Hg a).
  - intros b. split.
    + intros Hb. destruct (proj1 (Hsame b)) as (l & Hl & ?); [by exists outs'|].
      congruence.
    + intros Hb. destruct (proj2 (Hsame b)) as (l & Hl & ?); [by exists outs|].
      congruence.
Qed.

Lemma cite_from_inv ids cited_from g r from_doc :
  citations_inv ids cited_from g → NoDup ids → (3 ≤ length ids)%nat →
  from_doc ∈ ids → from_doc ∉ cited_from →
  ∃ g' r', cite_from ids (g, r) from_doc = Ok (g', r') ∧
           citations_inv ids (cited_from ++ [from_doc]) g'.
Proof.
  intros (Hg & Hlinks & Hdeg & Hnodes & Hsc) Hnd Hlen Hin Hfresh.
  destruct (cite_from_spec ids g r from_doc Hg Hnd Hin Hlen)
    as (g' & r' & cited & Hrun & Hg' & Hk & Hndc & Hcited & Hlinks' & Hnodes' & Hsc').
  exists g', r'. split; [done|]. split_and!; [done| | | |congruence].
  - intros a b [Hab|[-> Hb]]%Hlinks'.
    + destruct (Hlinks a b Hab) as (? & ? & ?). split_and!; [|done..].
      apply elem_of_app. by left.
    + destruct (Hcited b Hb). split_and!; [|done..].
      apply elem_of_app. right. left.
  - intros a [Ha| ->%list_elem_of_singleton]%elem_of_app.
    + destruct (Hdeg a Ha) as (outs & Houts & Hlen_outs).
      assert (is_Some (dict_get a (adjacency_list g'))) as [outs' Houts'].
      { apply dict_get_is_Some, Hnodes'. left. apply dict_get_is_Some. by eexists. }
      exists outs'. split; [done|].
      rewrite (outs_length g g' a outs outs'); [done..|].
      intros b. rewrite Hlinks'. split; [|by left].
      intros [?|[-> _]]; done.
    + assert (is_Some (dict_get from_doc (adjacency_list g'))) as [outs' Houts'].
      { apply dict_get_is_Some, Hnodes'. auto. }
      exists outs'. split; [done|].
      assert (outs' ≡ₚ cited) as ->; [|done].
      apply NoDup_Permutation; [by apply (wf_outs g' Hg' from_doc)|done|].
      intros b. split.
      * intros Hb. destruct (proj1 (Hlinks' from_doc b)) as [Hold|[_ ?]];
          [by exists outs'| |done].
        by destruct (Hlinks _ _ Hold) as (? & _).
      * intros Hb. destruct (proj2 (Hlinks' from_doc b)) as (l & Hl & ?); [by right|].
        congruence.
  - intros w [Hw|[->|Hw]]%Hnodes'; [by apply Hnodes|done|by apply Hcited].
Qed.

Lemma generate_citations_inv ids (froms : list Z) : ∀ cited_from g r,
  citations_inv ids cited_from g → NoDup ids → (3 ≤ length ids)%nat →
  NoDup (cited_from ++ froms) → (∀ f, f ∈ froms → f ∈ ids) →
  ∃ g' r', for_each (cite_from ids) froms (g, r) = Ok (g', r') ∧
           citations_inv ids (cited_from ++ froms) g'.
Proof.
  induction froms as [|f froms IH]; intros cited_from g r Hinv Hnd Hlen Hfresh Hsub.
  - exists g, r. by rewrite app_nil_r.
  - rewrite for_each_cons.
    destruct (cite_from_inv ids cited_from g r f Hinv Hnd Hlen) as (g1 & r1 & -> & Hinv1).
    { apply Hsub. left. }
    { apply NoDup_app in Hfresh as (_ & Hdisj & _). intros Hf.
      apply (Hdisj f Hf). left. }
    simpl. rewrite (cons_middle f cited_from froms), app_assoc in Hfresh |- *.
    apply IH; [done..|]. intros f' Hf'. apply Hsub. by right.
Qed.

Lemma citations_inv_new ids : citations_inv ids [] DocumentGraph_new.
Proof.
  split_and!; [apply DocumentGraph_new_wf| | | |done].
  - by intros a b (l & ? & _).
  - by intros a ?%elem_of_nil.
  - by intros w ?%elem_of_nil.
Qed.

(** With every document citing, no node is dangling and the scores add up
    to 1. *)
Lemma citations_pagerank ids g damping_factor max_iterations tolerance :
  citations_inv ids ids g → ids ≠ [] →
  ∃ scores,
    calculate_pagerank g damping_factor max_iterations tolerance
    = Ok (mkDocumentGraph (adjacency_list g) (incoming_links g) scores, scores) ∧
    map fst scores = map fst (adjacency_list g) ∧
    (sum_scores scores == 1)%Q ∧
    ∀ k, k ∈ map fst (adjacency_list g) ↔ k ∈ ids.
Proof.
  intros (Hg & Hlinks & Hdeg & Hnodes & Hsc) Hne.
  assert (∀ k, k ∈ map fst (adjacency_list g) ↔ k ∈ ids) as Hsame.
  { intros k. split; [apply Hnodes|]. intros Hk.
    destruct (Hdeg k Hk) as (outs & Houts & _). apply dict_get_is_Some. by eexists. }
  assert (adjacency_list g ≠ []) as Hadj.
  { destruct ids as [|k ids]; [done|]. intros Hnil.
    assert (k ∈ map fst (adjacency_list g)) as Hk by (apply Hsame; left).
    rewrite Hnil in Hk. by apply elem_of_nil in Hk. }
  assert (Forall (λ kv, kv.2 ≠ []) (adjacency_list g)) as Hout.
  { apply Forall_forall. intros [k outs] Hin. simpl.
    assert (k ∈ ids) as Hk.
    { apply Hnodes. by apply (list_elem_of_fmap_2 fst) in Hin. }
    destruct (Hdeg k Hk) as (outs' & Houts' & Hlen).
    rewrite (dict_In_get _ _ _ (wf_nodes g Hg) Hin) in Houts'.
    injection Houts' as <-. by destruct outs; [simpl in Hlen; lia|]. }
  destruct (calculate_pagerank_ok g damping_factor Hg (λ s, sum_scores s == 1)%Q
              max_iterations tolerance) as (scores & Hrun & Hkeys & Hsum).
  - done.
  - intros cur Hkeys Hsum. rewrite next_scores_sum, Hsum by done. ring.
  - by apply initial_scores_sum.
  - by exists scores.
Qed.
End citation_facts.

(** ** engine.py: the constructor *)

Section init_facts.
Variables (lower strip : pystr → pystr) (re_findall_words : pystr → list pystr).
Implicit Types (e : SearchEngine) (d : Document) (files : list Document) (r : rng).

Definition loaded files : SearchEngine :=
  SearchEngine_load_documents lower re_findall_words
    (mkSearchEngine Trie_new (BPlusTree_new 4) DocumentGraph_new [] [] []) files.

Lemma loaded_spec files : loaded_inv lower re_findall_words files (loaded files).
Proof using Type.
  apply (load_documents_inv lower re_findall_words files []), loaded_inv_empty.
Qed.

Lemma doc_ids_loaded files :
  doc_ids (loaded files) = map (λ i, Z.of_nat i + 1) (seq 0 (length files)).
Proof using Type. apply loaded_spec. Qed.

Lemma doc_ids_NoDup files : NoDup (doc_ids (loaded files)).
Proof using Type.
  rewrite doc_ids_loaded. apply NoDup_fmap_2; [|apply NoDup_seq].
  intros i j Hij. lia.
Qed.

Lemma doc_ids_length files : length (doc_ids (loaded files)) = length files.
Proof using Type. by rewrite doc_ids_loaded, length_map, length_seq. Qed.

Lemma elem_of_doc_ids files k :
  k ∈ doc_ids (loaded files) ↔ 1 ≤ k ≤ Z.of_nat (length files).
Proof using Type.
  rewrite doc_ids_loaded, list_elem_of_fmap. setoid_rewrite elem_of_seq. split.
  - intros (i & -> & Hi). lia.
  - intros Hk. exists (Z.to_nat (k - 1)). lia.
Qed.

(** What the constructor returns *)
Lemma init_loaded r files e :
  SearchEngine_init lower re_findall_words r files = Ok e →
  e = mkSearchEngine (trie (loaded files)) (b_plus_tree (loaded files)) (graph e)
        (inverted_index (loaded files)) (doc_term_frequency (loaded files))
        (doc_ids (loaded files)).
Proof using Type.
  intros Hinit. by destruct (init_inv lower re_findall_words r files e Hinit)
    as (g & scores & _ & _ & He).
Qed.

Lemma init_few r files :
  (length files ≤ 1)%nat →
  SearchEngine_init lower re_findall_words r files
  = Ok (mkSearchEngine (trie (loaded files)) (b_plus_tree (loaded files))
          DocumentGraph_new (inverted_index (loaded files))
          (doc_term_frequency (loaded files)) (doc_ids (loaded files))).
Proof using Type.
  intros Hlen. unfold SearchEngine_init. fold (loaded files).
  unfold SearchEngine_generate_citations. rewrite doc_ids_length.
  destruct (Nat.ltb_spec (length files) 2); [|lia]. simpl.
  unfold SearchEngine_calculate_authority_scores.
  destruct (loaded_spec files) as (_ & _ & _ & _ & _ & _ & _ & ->). done.
Qed.

Lemma init_two r files :
  length files = 2%nat →
  SearchEngine_init lower re_findall_words r files = Raise ValueError.
Proof using Type.
  intros Hlen. unfold SearchEngine_init. fold (loaded files).
  unfold SearchEngine_generate_citations. rewrite doc_ids_length, Hlen. simpl.
  pose proof (doc_ids_length files) as Hids. rewrite Hlen in Hids.
  assert (∀ st from_doc,
            cite_from (doc_ids (loaded files)) st from_doc = Raise ValueError) as Hcite.
  { intros [g r'] from_doc. unfold cite_from. by rewrite Hids. }
  destruct (doc_ids (loaded files)) as [|k ids]; [done|].
  by rewrite for_each_cons, Hcite.
Qed.

Lemma init_many r files :
  (3 ≤ length files)%nat →
  ∃ g scores,
    citations_inv (doc_ids (loaded files)) (doc_ids (loaded files)) g ∧
    map fst scores = map fst (adjacency_list g) ∧
    (sum_scores scores == 1)%Q ∧
    SearchEngine_init lower re_findall_words r files
    = Ok (mkSearchEngine (trie (loaded files)) (b_plus_tree (loaded files))
            (mkDocumentGraph (adjacency_list g) (incoming_links g) scores)
            (inverted_index (loaded files)) (doc_term_frequency (loaded files))
            (doc_ids (loaded files))).
Proof using Type.
  intros Hlen. unfold SearchEngine_init. fold (loaded files).
  unfold SearchEngine_generate_citations. rewrite doc_ids_length.
  destruct (Nat.ltb_spec (length files) 2); [lia|].
  destruct (loaded_spec files) as (_ & _ & _ & _ & _ & _ & _ & Hgraph).
  destruct (generate_citations_inv (doc_ids (loaded files)) (doc_ids (loaded files))
              [] (graph (loaded files)) r) as (g & r' & -> & Hinv).
  - rewrite Hgraph. apply citations_inv_new.
  - apply doc_ids_NoDup.
  - by rewrite doc_ids_length.
  - apply doc_ids_NoDup.
  - done.
  - simpl in Hinv. simpl.
    destruct (citations_pagerank _ g default_damping_factor default_max_iterations
                default_tolerance Hinv) as (scores & Hrun & Hkeys & Hsum & _).
    { intros Hnil. pose proof (doc_ids_length files) as Hl. rewrite Hnil in Hl.
      simpl in Hl. lia. }
    exists g, scores. split_and!; [done..|].
    unfold SearchEngine_calculate_authority_scores. simpl. by rewrite Hrun.
Qed.

(** X15: the constructor fails on a directory of exactly two documents:
    [_generate_citations] asks [random.randint(2, 1)] for the number of
    citations, which raises [ValueError].  With any other number of
    documents it returns an engine, whatever the draws. *)
Theorem constructor_raises_on_exactly_two_documents r files :
  (length files = 2%nat →
   SearchEngine_init lower re_findall_words r files = Raise ValueError) ∧
  (length files ≠ 2%nat →
   ∃ e, SearchEngine_init lower re_findall_words r files = Ok e).
Proof using Type.
  split; [apply init_two|]. intros Hlen.
  destruct (le_lt_dec (length files) 1) as [Hfew|Hmany].
  - rewrite init_few by done. by eexists.
  - destruct (init_many r files) as (g & scores & _ & _ & _ & ->); [lia|]. by eexists.
Qed.

(** X16: with three documents or more, the graph's nodes are the documents, and
    every document cites two to four others: never itself, none twice. *)
Theorem every_document_cites_two_to_four_others r files e :
  SearchEngine_init lower re_findall_words r files = Ok e →
  (3 ≤ length files)%nat →
  (∀ k, k ∈ map fst (adjacency_list (graph e)) ↔ k ∈ doc_ids e) ∧
  ∀ k, k ∈ doc_ids e →
       ∃ outs, dict_get k (adjacency_list (graph e)) = Some outs ∧
               (2 ≤ length outs ≤ 4)%nat ∧ NoDup outs ∧ (k ∉ outs) ∧
               ∀ c, c ∈ outs → c ∈ doc_ids e.
Proof using Type.
  intros Hinit Hlen.
  destruct (init_many r files Hlen) as (g & scores & Hinv & _ & _ & Hrun).
  rewrite Hrun in Hinit. injection Hinit as <-. simpl.
  destruct Hinv as (Hg & Hlinks & Hdeg & Hnodes & _). split.
  - intros k. split; [apply Hnodes|]. intros Hk.
    destruct (Hdeg k Hk) as (outs & Houts & _). apply dict_get_is_Some. by eexists.
  - intros k Hk. destruct (Hdeg k Hk) as (outs & Houts & Hlen_outs).
    exists outs. split_and!; [done|lia|lia|by apply (wf_outs g Hg k)| |].
    + intros Hin. destruct (Hlinks k k) as (_ & _ & ?); [by exists outs|done].
    + intros c Hc. by destruct (Hlinks k c) as (_ & ? & _); [by exists outs|].
Qed.

(** X17: the authority scores of an engine: none with fewer than two documents
    (every authority score is then 0); with three or more, one for each
    document, adding up to 1. *)
Theorem authority_scores_sum_to_one r files e :
  SearchEngine_init lower re_findall_words r files = Ok e →
  ((length files ≤ 1)%nat → pagerank_scores (graph e) = []) ∧
  ((3 ≤ length files)%nat →
   (∀ k, k ∈ map fst (pagerank_scores (graph e)) ↔ k ∈ doc_ids e) ∧
   (sum_scores (pagerank_scores (graph e)) == 1)%Q).
Proof using Type.
  intros Hinit. split; intros Hlen.
  - rewrite init_few in Hinit by done. by injection Hinit as <-.
  - destruct (init_many r files Hlen) as (g & scores & Hinv & Hkeys & Hsum & Hrun).
    rewrite Hrun in Hinit. injection Hinit as <-. simpl. split; [|done].
    intros k. rewrite Hkeys. destruct Hinv as (_ & _ & Hdeg & Hnodes & _).
    split; [apply Hnodes|]. intros Hk.
    destruct (Hdeg k Hk) as (outs & Houts & _). apply dict_get_is_Some. by eexists.
Qed.

(** X18: documents are numbered from 1 in the order they are loaded, and the
    store holds under each number the metadata of that document: its
    title, path, URL and text, and the number of its tokens as
    [word_count]. *)
Theorem documents_numbered_in_load_order r files e :
  SearchEngine_init lower re_findall_words r files = Ok e →
  doc_ids e = map (λ i, Z.of_nat i + 1) (seq 0 (length files)) ∧
  (∀ (i : nat) d, files !! i = Some d →
     BPlusTree_search (b_plus_tree e) (Z.of_nat i + 1)
     = Ok (Some (mkMetadata (file_title d) (file_path d) (file_url d)
                   (Z.of_nat (length (SearchEngine_tokenize lower re_findall_words
                                        (plain_text d))))
                   (plain_text d)))) ∧
  (∀ k, k < 1 ∨ Z.of_nat (length files) < k →
        BPlusTree_search (b_plus_tree e) k = Ok None).
Proof using Type.
  intros ->%init_loaded. simpl.
  destruct (loaded_spec files) as (Hids & Hinv & Hstore & _).
  split_and!; [done| |].
  - intros i d Hi. rewrite BPlusTree_search_spec, Hstore by done.
    rewrite decide_True by lia.
    replace (Z.to_nat (Z.of_nat i + 1 - 1)) with i by lia. by rewrite Hi.
  - intros k Hk. rewrite BPlusTree_search_spec, Hstore by done.
    destruct (decide (1 ≤ k)); [|done].
    rewrite lookup_ge_None_2; [done|lia].
Qed.

(** X19: the inverted index is exact: the entry of a word lists, each once, the
    documents whose tokens include the word, and no other document. *)
Theorem inverted_index_lists_documents_with_word r files e w :
  SearchEngine_init lower re_findall_words r files = Ok e →
  NoDup (default [] (dict_get w (inverted_index e))) ∧
  ∀ k, k ∈ default [] (dict_get w (inverted_index e)) ↔
       ∃ (i : nat) d, files !! i = Some d ∧ k = Z.of_nat i + 1 ∧
                      w ∈ SearchEngine_tokenize lower re_findall_words (plain_text d).
Proof using Type.
  intros ->%init_loaded. simpl.
  destruct (loaded_spec files) as (_ & _ & _ & Hidx & Hnd & _).
  split; [apply Hnd|apply Hidx].
Qed.
End init_facts.

(** ** engine.py: term frequency, [search], [autocomplete], snippets *)

Section term_frequency_facts.
Variables (lower strip : pystr → pystr) (re_findall_words : pystr → list pystr).
Implicit Types (e : SearchEngine) (d : Document) (files : list Document) (r : rng).

Lemma occurrences_le w words : (occurrences w words ≤ length words)%nat.
Proof. unfold occurrences. apply filter_length_le. Qed.

Lemma occurrences_pos w words : w ∈ words → (0 < occurrences w words)%nat.
Proof.
  induction words as [|w' words IH]; [by intros ?%elem_of_nil|].
  rewrite occurrences_cons. intros [->|Hin]%elem_of_cons.
  - rewrite decide_True by done. lia.
  - specialize (IH Hin). lia.
Qed.

Lemma share_bounds (a b : nat) :
  (a ≤ b)%nat → (0 < b)%nat →
  (0 <= inject_Z (Z.of_nat a) / inject_Z (Z.of_nat b) <= 1)%Q.
Proof.
  intros Hab Hb.
  assert (0 < inject_Z (Z.of_nat b))%Q as Hpos.
  { rewrite <-(Zlt_Qlt 0). lia. }
  split.
  - apply Qle_shift_div_l; [done|]. rewrite Qmult_0_l. rewrite <-(Zle_Qle 0). lia.
  - apply Qle_shift_div_r; [done|]. rewrite Qmult_1_l. rewrite <-Zle_Qle. lia.
Qed.

(** X20: the term frequency of a term in a document is the share of the
    document's tokens that equal the case-folded term: a number from 0 to
    1, and 0 for a document without tokens or a number that is not a
    document's. *)
Theorem term_frequency_is_share_of_tokens r files e (term : pystr) :
  SearchEngine_init lower re_findall_words r files = Ok e →
  (∀ (i : nat) d, files !! i = Some d →
     let tokens := SearchEngine_tokenize lower re_findall_words (plain_text d) in
     SearchEngine_calculate_term_frequency lower e (Z.of_nat i + 1) term
     = (if (0 <? Z.of_nat (length tokens))%Z
        then inject_Z (Z.of_nat (occurrences (lower term) tokens))
             / inject_Z (Z.of_nat (length tokens))
        else 0)%Q ∧
     (0 <= SearchEngine_calculate_term_frequency lower e (Z.of_nat i + 1) term <= 1)%Q) ∧
  (∀ k, k < 1 ∨ Z.of_nat (length files) < k →
        SearchEngine_calculate_term_frequency lower e k term = 0%Q).
Proof using Type.
  intros ->%init_loaded. unfold SearchEngine_calculate_term_frequency. simpl.
  destruct (loaded_spec lower re_findall_words files)
    as (Hids & _ & _ & _ & _ & Htf & Hkeys & _).
  split.
  - intros i d Hi. cbv zeta.
    destruct (Htf i d Hi) as (table & -> & Hcount & Hsum).
    fold (doc_tokens lower re_findall_words d).
    set (tokens := doc_tokens lower re_findall_words d) in *.
    rewrite Hcount, Hsum. split; [done|].
    destruct (Z.ltb_spec 0 (Z.of_nat (length tokens))); [|done].
    apply share_bounds; [apply occurrences_le|lia].
  - intros k Hk.
    destruct (dict_get k (doc_term_frequency (loaded lower re_findall_words files)))
      as [table|] eqn:Hget; [|done].
    assert (k ∈ doc_ids (loaded lower re_findall_words files)) as Hin.
    { rewrite <-Hkeys. apply dict_get_is_Some. by eexists. }
    apply elem_of_doc_ids in Hin. lia.
Qed.
End term_frequency_facts.

Section search_results.
Variables (lower strip : pystr → pystr) (re_findall_words : pystr → list pystr).
Implicit Types (e : SearchEngine) (d : Document) (files : list Document) (r : rng)
  (res : SearchResult) (results : list SearchResult).

Lemma sort_results_spec results :
  sort_results results ≡ₚ results ∧
  StronglySorted (λ a b, score b <= score a)%Q (sort_results results).
Proof.
  destruct results as [|res results]; [split; [done|constructor]|].
  unfold sort_results. by destruct (merge_sort_spec (res :: results)) as (? & ? & _).
Qed.

(** The loop of [search] over documents that the store holds: one result
    for each, in order. *)
Lemma score_documents_found e (search_term : pystr) (docs : list Z) : ∀ acc,
  (∀ k, k ∈ docs → ∃ md, BPlusTree_search (b_plus_tree e) k = Ok (Some md)) →
  ∃ results,
    for_each (score_document lower strip e search_term) docs acc = Ok (acc ++ results) ∧
    map doc_id results = docs ∧
    ∀ res, res ∈ results →
      ∃ md, BPlusTree_search (b_plus_tree e) (doc_id res) = Ok (Some md) ∧
            title res = md_title md ∧ url res = md_url md ∧
            snippet res
            = SearchEngine_extract_snippet lower strip (md_content md) search_term 150.
Proof using Type.
  induction docs as [|k docs IH]; intros acc Hfound.
  - exists []. rewrite app_nil_r. split_and!; [done..|]. by intros res ?%elem_of_nil.
  - rewrite for_each_cons. destruct (Hfound k) as [md Hmd]; [left|].
    assert (∃ res, score_document lower strip e search_term acc k = Ok (acc ++ [res]) ∧
                   doc_id res = k ∧ title res = md_title md ∧ url res = md_url md ∧
                   snippet res = SearchEngine_extract_snippet lower strip
                                   (md_content md) search_term 150)
      as (res0 & -> & Hk0 & Ht0 & Hu0 & Hs0).
    { unfold score_document. rewrite Hmd. simpl. by eexists. }
    simpl. destruct (IH (acc ++ [res0])) as (results & -> & Hids & Hres).
    { intros k' Hk'. apply Hfound. by right. }
    exists (res0 :: results). rewrite <-app_assoc. split_and!; [done| |].
    { simpl. by rewrite Hk0, Hids. }
    intros res [->|Hin]%elem_of_cons; [|by apply Hres].
    exists md. rewrite Hk0. by split_and!.
Qed.

(** X21: [search] answers with the documents whose tokens include the search
    term (the case-folded first token of the query): each of them once,
    none else, in non-increasing order of score, each with its own title,
    URL and snippet. *)
Theorem search_returns_matching_documents_ranked r files e (query first_term : pystr)
    (rest : list pystr) :
  SearchEngine_init lower re_findall_words r files = Ok e →
  query ≠ [] → strip query ≠ [] →
  SearchEngine_tokenize lower re_findall_words query = first_term :: rest →
  ∃ results,
    SearchEngine_search lower strip re_findall_words e query = Ok results ∧
    StronglySorted (λ a b, score b <= score a)%Q results ∧
    NoDup (map doc_id results) ∧
    (∀ k, k ∈ map doc_id results ↔
          ∃ (i : nat) d,
            files !! i = Some d ∧ k = Z.of_nat i + 1 ∧
            lower first_term
              ∈ SearchEngine_tokenize lower re_findall_words (plain_text d)) ∧
    (∀ res, res ∈ results →
       ∃ (i : nat) d,
         files !! i = Some d ∧ doc_id res = Z.of_nat i + 1 ∧
         title res = file_title d ∧ url res = file_url d ∧
         snippet res
         = SearchEngine_extract_snippet lower strip (plain_text d) (lower first_term) 150).
Proof using Type.
  intros Hinit Hq Hs Htok. pose proof (init_loaded _ _ _ _ _ Hinit) as He.
  destruct (loaded_spec lower re_findall_words files)
    as (Hids & Hinv & Hstore & Hidx & Hnd & _).
  assert (inverted_index e = inverted_index (loaded lower re_findall_words files))
    as Hindex by (rewrite He; done).
  assert (b_plus_tree e = b_plus_tree (loaded lower re_findall_words files))
    as Htree by (rewrite He; done).
  unfold SearchEngine_search.
  rewrite (bool_decide_eq_false_2 (query = [])), (bool_decide_eq_false_2 (strip query = []))
    by done.
  cbn [orb]. rewrite Htok, Hindex.
  specialize (Hidx (lower first_term)). specialize (Hnd (lower first_term)).
  set (docs := default [] (dict_get (lower first_term)
                 (inverted_index (loaded lower re_findall_words files)))) in *.
  assert (∀ k, k ∈ docs →
            ∃ (i : nat) d, files !! i = Some d ∧ k = Z.of_nat i + 1 ∧
              BPlusTree_search (b_plus_tree e) k
              = Ok (Some (doc_metadata lower re_findall_words d))) as Hfound.
  { intros k (i & d & Hi & -> & _)%Hidx. exists i, d. split_and!; [done..|].
    rewrite Htree, BPlusTree_search_spec, Hstore by done.
    rewrite decide_True by lia.
    replace (Z.to_nat (Z.of_nat i + 1 - 1)) with i by lia. by rewrite Hi. }
  destruct (score_documents_found e (lower first_term) docs [])
    as (results & Hrun & Hdocs & Hres).
  { intros k Hk. destruct (Hfound k Hk) as (i & d & _ & _ & ?). by eexists. }
  destruct (sort_results_spec results) as [Hperm Hsorted].
  assert (map doc_id (sort_results results) ≡ₚ docs) as Hperm'.
  { rewrite <-Hdocs. by apply Permutation_map. }
  assert (StronglySorted (λ a b, score b <= score a)%Q (sort_results results) ∧
          NoDup (map doc_id (sort_results results)) ∧
          (∀ k, k ∈ map doc_id (sort_results results) ↔
                ∃ (i : nat) d,
                  files !! i = Some d ∧ k = Z.of_nat i + 1 ∧
                  lower first_term
                    ∈ SearchEngine_tokenize lower re_findall_words (plain_text d)) ∧
          (∀ res, res ∈ sort_results results →
             ∃ (i : nat) d,
               files !! i = Some d ∧ doc_id res = Z.of_nat i + 1 ∧
               title res = file_title d ∧ url res = file_url d ∧
               snippet res
               = SearchEngine_extract_snippet lower strip (plain_text d)
                   (lower first_term) 150)) as Hfinal.
  { split_and!; [done| | |].
    - by rewrite Hperm'.
    - intros k. by rewrite Hperm'.
    - intros res Hin. rewrite Hperm in Hin.
      destruct (Hres res Hin) as (md & Hmd & Htitle & Hurl & Hsnip).
      destruct (Hfound (doc_id res)) as (i & d & Hi & Hk & Hmd').
      { rewrite <-Hdocs. by apply list_elem_of_fmap_2. }
      rewrite Hmd in Hmd'. injection Hmd' as ->.
      exists i, d. by split_and!. }
  clearbody docs. destruct docs as [|k0 docs'].
  - destruct results; [|done]. by exists [].
  - rewrite Hrun. simpl. by exists (sort_results results).
Qed.

Lemma elem_of_py_set (w : pystr) (words : list pystr) : w ∈ py_set words → w ∈ words.
Proof.
  induction words as [|w' words IH]; simpl; [done|].
  intros [->|Hin]%elem_of_cons; [left|right].
  apply IH. apply list_elem_of_In in Hin. apply filter_In in Hin as [Hin _].
  by apply list_elem_of_In.
Qed.

Lemma StronglySorted_take {A} (R : A → A → Prop) (n : nat) (l : list A) :
  StronglySorted R l → StronglySorted R (take n l).
Proof.
  intros Hl. revert n. induction Hl as [|a l Hl IH Ha]; intros [|n]; simpl;
    try constructor; [apply IH|].
  eapply Forall_impl; [by apply Forall_take|done].
Qed.

(** X22: [autocomplete] of the engine suggests at most five words, in
    alphabetical order and none twice; each is the case-folded form of a
    token of a loaded document and starts with the case-folded, stripped
    prefix. *)
Theorem engine_autocomplete_at_most_five r files e (prefix : pystr) :
  SearchEngine_init lower re_findall_words r files = Ok e →
  prefix ≠ [] → strip prefix ≠ [] →
  (length (SearchEngine_autocomplete lower strip e prefix) ≤ 5)%nat ∧
  StronglySorted str_lt (SearchEngine_autocomplete lower strip e prefix) ∧
  ∀ w, w ∈ SearchEngine_autocomplete lower strip e prefix →
       lower (strip prefix) `prefix_of` w ∧
       ∃ d token, d ∈ files ∧
                  token ∈ SearchEngine_tokenize lower re_findall_words (plain_text d) ∧
                  w = lower token.
Proof using Type.
  intros Hinit Hp Hs.
  destruct (init_spec lower re_findall_words r files e Hinit) as [_ Htrie].
  unfold SearchEngine_autocomplete.
  rewrite (bool_decide_eq_false_2 (prefix = [])), (bool_decide_eq_false_2 (strip prefix = []))
    by done.
  simpl. rewrite Htrie.
  destruct (Trie_autocomplete_candidates lower
              (indexed_words lower re_findall_words files) (strip prefix))
    as (words & -> & Hnd & Hin).
  change (py_slice_to 5 (py_sort words)) with (take 5 (py_sort words)).
  split_and!.
  - rewrite length_take. lia.
  - apply StronglySorted_take. by apply py_sort_strictly_sorted.
  - intros w Hw. apply (subseteq_take 5) in Hw. rewrite py_sort_perm in Hw.
    apply Hin in Hw as [(w0 & Hw0 & ->) Hpre].
    split; [done|]. unfold indexed_words in Hw0.
    apply elem_of_flat_map in Hw0 as (d & Hd & Hw0%elem_of_py_set).
    by exists d, w0.
Qed.
End search_results.

Section snippets.
Variables (lower strip : pystr → pystr).
Hypothesis strip_shortens : ∀ s : pystr, (length (strip s) ≤ length s)%nat.

(** X23: a snippet can be longer than [max_length]: by the two ellipses, and
    no more.  (For [max_length >= 50], as [search] calls it.) *)
Theorem snippet_length_bound (content query_term : pystr) (max_length : Z) :
  50 ≤ max_length →
  Z.of_nat (length (SearchEngine_extract_snippet lower strip content query_term max_length))
  ≤ max_length + 6.
Proof using strip_shortens.
  intros Hmax. unfold SearchEngine_extract_snippet.
  set (idx := py_find (lower query_term) (lower content)).
  set (len := Z.of_nat (length content)).
  destruct (idx =? -1).
  - destruct (Z.ltb_spec max_length len); [|lia].
    unfold py_slice. rewrite length_app, length_take, length_drop. simpl. lia.
  - set (start := Z.max 0 (idx - 50)). set (stop := Z.min len (idx + max_length - 50)).
    assert (Z.of_nat (length (py_slice start stop content)) ≤ max_length) as Hslice.
    { unfold py_slice. rewrite length_take. unfold start, stop. lia. }
    etrans; [apply inj_le, strip_shortens|].
    destruct (0 <? start), (stop <? len);
      rewrite ?length_app; simpl; rewrite ?length_app; simpl; lia.
Qed.
End snippets.

Lemma ascii_lstrip_length (s : pystr) : (length (ascii_lstrip s) ≤ length s)%nat.
Proof.
  induction s as [|c s IH]; simpl; [done|]. destruct (ascii_is_space c); simpl; lia.
Qed.

Lemma ascii_strip_length (s : pystr) : (length (ascii_strip s) ≤ length s)%nat.
Proof.
  unfold ascii_strip. rewrite length_reverse.
  etrans; [apply ascii_lstrip_length|]. rewrite length_reverse.
  apply ascii_lstrip_length.
Qed.

(** *** Concrete runs of the constructor *)

Definition two_documents : list Document :=
  [mkDocument (py "data/a.txt") (py "Tries") (py "https://cs.example.com/a")
     (py "tries are trees");
   mkDocument (py "data/b.txt") (py "Trees") (py "https://cs.example.com/b")
     (py "trees are graphs")].

Lemma constructor_raises_on_exactly_two_documents_witness :
  SearchEngine_init ascii_lower ascii_findall_words [3; 1; 4]%nat two_documents
  = Raise ValueError.
Proof.
  apply (constructor_raises_on_exactly_two_documents ascii_lower ascii_findall_words
           [3; 1; 4]%nat two_documents).
  reflexivity.
Defined.

Lemma every_document_cites_two_to_four_others_witness :
  ∃ outs, dict_get 1 (adjacency_list (graph three_documents_engine_value))
          = Some outs ∧
          (2 ≤ length outs ≤ 4)%nat ∧ NoDup outs ∧ (1 ∉ outs) ∧
          ∀ c, c ∈ outs → c ∈ doc_ids three_documents_engine_value.
Proof.
  destruct (every_document_cites_two_to_four_others ascii_lower ascii_findall_words
              [] three_documents three_documents_engine_value) as [_ Hcites].
  - vm_compute. reflexivity.
  - simpl. lia.
  - apply Hcites. vm_compute. left.
Defined.

Lemma authority_scores_sum_to_one_witness :
  (sum_scores (pagerank_scores (graph three_documents_engine_value)) == 1)%Q.
Proof.
  apply (authority_scores_sum_to_one ascii_lower ascii_findall_words
           [] three_documents three_documents_engine_value).
  - vm_compute. reflexivity.
  - simpl. lia.
Defined.

Lemma documents_numbered_in_load_order_witness :
  doc_ids three_documents_engine_value
  = map (λ i, Z.of_nat i + 1) (seq 0 (length three_documents)).
Proof.
  apply (documents_numbered_in_load_order ascii_lower ascii_findall_words
           [] three_documents three_documents_engine_value).
  vm_compute. reflexivity.
Defined.

Lemma inverted_index_lists_documents_with_word_witness :
  NoDup (default [] (dict_get (py "trees")
                       (inverted_index three_documents_engine_value))).
Proof.
  apply (inverted_index_lists_documents_with_word ascii_lower ascii_findall_words
           [] three_documents three_documents_engine_value (py "trees")).
  vm_compute. reflexivity.
Defined.

Lemma term_frequency_is_share_of_tokens_witness :
  SearchEngine_calculate_term_frequency ascii_lower three_documents_engine_value
    7 (py "Trees") = 0%Q.
Proof.
  destruct (term_frequency_is_share_of_tokens ascii_lower ascii_findall_words
              [] three_documents three_documents_engine_value (py "Trees"))
    as [_ Hnone].
  - vm_compute. reflexivity.
  - apply Hnone. right. simpl. lia.
Defined.

Lemma search_returns_matching_documents_ranked_witness :
  ∃ results,
    SearchEngine_search ascii_lower ascii_strip ascii_findall_words
      three_documents_engine_value (py "  Trees?") = Ok results ∧
    StronglySorted (λ a b, score b <= score a)%Q results ∧
    NoDup (map doc_id results).
Proof.
  destruct (search_returns_matching_documents_ranked ascii_lower ascii_strip
              ascii_findall_words [] three_documents three_documents_engine_value
              (py "  Trees?") (py "trees") [])
    as (results & Hrun & Hsorted & Hnd & _).
  - vm_compute. reflexivity.
  - done.
  - vm_compute. discriminate.
  - vm_compute. reflexivity.
  - by exists results.
Defined.

Lemma engine_autocomplete_at_most_five_witness :
  (length (SearchEngine_autocomplete ascii_lower ascii_strip
             three_documents_engine_value (py " tr ")) ≤ 5)%nat.
Proof.
  apply (engine_autocomplete_at_most_five ascii_lower ascii_strip ascii_findall_words
           [] three_documents three_documents_engine_value (py " tr ")).
  - vm_compute. reflexivity.
  - done.
  - vm_compute. discriminate.
Defined.

Lemma snippet_length_bound_witness :
  Z.of_nat (length (SearchEngine_extract_snippet ascii_lower ascii_strip
                      (py "tries are trees") (py "trees") 150))
  ≤ 150 + 6.
Proof.
  apply (snippet_length_bound ascii_lower ascii_strip ascii_strip_length
           (py "tries are trees") (py "trees") 150).
  lia.
Defined.
